(** * wacz-preparator: the collection synchronization and assembly pipeline

    A shallow embedding of [src/index.js] (class [Preparator]; the same
    methods are found again in [src/ArchiveItExtractor.js]) and the
    properties its specification states about it.

    Conventions of the embedding:
    - a JavaScript [?string] is an [option string] ([None] is [null] or
      [undefined]); truthiness is written out ([truthy_str]);
    - a JavaScript [number] is [number] below: NaN, the two infinities, or a
      finite value kept as a rational (every double is one);
    - code that may throw returns a [completion]; a [try]/[catch] is a
      [match] on it;
    - [this.WARCs] is a list of records; a method that mutates the entries
      returns the updated list, and a group of entries (an array of
      references to the shared objects) is a list of positions in it;
    - built-ins of the host ([Date], [crypto], [Number], [URL], the network)
      are Section variables: the theorems hold whatever they answer. *)

From Stdlib Require Import QArith Ascii String.
From stdpp Require Import gmap strings list fin_maps pretty.

Open Scope string_scope.

(** ** JavaScript values *)

Module Js.

Inductive number :=
| NaN
| PosInfinity
| NegInfinity
| Finite (q : Q).

Definition of_nat (n : nat) : number := Finite (inject_Z (Z.of_nat n)).

(** [a < b] of JavaScript: false as soon as one side is NaN. *)
Definition lt (a b : number) : bool :=
  match a, b with
  | NaN, _ | _, NaN => false
  | PosInfinity, _ => false
  | _, NegInfinity => false
  | NegInfinity, _ => true
  | Finite _, PosInfinity => true
  | Finite p, Finite q => negb (Qle_bool q p)
  end.

(** [a > b] is [b < a]. *)
Definition gt (a b : number) : bool := lt b a.

(** [a >= b] of JavaScript: not the negation of [a < b] on NaN. *)
Definition ge (a b : number) : bool :=
  match a, b with
  | NaN, _ | _, NaN => false
  | PosInfinity, _ => true
  | _, NegInfinity => true
  | NegInfinity, _ => false
  | Finite _, PosInfinity => false
  | Finite p, Finite q => Qle_bool q p
  end.

Definition isNaN (a : number) : bool :=
  match a with NaN => true | _ => false end.

Inductive value :=
| Undefined
| Null
| Bool (b : bool)
| Num (n : number)
| Str (s : string).

(** ToBoolean. *)
Definition truthy (v : value) : bool :=
  match v with
  | Undefined | Null => false
  | Bool b => b
  | Num NaN => false
  | Num (Finite q) => negb (Qeq_bool q 0)
  | Num _ => true
  | Str s => negb (String.eqb s "")
  end.

(** Truthiness of a [?string] field. *)
Definition truthy_str (o : option string) : bool :=
  match o with
  | Some s => negb (String.eqb s "")
  | None => false
  end.

Inductive error :=
| Error (message : string)
| TypeError (message : string)
| RangeError (message : string)
| AssertionError (message : string).

Inductive completion (A : Type) :=
| Returns (a : A)
| Throws (e : error).
Arguments Returns {A} a.
Arguments Throws {A} e.

(** *** String.prototype *)

(** [hay.includes(needle)] *)
Fixpoint includes (hay needle : string) : bool :=
  String.prefix needle hay ||
  match hay with
  | EmptyString => false
  | String _ rest => includes rest needle
  end.

(** [s.startsWith(p)] *)
Definition startsWith (s p : string) : bool := String.prefix p s.

(** [s.endsWith(suffix)] *)
Fixpoint endsWith (s suffix : string) : bool :=
  String.eqb s suffix ||
  match s with
  | EmptyString => false
  | String _ rest => endsWith rest suffix
  end.

(** [s.replace(c, by)] with a one-character string pattern: only the first
    occurrence is replaced. *)
Fixpoint replace_first (c : ascii) (by_ : string) (s : string) : string :=
  match s with
  | EmptyString => EmptyString
  | String a rest =>
      if Ascii.eqb a c then by_ ++ rest else String a (replace_first c by_ rest)
  end.

(** [s.split(sep)[0]] with a one-character separator. *)
Fixpoint split_head (sep : ascii) (s : string) : string :=
  match s with
  | EmptyString => EmptyString
  | String a rest =>
      if Ascii.eqb a sep then EmptyString else String a (split_head sep rest)
  end.

(** [s.replaceAll(/[ \-:]/g, '')] *)
Fixpoint strip_separators (s : string) : string :=
  match s with
  | EmptyString => EmptyString
  | String a rest =>
      if Ascii.eqb a " " || Ascii.eqb a "-" || Ascii.eqb a ":"
      then strip_separators rest
      else String a (strip_separators rest)
  end.

(** Template-literal rendering of a [?string]: [`${x}`]. The source never
    distinguishes [null] from [undefined] in these fields; the API leaves a
    missing JSON key [undefined]. *)
Definition template (o : option string) : string :=
  match o with
  | Some s => s
  | None => "undefined"
  end.

(** [`${err}`]: the name of the error and its message. *)
Definition error_text (e : error) : string :=
  match e with
  | Error m => "Error: " ++ m
  | TypeError m => "TypeError: " ++ m
  | RangeError m => "RangeError: " ++ m
  | AssertionError m => "AssertionError: " ++ m
  end.

(** The line feed of a string literal. *)
Definition LF : string := String (ascii_of_nat 10) EmptyString.

End Js.

(** ** The logger

    [this.log] is any object with [trace], [info], [warn] and [error]; what
    it receives is kept as a list, oldest first. The messages are the
    source's, less the quotation marks some of them hold. *)

Inductive level := LTrace | LInfo | LWarn | LError.

Inductive log_arg :=
| Msg (text : string)
| Caught (e : Js.error).

Definition log_entry : Type := level * log_arg.
Definition logger : Type := list log_entry.

Definition log_to (l : level) (a : log_arg) (out : logger) : logger :=
  (out ++ [(l, a)])%list.

(** ** Data model ([src/index.types.js], the classes exported by
       [src/ArchiveItExtractor.js]) *)

Record ArchiveItCrawledUrl := {
  seedId : option Z;
  url : option string;
  timestamp : option string;
  title : option string
}.

Record ArchiveItWARCReference := {
  downloadUrl : option string;
  downloaded : bool;
  filename : option string;
  remoteSHA1Hash : option string;
  localSHA1Hash : option string;
  crawlId : option Z;
  crawledUrls : list ArchiveItCrawledUrl
}.

(** An entry of [this.pages]: [{url, title, ts}]. *)
Record WACZPage := {
  page_url : option string;
  page_title : option string;
  page_ts : option string
}.

Definition MISSING_URLS_PATCH : string := "MISSING_URLS_PATCH".

(** [ref.filename.includes('MISSING_URLS_PATCH')]: a [TypeError] when the
    listing gave no filename. *)
Definition is_missing_urls_patch (ref : ArchiveItWARCReference)
  : Js.completion bool :=
  match filename ref with
  | Some f => Js.Returns (Js.includes f MISSING_URLS_PATCH)
  | None => Js.Throws (Js.TypeError "Cannot read properties of undefined (reading 'includes')")
  end.

(** ** PageIndexBuilder: [Preparator.generatePagesList] *)

Section GeneratePagesList.

(** [new Date(s).toISOString()]: [None] when the date is invalid and
    [toISOString] throws a [RangeError]. *)
Variable Date_toISOString : string -> option string.

Definition formatTimestamp (timestamp : option string) : option string :=
  match timestamp with
  | None => None
  | Some t =>
      let t := Js.replace_first " " "T" t in
      let t := t ++ "Z" in
      match Date_toISOString t with
      | Some iso => Some (Js.split_head "." iso ++ "Z")
      | None => None
      end
  end.

(** The inner [for (const crawl of entry.crawledUrls)] loop. *)
Fixpoint push_pages (crawls : list ArchiveItCrawledUrl) (pages : list WACZPage)
  : list WACZPage :=
  match crawls with
  | [] => pages
  | crawl :: rest =>
      if negb (Js.truthy_str (title crawl)) then push_pages rest pages
      else push_pages rest
             (pages ++ [{| page_url := url crawl;
                           page_title := title crawl;
                           page_ts := formatTimestamp (timestamp crawl) |}])%list
  end.

(** The outer [for (const entry of this.WARCs)] loop. [entry.crawledUrls]
    is an array from the class initialiser on, so the guard
    [if (!entry.crawledUrls) continue] never fires. *)
Fixpoint pages_loop (WARCs : list ArchiveItWARCReference) (pages : list WACZPage)
  : list WACZPage * Js.completion unit :=
  match WARCs with
  | [] => (pages, Js.Returns tt)
  | entry :: rest =>
      match is_missing_urls_patch entry with
      | Js.Throws e => (pages, Js.Throws e)
      | Js.Returns true => pages_loop rest pages
      | Js.Returns false => pages_loop rest (push_pages (crawledUrls entry) pages)
      end
  end.

(** [this.pages = []], then the loop: the new [this.pages] and how the
    call completed. *)
Definition generatePagesList (WARCs : list ArchiveItWARCReference)
  : list WACZPage * Js.completion unit :=
  pages_loop WARCs [].

End GeneratePagesList.

(** Vocabulary of the statements about [generatePagesList]: the entry a
    crawled url is pushed as, and what a reference adds to [this.pages]. *)

Definition page_of (D : string -> option string) (crawl : ArchiveItCrawledUrl)
  : WACZPage :=
  {| page_url := url crawl; page_title := title crawl;
     page_ts := formatTimestamp D (timestamp crawl) |}.

Definition entries_of (D : string -> option string)
    (ref : ArchiveItWARCReference) : list WACZPage :=
  match is_missing_urls_patch ref with
  | Js.Returns false =>
      map (page_of D)
          (filter (λ c, Js.truthy_str (title c) = true) (crawledUrls ref))
  | _ => []
  end.

(** ** The collection folder

    The directory [this.collectionPath] as [readdir] sees it: entry names
    and what they are. Every path the methods below touch is
    [`${this.collectionPath}${name}`], so a path is identified with the entry
    name (names hold no separator). *)

Inductive node :=
| File (content : string) (readable : bool)
| Directory.

Abbreviation folder := (gmap string node).

(** [readdir(this.collectionPath)] *)
Definition readdir (d : folder) : list string := (map_to_list d).*1.

(** [access(path)]: rejects when nothing is there. *)
Definition access (name : string) (d : folder) : Js.completion unit :=
  match d !! name with
  | Some _ => Js.Returns tt
  | None => Js.Throws (Js.Error "ENOENT")
  end.

(** [readFile(path)] *)
Definition readFile (name : string) (d : folder) : Js.completion string :=
  match d !! name with
  | Some (File content true) => Js.Returns content
  | Some (File _ false) => Js.Throws (Js.Error "EACCES")
  | Some Directory => Js.Throws (Js.Error "EISDIR")
  | None => Js.Throws (Js.Error "ENOENT")
  end.

(** [rm(path)] without options: removes a file, rejects on a directory or
    on a missing path. *)
Definition rm (name : string) (d : folder) : Js.completion folder :=
  match d !! name with
  | Some (File _ _) => Js.Returns (delete name d)
  | Some Directory => Js.Throws (Js.Error "ERR_FS_EISDIR")
  | None => Js.Throws (Js.Error "ENOENT")
  end.

(** [appendFile(path, chunk)]: creates the file when it is missing. *)
Definition appendFile (name chunk : string) (d : folder) : Js.completion folder :=
  match d !! name with
  | Some (File content r) => Js.Returns (<[name := File (content ++ chunk) r]> d)
  | Some Directory => Js.Throws (Js.Error "EISDIR")
  | None => Js.Returns (<[name := File chunk true]> d)
  end.

(** ** LocalStateReconciler: [Preparator.deleteLooseWARCs] *)

(** Property names every object literal inherits from [Object.prototype]:
    [key in {}] is true for them. *)
Definition Object_prototype_keys : list string :=
  ["constructor"; "__defineGetter__"; "__defineSetter__"; "hasOwnProperty";
   "__lookupGetter__"; "__lookupSetter__"; "isPrototypeOf";
   "propertyIsEnumerable"; "toString"; "valueOf"; "__proto__";
   "toLocaleString"].

(** [key in obj] for an object literal with the own keys [own]. *)
Definition js_in (key : string) (own : gset string) : bool :=
  bool_decide (key ∈ own) || bool_decide (key ∈ Object_prototype_keys).

(** [for (const entry of this.WARCs) inCollection[entry.filename] = true] *)
Definition inCollection_of (WARCs : list ArchiveItWARCReference) : gset string :=
  foldl (λ o entry, {[ Js.template (filename entry) ]} ∪ o) ∅ WARCs.

Definition WARC_GZ : string := ".warc.gz".

(** The [for (const filename of await readdir(...))] loop. *)
Fixpoint deleteLoose_loop (inCollection : gset string) (names : list string)
    (d : folder) (out : logger) : folder * logger * Js.completion unit :=
  match names with
  | [] => (d, out, Js.Returns tt)
  | filename :: rest =>
      if Js.endsWith filename WARC_GZ && js_in filename inCollection
      then deleteLoose_loop inCollection rest d out
      else
        let out := log_to LInfo
          (Msg (filename ++ ": present on disk but not in collection, will be deleted.")) out in
        match rm filename d with
        | Js.Returns d' => deleteLoose_loop inCollection rest d' out
        | Js.Throws e => (d, out, Js.Throws e)
        end
  end.

Definition deleteLooseWARCs (WARCs : list ArchiveItWARCReference)
    (d : folder) (out : logger) : folder * logger * Js.completion unit :=
  deleteLoose_loop (inCollection_of WARCs) (readdir d) d out.

(** ** LocalStateReconciler: [Preparator.checkWARCsHashes] *)

Definition set_downloaded (b : bool) (e : ArchiveItWARCReference)
  : ArchiveItWARCReference :=
  {| downloadUrl := downloadUrl e; downloaded := b; filename := filename e;
     remoteSHA1Hash := remoteSHA1Hash e; localSHA1Hash := localSHA1Hash e;
     crawlId := crawlId e; crawledUrls := crawledUrls e |}.

Definition set_localSHA1Hash (h : option string) (e : ArchiveItWARCReference)
  : ArchiveItWARCReference :=
  {| downloadUrl := downloadUrl e; downloaded := downloaded e;
     filename := filename e; remoteSHA1Hash := remoteSHA1Hash e;
     localSHA1Hash := h; crawlId := crawlId e; crawledUrls := crawledUrls e |}.

Definition set_crawledUrls (l : list ArchiveItCrawledUrl)
    (e : ArchiveItWARCReference) : ArchiveItWARCReference :=
  {| downloadUrl := downloadUrl e; downloaded := downloaded e;
     filename := filename e; remoteSHA1Hash := remoteSHA1Hash e;
     localSHA1Hash := localSHA1Hash e; crawlId := crawlId e; crawledUrls := l |}.

Section CheckWARCsHashes.

(** [crypto.createHash('sha1').update(content).digest('hex')] *)
Variable sha1_hex : string -> string.

(** The body of [for (const entry of this.WARCs)]: the entry as the
    iteration leaves it, the folder, the log, and whether [rm] threw. *)
Definition check_entry (entry : ArchiveItWARCReference) (d : folder)
    (out : logger)
  : ArchiveItWARCReference * folder * logger * Js.completion unit :=
  let filepath := Js.template (filename entry) in
  let entry := set_downloaded true entry in
  match access filepath d with
  | Js.Throws _ => (set_downloaded false entry, d, out, Js.Returns tt)
  | Js.Returns _ =>
      let out := log_to LInfo (Msg (filepath ++ ": present on disk, checking hash.")) out in
      let '(entry, out) :=
        match readFile filepath d with
        | Js.Returns content =>
            (set_localSHA1Hash (Some (sha1_hex content)) entry, out)
        | Js.Throws err =>
            let out := log_to LTrace (Caught err) out in
            let out := log_to LError
              (Msg (filepath ++ ": error occurred while calculating SHA-1 hash.")) out in
            (set_downloaded false entry, out)
        end in
      (* [a && a !== b]: with [a] a non-empty string, [a !== b] is
         inequality of the two fields. *)
      if Js.truthy_str (localSHA1Hash entry)
         && negb (bool_decide (localSHA1Hash entry = remoteSHA1Hash entry))
      then
        let out := log_to LError
          (Msg (filepath ++ ": remote and local SHA-1 hash mismatch. Deleting local copy.")) out in
        match rm filepath d with
        | Js.Returns d' => (set_downloaded false entry, d', out, Js.Returns tt)
        | Js.Throws e => (entry, d, out, Js.Throws e)
        end
      else (entry, d, out, Js.Returns tt)
  end.

(** The loop over [this.WARCs]; entries are mutated in place, so a throw
    leaves the entries after the offending one as they were. *)
Fixpoint checkWARCsHashes (WARCs : list ArchiveItWARCReference) (d : folder)
    (out : logger)
  : list ArchiveItWARCReference * folder * logger * Js.completion unit :=
  match WARCs with
  | [] => ([], d, out, Js.Returns tt)
  | entry :: rest =>
      match check_entry entry d out with
      | (entry', d', out', Js.Returns _) =>
          let '(rest', d'', out'', c) := checkWARCsHashes rest d' out' in
          (entry' :: rest', d'', out'', c)
      | (entry', d', out', Js.Throws e) =>
          (entry' :: rest, d', out', Js.Throws e)
      end
  end.

End CheckWARCsHashes.

(** Vocabulary of the statements about [checkWARCsHashes]: what holds of
    an entry [e], left as [e'], when the folder went from [d] to [d']. The
    digest is computed when the path holds a file that can be read. *)

Definition hashes_checked (sha1_hex : string -> string) (d d' : folder)
    (e e' : ArchiveItWARCReference) : Prop :=
  let path := Js.template (filename e) in
  (d !! path = None -> downloaded e' = false)
  /\ (forall content,
        d !! path = Some (File content true) ->
        Some (sha1_hex content) <> remoteSHA1Hash e ->
        d' !! path = None /\ downloaded e' = false)
  /\ (forall content,
        d !! path = Some (File content true) ->
        Some (sha1_hex content) = remoteSHA1Hash e ->
        downloaded e' = true /\ d' !! path = Some (File content true)).

(** ** RateLimitedBatcher: [Promise.allSettled(group.map(fetchOne))]

    Every operation of the group is started and awaited, whatever the others
    do; the result array has one entry per operation, in the order of the
    group. The operations of a group write to distinct objects, so their
    interleaving is taken in the order of the group. [I] is what a group
    holds, [S] what the operations read and write. *)

Fixpoint allSettled {I S : Type} (fetchOne : I -> S -> S * Js.completion unit)
    (group : list I) (s : S) : S * list (Js.completion unit) :=
  match group with
  | [] => (s, [])
  | item :: rest =>
      let '(s1, result) := fetchOne item s in
      let '(s2, results) := allSettled fetchOne rest s1 in
      (s2, result :: results)
  end.

(** [for (const result of results) if (result.status === 'rejected') ...]:
    the reason is traced, and [warning] (when the stage has one) follows. *)
Fixpoint log_rejected (warning : option string)
    (results : list (Js.completion unit)) (out : logger) : logger :=
  match results with
  | [] => out
  | Js.Returns _ :: rest => log_rejected warning rest out
  | Js.Throws reason :: rest =>
      let out := log_to LTrace (Caught reason) out in
      let out := match warning with
                 | Some w => log_to LWarn (Msg w) out
                 | None => out
                 end in
      log_rejected warning rest out
  end.

(** What one [Promise.allSettled] call was given and what it answered; the
    stages below return the calls they made, oldest first. *)
Definition settled (I : Type) : Type := list I * list (Js.completion unit).

(** Vocabulary of the statements about the batched stages. Every call has
    one result per member of its group: *)
Definition one_result_each {I : Type} (calls : list (settled I)) : Prop :=
  Forall (λ call, length call.2 = length call.1) calls.

(** and the result recorded for a member is [outcome] of that member. *)
Definition own_results {I : Type} (outcome : I -> Js.completion unit)
    (calls : list (settled I)) : Prop :=
  Forall (λ call, call.2 = outcome <$> call.1) calls.

(** The members of all the groups, in the order they were launched. *)
Definition launched {I : Type} (calls : list (settled I)) : list I :=
  concat (fst <$> calls).

(** The references [fetchWARCs] has to download: [ref.downloaded === false]. *)
Definition pending (WARCs : list ArchiveItWARCReference) (i : nat) : bool :=
  match WARCs !! i with
  | Some ref => negb (downloaded ref)
  | None => false
  end.

(** The pages title resolution is meant for: the crawled urls of the
    references that are no [MISSING_URLS_PATCH] batch. *)
Definition candidates (WARCs : list ArchiveItWARCReference) : nat :=
  sum_list ((λ ref, match is_missing_urls_patch ref with
                    | Js.Returns false => length (crawledUrls ref)
                    | _ => 0
                    end) <$> WARCs).

(** What title resolution leaves alone: everything but the titles. *)
Definition skeleton (WARCs : list ArchiveItWARCReference)
  : list (option string * list (option Z * option string * option string)) :=
  (λ ref, (filename ref,
           (λ c, (seedId c, url c, timestamp c)) <$> crawledUrls ref)) <$> WARCs.

(** A [fetch] that resolved: the status, and the body as the caller reads
    it ([Throws] when reading or parsing it fails). *)
Record Response (A : Type) := {
  status : Z;
  body : Js.completion A
}.
Arguments status {A} r.
Arguments body {A} r.

(** ** CrawlInfoEnricher: [Preparator.fetchWARCsCrawlInfo] *)

(** An entry of the seed report: [{seed_id, seed, timestamp}]. *)
Record SeedRecord := {
  seed_id : option Z;
  seed : option string;
  seed_timestamp : option string
}.

Definition crawledUrl_of_seed (s : SeedRecord) : ArchiveItCrawledUrl :=
  {| seedId := seed_id s; url := seed s; timestamp := seed_timestamp s;
     title := None |}.

Section FetchWARCsCrawlInfo.

(** The answer of [/api/reports/seed/<crawlId>] to the request made for
    the reference at position [i]; [Throws] when [fetch] rejects. *)
Variable seed_report :
  nat -> option Z -> Js.completion (Response (list SeedRecord)).

Variable concurrency : Js.number.

Definition crawlInfo_fetchOne (i : nat)
    (s : list ArchiveItWARCReference * logger)
  : (list ArchiveItWARCReference * logger) * Js.completion unit :=
  let '(WARCs, out) := s in
  match WARCs !! i with
  | None => (s, Js.Throws (Js.TypeError "Cannot read properties of undefined"))
  | Some ref =>
      let out := log_to LInfo
        (Msg (Js.template (filename ref) ++ ": pulling crawl info.")) out in
      match seed_report i (crawlId ref) with
      | Js.Throws e => ((WARCs, out), Js.Throws e)
      | Js.Returns response =>
          if negb (status response =? 200)%Z
          then ((WARCs, out),
                Js.Throws (Js.Error ("Archive-It API responded with "
                                     ++ pretty (status response)
                                     ++ " for crawl ID "
                                     ++ match crawlId ref with
                                        | Some id => pretty id
                                        | None => "undefined"
                                        end ++ ".")))
          else
            match body response with
            | Js.Throws e => ((WARCs, out), Js.Throws e)
            | Js.Returns parsed =>
                let ref' := set_crawledUrls
                  (crawledUrls ref ++ map crawledUrl_of_seed parsed)%list ref in
                ((<[i := ref']> WARCs, out), Js.Returns tt)
            end
      end
  end.

(** The [for (let i = 0; ...)] loop, [range] being the values [i] has yet to
    take; [group] holds positions of [this.WARCs]. *)
Fixpoint crawlInfo_loop (range : list nat) (group : list nat)
    (s : list ArchiveItWARCReference * logger) (calls : list (settled nat))
  : (list ArchiveItWARCReference * logger) * list (settled nat) :=
  match range with
  | [] => (s, calls)
  | i :: rest =>
      let group :=
        if Js.lt (Js.of_nat (length group)) concurrency
        then (group ++ [i])%list else group in
      if Js.ge (Js.of_nat (length group)) concurrency
         || Nat.eqb i (length s.1 - 1)
      then
        let '((WARCs, out), results) := allSettled crawlInfo_fetchOne group s in
        let out := log_rejected
          (Some "A request to pull crawl info failed. Skipping.") results out in
        crawlInfo_loop rest [] (WARCs, out) (calls ++ [(group, results)])%list
      else crawlInfo_loop rest group s calls
  end.

Definition fetchWARCsCrawlInfo (WARCs : list ArchiveItWARCReference)
    (out : logger)
  : (list ArchiveItWARCReference * logger) * list (settled nat) :=
  crawlInfo_loop (seq 0 (length WARCs)) [] (WARCs, out) [].

End FetchWARCsCrawlInfo.

(** ** TitleResolver: [Preparator.fetchCrawledUrlsTitle] *)

Definition ARCHIVE_IT_PLAYBACK_URL : string := "https://wayback.archive-it.org".

Definition ARCHIVE_IT_WAYBACK_SENTINEL : string := "Archive-it Wayback".

Definition set_title (t : option string) (c : ArchiveItCrawledUrl)
  : ArchiveItCrawledUrl :=
  {| seedId := seedId c; url := url c; timestamp := timestamp c; title := t |}.

(** What [fetchOne] reads of the replay response: the status, the
    [content-type] header, and the text of the [<title>] element of the
    parsed body ([Returns None] when the page has none, [Throws] when the
    body cannot be read). *)
Record ReplayResponse := {
  replay_status : Z;
  replay_content_type : option string;
  replay_title : Js.completion (option string)
}.

Section FetchCrawledUrlsTitle.

(** [`${this.collectionId}`] *)
Variable collectionId : string.

Variable encodeURIComponent : string -> string.

(** [/api/seed/<seedId>], asked for the crawled url at position [p]:
    [Throws] when the request fails or the body is not JSON, otherwise
    [parsed?.metadata?.Title] as the [value] of each entry of the array
    ([None] when [metadata] or [Title] is missing). *)
Variable seed_metadata :
  nat * nat -> Z -> Js.completion (option (list (option string))).

(** The replay (Wayback) endpoint, asked for the crawled url at position
    [p] with the url built by [fetchOne]. *)
Variable wayback : nat * nat -> string -> Js.completion ReplayResponse.

Variable concurrency : Js.number.

(** First attempt of [fetchOne]: the seed meta data. *)
Definition title_from_metadata (p : nat * nat) (crawl : ArchiveItCrawledUrl)
    (out : logger) : option string * logger :=
  match seedId crawl with
  | None => (None, out)
  | Some id =>
      if (id =? 0)%Z then (None, out)
      else
        match seed_metadata p id with
        | Js.Returns (Some (value :: _)) => (value, out)
        | Js.Returns _ => (None, out)
        | Js.Throws err =>
            let out := log_to LInfo
              (Msg ("An error occurred while trying to pull seed information for "
                    ++ pretty id ++ ".")) out in
            (None, log_to LTrace (Caught err) out)
        end
  end.

(** [waybackUrl]; [None] when [crawl.timestamp] is not a string and
    [substring] is a [TypeError]. *)
Definition waybackUrl_of (crawl : ArchiveItCrawledUrl) : option string :=
  match timestamp crawl with
  | None => None
  | Some ts =>
      Some (ARCHIVE_IT_PLAYBACK_URL
            ++ "/" ++ collectionId
            ++ "/" ++ Js.strip_separators (substring 0 19 ts)
            ++ "/" ++ encodeURIComponent (Js.template (url crawl)))
  end.

(** Second attempt of [fetchOne], the [try] block: [title] is the value of
    the variable when the block is entered. *)
Definition title_from_wayback (p : nat * nat) (waybackUrl : string)
    (title : option string) (out : logger) : option string * logger :=
  let caught err :=
    let out := log_to LInfo
      (Msg ("An error occurred while trying to retrieve the archived page title from "
            ++ waybackUrl ++ ".")) out in
    (title, log_to LTrace (Caught err) out) in
  match wayback p waybackUrl with
  | Js.Throws err => caught err
  | Js.Returns response =>
      if negb (replay_status response =? 200)%Z then (title, out)
      else
        match replay_content_type response with
        | None => caught (Js.TypeError "Cannot read properties of null (reading 'startsWith')")
        | Some content_type =>
            if negb (Js.startsWith content_type "text/html") then (title, out)
            else
              match replay_title response with
              | Js.Throws err => caught err
              | Js.Returns text =>
                  (* title = title === 'Archive-it Wayback' ? null : ... *)
                  if bool_decide (title = Some ARCHIVE_IT_WAYBACK_SENTINEL)
                  then (None, out)
                  else
                    match text with
                    | Some t => (Some t, out)
                    | None => caught (Js.TypeError "Cannot read properties of null (reading 'textContent')")
                    end
              end
        end
  end.

(** [fetchOne(crawl)] on the crawled url [ii] of the reference [i]. *)
Definition title_fetchOne (p : nat * nat)
    (s : list ArchiveItWARCReference * logger)
  : (list ArchiveItWARCReference * logger) * Js.completion unit :=
  let '(WARCs, out) := s in
  match WARCs !! p.1 with
  | None => (s, Js.Throws (Js.TypeError "Cannot read properties of undefined"))
  | Some ref =>
      match crawledUrls ref !! p.2 with
      | None => (s, Js.Throws (Js.TypeError "Cannot read properties of undefined"))
      | Some crawl =>
          let '(title, out) := title_from_metadata p crawl out in
          let attempt2 :=
            if negb (Js.truthy_str title) then
              match waybackUrl_of crawl with
              | None => Js.Throws (Js.TypeError "Cannot read properties of null (reading 'substring')")
              | Some waybackUrl =>
                  Js.Returns (title_from_wayback p waybackUrl title out)
              end
            else Js.Returns (title, out) in
          match attempt2 with
          | Js.Throws e => ((WARCs, out), Js.Throws e)
          | Js.Returns (title, out) =>
              if Js.truthy_str title then
                let out := log_to LInfo
                  (Msg ("Title found for " ++ Js.template (url crawl) ++ ": "
                        ++ Js.template title)) out in
                let ref' := set_crawledUrls
                  (<[p.2 := set_title title crawl]> (crawledUrls ref)) ref in
                ((<[p.1 := ref']> WARCs, out), Js.Returns tt)
              else
                let out := log_to LWarn
                  (Msg ("No title found for " ++ Js.template (url crawl) ++ ".")) out in
                ((WARCs, out), Js.Returns tt)
          end
      end
  end.

(** The inner [for (let ii = 0; ...)] loop over the crawled urls of the
    reference [i]: the group when the loop is left. *)
Fixpoint title_group_loop (i : nat) (range : list nat) (group : list (nat * nat))
  : list (nat * nat) :=
  match range with
  | [] => group
  | ii :: rest =>
      let group :=
        if Js.lt (Js.of_nat (length group)) concurrency
        then (group ++ [(i, ii)])%list else group in
      if Js.ge (Js.of_nat (length group)) concurrency
      then group (* break *)
      else title_group_loop i rest group
  end.

(** The outer [for (let i = 0; ...)] loop. *)
Fixpoint title_loop (range : list nat) (group : list (nat * nat))
    (s : list ArchiveItWARCReference * logger)
    (calls : list (settled (nat * nat)))
  : (list ArchiveItWARCReference * logger) * list (settled (nat * nat))
    * Js.completion unit :=
  match range with
  | [] => (s, calls, Js.Returns tt)
  | i :: rest =>
      match s.1 !! i with
      | None => (s, calls, Js.Throws (Js.TypeError "Cannot read properties of undefined"))
      | Some ref =>
          match is_missing_urls_patch ref with
          | Js.Throws e => (s, calls, Js.Throws e)
          | Js.Returns true => title_loop rest group s calls (* continue *)
          | Js.Returns false =>
              let group :=
                title_group_loop i (seq 0 (length (crawledUrls ref))) group in
              if Js.ge (Js.of_nat (length group)) concurrency
                 || Js.ge (Js.of_nat i) (Js.of_nat (length s.1))
              then
                let '((WARCs, out), results) := allSettled title_fetchOne group s in
                let out := log_rejected None results out in
                title_loop rest [] (WARCs, out) (calls ++ [(group, results)])%list
              else title_loop rest group s calls
          end
      end
  end.

Definition fetchCrawledUrlsTitle (WARCs : list ArchiveItWARCReference)
    (out : logger)
  : (list ArchiveItWARCReference * logger) * list (settled (nat * nat))
    * Js.completion unit :=
  title_loop (seq 0 (length WARCs)) [] (WARCs, out) [].

End FetchCrawledUrlsTitle.

(** ** FetchEngine: [Preparator.fetchWARCs] *)

(** What [fetchOne] reads of a download: the status, the chunks the body
    stream delivers, and the error the stream ends with, if any. *)
Record Download := {
  download_status : Z;
  download_chunks : list string;
  download_error : option Js.error
}.

Section FetchWARCs.

(** [fetch(ref.downloadUrl, ...)] for the reference at position [i]. *)
Variable download : nat -> option string -> Js.completion Download.

Variable concurrency : Js.number.

(** [response.body.pipeTo(dest)]: one [appendFile] per chunk. *)
Fixpoint pipeTo (name : string) (chunks : list string)
    (stream_error : option Js.error) (d : folder) : folder * Js.completion unit :=
  match chunks with
  | [] =>
      match stream_error with
      | Some e => (d, Js.Throws e)
      | None => (d, Js.Returns tt)
      end
  | chunk :: rest =>
      match appendFile name chunk d with
      | Js.Returns d' => pipeTo name rest stream_error d'
      | Js.Throws e => (d, Js.Throws e)
      end
  end.

(** [fetchOne(ref)]; the references are only read here. *)
Definition download_fetchOne (WARCs : list ArchiveItWARCReference) (i : nat)
    (s : folder * logger) : (folder * logger) * Js.completion unit :=
  let '(d, out) := s in
  match WARCs !! i with
  | None => (s, Js.Throws (Js.TypeError "Cannot read properties of undefined"))
  | Some ref =>
      let out := log_to LInfo
        (Msg (Js.template (filename ref) ++ ": downloading ...")) out in
      let filepath := Js.template (filename ref) in
      match download i (downloadUrl ref) with
      | Js.Throws e => ((d, out), Js.Throws e)
      | Js.Returns response =>
          if negb (download_status response =? 200)%Z
          then ((d, out),
                Js.Throws (Js.Error ("Archive-It API responded with "
                                     ++ pretty (download_status response)
                                     ++ " for "
                                     ++ Js.template (downloadUrl ref) ++ ".")))
          else
            match pipeTo filepath (download_chunks response)
                         (download_error response) d with
            | (d', Js.Returns _) => ((d', out), Js.Returns tt)
            | (d', Js.Throws err) =>
                ((d', out),
                 Js.Throws (Js.Error ("Failed to write " ++ filepath
                                      ++ " to disk." ++ Js.LF
                                      ++ Js.error_text err)))
            end
      end
  end.

(** The [for (let i = 0; ...)] loop. *)
Fixpoint download_loop (WARCs : list ArchiveItWARCReference)
    (range : list nat) (group : list nat) (s : folder * logger)
    (calls : list (settled nat))
  : (folder * logger) * list (settled nat) :=
  match range with
  | [] => (s, calls)
  | i :: rest =>
      let group :=
        if Js.lt (Js.of_nat (length group)) concurrency
        then
          match WARCs !! i with
          | Some ref => if negb (downloaded ref) then (group ++ [i])%list else group
          | None => group
          end
        else group in
      if Js.ge (Js.of_nat (length group)) concurrency
         || Nat.eqb i (length WARCs - 1)
      then
        let '((d, out), results) :=
          allSettled (download_fetchOne WARCs) group s in
        let out := log_rejected None results out in
        download_loop WARCs rest [] (d, out) (calls ++ [(group, results)])%list
      else download_loop WARCs rest group s calls
  end.

Definition fetchWARCs (WARCs : list ArchiveItWARCReference) (d : folder)
    (out : logger) : (folder * logger) * list (settled nat) :=
  download_loop WARCs (seq 0 (length WARCs)) [] (d, out) [].

End FetchWARCs.

(** ** The [Preparator] instance *)

Record Preparator := {
  username : option string;
  password : option string;
  log : logger;
  outputPath : option string;
  collectionPath : option string;
  WACZPath : option string;
  collectionTitle : option string;
  collectionDescription : option string;
  concurrency : Js.number;
  signingUrl : option string;
  signingToken : option string;
  WARCs : list ArchiveItWARCReference;
  pages : list WACZPage;
  collectionId : option Js.number
}.

Definition set_username (v : option string) (p : Preparator) : Preparator :=
  let 'Build_Preparator _ a2 a3 a4 a5 a6 a7 a8 a9 a10 a11 a12 a13 a14 := p in
  Build_Preparator v a2 a3 a4 a5 a6 a7 a8 a9 a10 a11 a12 a13 a14.

Definition set_password (v : option string) (p : Preparator) : Preparator :=
  let 'Build_Preparator a1 _ a3 a4 a5 a6 a7 a8 a9 a10 a11 a12 a13 a14 := p in
  Build_Preparator a1 v a3 a4 a5 a6 a7 a8 a9 a10 a11 a12 a13 a14.

Definition set_log (v : logger) (p : Preparator) : Preparator :=
  let 'Build_Preparator a1 a2 _ a4 a5 a6 a7 a8 a9 a10 a11 a12 a13 a14 := p in
  Build_Preparator a1 a2 v a4 a5 a6 a7 a8 a9 a10 a11 a12 a13 a14.

Definition set_outputPath (v : option string) (p : Preparator) : Preparator :=
  let 'Build_Preparator a1 a2 a3 _ a5 a6 a7 a8 a9 a10 a11 a12 a13 a14 := p in
  Build_Preparator a1 a2 a3 v a5 a6 a7 a8 a9 a10 a11 a12 a13 a14.

Definition set_concurrency (v : Js.number) (p : Preparator) : Preparator :=
  let 'Build_Preparator a1 a2 a3 a4 a5 a6 a7 a8 _ a10 a11 a12 a13 a14 := p in
  Build_Preparator a1 a2 a3 a4 a5 a6 a7 a8 v a10 a11 a12 a13 a14.

Definition set_signingUrl (v : option string) (p : Preparator) : Preparator :=
  let 'Build_Preparator a1 a2 a3 a4 a5 a6 a7 a8 a9 _ a11 a12 a13 a14 := p in
  Build_Preparator a1 a2 a3 a4 a5 a6 a7 a8 a9 v a11 a12 a13 a14.

Definition set_signingToken (v : option string) (p : Preparator) : Preparator :=
  let 'Build_Preparator a1 a2 a3 a4 a5 a6 a7 a8 a9 a10 _ a12 a13 a14 := p in
  Build_Preparator a1 a2 a3 a4 a5 a6 a7 a8 a9 a10 v a12 a13 a14.

Definition set_WARCs (v : list ArchiveItWARCReference) (p : Preparator)
  : Preparator :=
  let 'Build_Preparator a1 a2 a3 a4 a5 a6 a7 a8 a9 a10 a11 _ a13 a14 := p in
  Build_Preparator a1 a2 a3 a4 a5 a6 a7 a8 a9 a10 a11 v a13 a14.

Definition set_pages (v : list WACZPage) (p : Preparator) : Preparator :=
  let 'Build_Preparator a1 a2 a3 a4 a5 a6 a7 a8 a9 a10 a11 a12 _ a14 := p in
  Build_Preparator a1 a2 a3 a4 a5 a6 a7 a8 a9 a10 a11 a12 v a14.

Definition set_collectionId (v : option Js.number) (p : Preparator) : Preparator :=
  let 'Build_Preparator a1 a2 a3 a4 a5 a6 a7 a8 a9 a10 a11 a12 a13 _ := p in
  Build_Preparator a1 a2 a3 a4 a5 a6 a7 a8 a9 a10 a11 a12 a13 v.

(** [this.log.<level>(...)] *)
Definition logs (l : level) (a : log_arg) (p : Preparator) : Preparator :=
  set_log (log_to l a (log p)) p.

Definition DEFAULT_CONCURRENCY : Js.number := Js.Finite 50.

(** ** Construction: [constructor], [filterBlockingOptions],
       [filterNonBlockingOptions] *)

(** The [log] option: which of the four methods it has. *)
Record Console := {
  has_trace : bool;
  has_info : bool;
  has_warn : bool;
  has_error : bool
}.

(** The options object, its values being primitives; [opt_log] is [None]
    when the option is missing or falsy. *)
Record PreparatorOptions := {
  opt_username : Js.value;
  opt_password : Js.value;
  opt_collectionId : Js.value;
  opt_outputPath : Js.value;
  opt_concurrency : Js.value;
  opt_signingUrl : Js.value;
  opt_signingToken : Js.value;
  opt_log : option Console
}.

Section Construction.

(** [Number(s)] on a string. *)
Variable StringToNumber : string -> Js.number.

(** [`${n}`] on a number. *)
Variable Number_toString : Js.number -> string.

(** [s.trim()] *)
Variable trim : string -> string.

(** [new URL(s).href]; [None] when the constructor throws. *)
Variable URL_href : string -> option string.

(** [accessSync(path, W_OK)] and [lstatSync(path).isDirectory()] both
    pass. *)
Variable is_writable_directory : string -> bool.

(** [process.env.PWD] *)
Variable PWD : option string.

(** [Number(v)] *)
Definition ToNumber (v : Js.value) : Js.number :=
  match v with
  | Js.Undefined => Js.NaN
  | Js.Null => Js.Finite 0
  | Js.Bool true => Js.Finite 1
  | Js.Bool false => Js.Finite 0
  | Js.Num n => n
  | Js.Str s => StringToNumber s
  end.

(** [`${v}`] *)
Definition ToString (v : Js.value) : string :=
  match v with
  | Js.Undefined => "undefined"
  | Js.Null => "null"
  | Js.Bool true => "true"
  | Js.Bool false => "false"
  | Js.Num n => Number_toString n
  | Js.Str s => s
  end.

(** The instance after the class field initialisers. *)
Definition fresh : Preparator :=
  {| username := None; password := None; log := [];
     outputPath := PWD; collectionPath := None; WACZPath := None;
     collectionTitle := None; collectionDescription := None;
     concurrency := DEFAULT_CONCURRENCY;
     signingUrl := None; signingToken := None;
     WARCs := []; pages := []; collectionId := None |}.

(** [options.<field>.trim()] followed by [notEqual(length, 0)]: the
    trimmed string, or what is thrown. *)
Definition trimmed_nonempty (v : Js.value) : Js.completion string :=
  match v with
  | Js.Str s =>
      if String.eqb (trim s) ""
      then Js.Throws (Js.AssertionError "0 != 0")
      else Js.Returns (trim s)
  | _ => Js.Throws (Js.TypeError "trim is not a function")
  end.

Definition filterBlockingOptions (options : option PreparatorOptions)
    (this : Preparator) : Preparator * Js.completion unit :=
  let field (f : PreparatorOptions -> Js.value) : Js.completion Js.value :=
    match options with
    | Some o => Js.Returns (f o)
    | None => Js.Throws (Js.TypeError "Cannot read properties of undefined")
    end in
  let trimmed f :=
    match field f with
    | Js.Returns v => trimmed_nonempty v
    | Js.Throws e => Js.Throws e
    end in
  match trimmed opt_username with
  | Js.Throws err =>
      (logs LTrace (Caught err) this,
       Js.Throws (Js.Error "username must be provided."))
  | Js.Returns u =>
  let this := set_username (Some u) this in
  match trimmed opt_password with
  | Js.Throws err =>
      (logs LTrace (Caught err) this,
       Js.Throws (Js.Error "password must be provided."))
  | Js.Returns p =>
  let this := set_password (Some p) this in
  match field opt_collectionId with
  | Js.Throws err =>
      (logs LTrace (Caught err) this,
       Js.Throws (Js.Error "collectionId must be provided."))
  | Js.Returns v =>
  let this := set_collectionId (Some (ToNumber v)) this in
  if Js.isNaN (ToNumber v) then
    (logs LTrace (Caught (Js.AssertionError "true == false")) this,
     Js.Throws (Js.Error "collectionId must be provided."))
  else if negb (Js.gt (ToNumber v) (Js.Finite 0)) then
    (logs LTrace (Caught (Js.AssertionError "false == true")) this,
     Js.Throws (Js.Error "collectionId must be provided."))
  else (this, Js.Returns tt)
  end end end.

(** [options?.<field>] *)
Definition optional (options : option PreparatorOptions)
    (f : PreparatorOptions -> Js.value) : Js.value :=
  match options with
  | Some o => f o
  | None => Js.Undefined
  end.

(** The [if (options?.outputPath)] block. *)
Definition filter_outputPath (options : option PreparatorOptions)
    (this : Preparator) : Preparator :=
  let v := optional options opt_outputPath in
  if Js.truthy v then
    match v with
    | Js.Str path =>
        if is_writable_directory path then set_outputPath (Some path) this
        else
          let this := logs LTrace (Caught (Js.Error "outputPath")) this in
          logs LWarn (Msg ("Provided outputPath is not a directory or cannot be accessed. Using "
                           ++ Js.template (outputPath this) ++ " instead.")) this
    | _ =>
        let this := logs LTrace (Caught (Js.TypeError "outputPath")) this in
        logs LWarn (Msg ("Provided outputPath is not a directory or cannot be accessed. Using "
                         ++ Js.template (outputPath this) ++ " instead.")) this
    end
  else this.

(** The [if (options?.concurrency)] block. *)
Definition filter_concurrency (options : option PreparatorOptions)
    (this : Preparator) : Preparator :=
  let v := optional options opt_concurrency in
  if Js.truthy v then
    let concurrency_ := ToNumber v in
    let caught err :=
      let this := logs LTrace (Caught err) this in
      logs LWarn (Msg ("concurrency was not provided or is not a directory. Using "
                       ++ Number_toString (concurrency this) ++ " instead.")) this in
    if Js.isNaN concurrency_ then caught (Js.AssertionError "true == false")
    else if negb (Js.gt concurrency_ (Js.Finite 0))
    then caught (Js.AssertionError "false == true")
    else set_concurrency concurrency_ this
  else this.

(** The [if (options?.signingUrl)] block. *)
Definition filter_signingUrl (options : option PreparatorOptions)
    (this : Preparator) : Preparator :=
  let v := optional options opt_signingUrl in
  if Js.truthy v then
    match URL_href (ToString v) with
    | Some href => set_signingUrl (Some href) this
    | None =>
        let this := logs LTrace (Caught (Js.TypeError "Invalid URL")) this in
        logs LWarn (Msg "Provided signingUrl is invalid. Skipping.") this
    end
  else this.

(** The [if (this.signingUrl && options?.signingToken)] block. *)
Definition filter_signingToken (options : option PreparatorOptions)
    (this : Preparator) : Preparator :=
  let v := optional options opt_signingToken in
  if Js.truthy_str (signingUrl this) && Js.truthy v
  then set_signingToken (Some (ToString v)) this
  else this.

Definition filterNonBlockingOptions (options : option PreparatorOptions)
    (this : Preparator) : Preparator :=
  let this := filter_outputPath options this in
  let this := filter_concurrency options this in
  let this := filter_signingUrl options this in
  filter_signingToken options this.

(** [new Preparator(options)]: the instance, or the error thrown and the
    instance as it was left. *)
Definition constructor (options : option PreparatorOptions)
  : Preparator * Js.completion unit :=
  let this := fresh in
  let compatible :=
    match options ≫= opt_log with
    | Some c => has_trace c && has_info c && has_warn c && has_error c
    | None => true
    end in
  if negb compatible
  then (this, Js.Throws (Js.Error "log must be compatible with the Console API."))
  else
    match filterBlockingOptions options this with
    | (this, Js.Throws e) => (this, Js.Throws e)
    | (this, Js.Returns _) => (filterNonBlockingOptions options this, Js.Returns tt)
    end.

End Construction.

(** Vocabulary of the statements about the [concurrency] option: the option
    replaced in an options object, the test the constructor makes of it, and
    the warning it logs. *)

Definition with_concurrency (v : Js.value) (o : PreparatorOptions)
  : PreparatorOptions :=
  {| opt_username := opt_username o; opt_password := opt_password o;
     opt_collectionId := opt_collectionId o; opt_outputPath := opt_outputPath o;
     opt_concurrency := v; opt_signingUrl := opt_signingUrl o;
     opt_signingToken := opt_signingToken o; opt_log := opt_log o |}.

Definition concurrency_accepted (StringToNumber : string -> Js.number)
    (v : Js.value) : bool :=
  Js.truthy v
  && negb (Js.isNaN (ToNumber StringToNumber v))
  && Js.gt (ToNumber StringToNumber v) (Js.Finite 0).

Definition concurrency_warning (Number_toString : Js.number -> string)
  : log_entry :=
  (LWarn, Msg ("concurrency was not provided or is not a directory. Using "
               ++ Number_toString DEFAULT_CONCURRENCY ++ " instead.")).

(** ** PipelineOrchestrator: [Preparator.process], [Preparator.printReport] *)

(** What a method call can read and write: the instance and the collection
    folder. *)
Record World := {
  this : Preparator;
  disk : folder
}.

Definition say (l : level) (a : log_arg) (w : World) : World :=
  {| this := logs l a (this w); disk := disk w |}.

(** An [async] method of the instance returning [Promise<void>]. *)
Definition method : Type := World -> World * Js.completion unit.

(** The methods [process] awaits. They are instance fields, which a caller
    may replace, and several of them only talk to the network: [process] is
    given them. *)
Record Stages := {
  run_checkCredentials : method;
  run_createCollectionFolder : method;
  run_fetchCollectionInfo : method;
  run_fetchWARCsList : method;
  run_fetchWARCsCrawlInfo : method;
  run_fetchCrawledUrlsTitle : method;
  run_deleteLooseWARCs : method;
  run_checkWARCsHashes : method;
  run_fetchWARCs : method;
  run_generatePagesList : method;
  run_generateWACZ : method
}.

(** [`${x}`] of a field that is [null] until it is set. *)
Definition template_null (o : option string) : string :=
  match o with
  | Some s => s
  | None => "null"
  end.

(** The [for] loop of [printReport]. *)
Definition count_notDownloaded (l : list ArchiveItWARCReference) : nat :=
  foldl (λ n entry, if negb (downloaded entry) then n + 1 else n) 0 l.

(** [printReport()]; [this.notDownloaded] is not a field of the instance
    and renders as [undefined]. *)
Definition printReport (w : World) : World :=
  let w := say LInfo (Msg "📚 Collection is ready.") w in
  let notDownloaded := count_notDownloaded (WARCs (this w)) in
  let w :=
    if negb (Nat.eqb notDownloaded 0)
    then say LWarn (Msg ("undefined of " ++ pretty (length (WARCs (this w)))
                         ++ " WARC files have not been downloaded.")) w
    else w in
  say LInfo (Msg ("WACZ file can be found here: "
                  ++ template_null (WACZPath (this w)))) w.

Section Process.

(** [`${n}`] on a number. *)
Variable Number_toString : Js.number -> string.

Variable M : Stages.

Definition collectionId_text (w : World) : string :=
  match collectionId (this w) with
  | Some n => Number_toString n
  | None => "undefined"
  end.

(** [process()]: the world it leaves and the value the promise resolves
    to. *)
Definition process (w : World) : World * Js.value :=
  (* Check credentials *)
  let w := say LInfo (Msg "Checking credentials combination") w in
  match run_checkCredentials M w with
  | (w, Js.Throws err) =>
      let w := say LTrace (Caught err) w in
      let w := say LError (Msg "Invalid credentials combination, or the Archive It API could not be reached.") w in
      (w, Js.Bool false)
  | (w, Js.Returns _) =>
  (* Does a collection-specific folder exist? (+ auto-create) *)
  let w := say LInfo (Msg "Creating collections folder (if not already present)") w in
  match run_createCollectionFolder M w with
  | (w, Js.Throws err) =>
      let w := say LTrace (Caught err) w in
      let w := say LError (Msg "Collections folder could not be accessed or created.") w in
      (w, Js.Bool false)
  | (w, Js.Returns _) =>
  (* Grab collection info *)
  let w := say LInfo (Msg ("Pulling collection information for " ++ collectionId_text w)) w in
  match run_fetchCollectionInfo M w with
  | (w, Js.Throws err) =>
      let w := say LTrace (Caught err) w in
      let w := say LError (Msg "An error occurred while pulling collection information.") w in
      (w, Js.Bool false)
  | (w, Js.Returns _) =>
  (* List WARCs *)
  let w := say LInfo (Msg ("Listing WARC files from collection " ++ collectionId_text w)) w in
  match run_fetchWARCsList M w with
  | (w, Js.Throws err) =>
      let w := say LTrace (Caught err) w in
      let w := say LError (Msg "An error occurred while listing WARC files from collection.") w in
      (w, Js.Bool false)
  | (w, Js.Returns _) =>
  let w := say LInfo (Msg (pretty (length (WARCs (this w))) ++ " entries found in total.")) w in
  (* Pull crawl / seed infos *)
  let w := say LInfo (Msg "Pulling crawl and seed information for each entry") w in
  match run_fetchWARCsCrawlInfo M w with
  | (w, Js.Throws err) =>
      let w := say LError (Msg "An error occurred while listing WARC files from collection.") w in
      let w := say LTrace (Caught err) w in
      (w, Js.Bool false)
  | (w, Js.Returns _) =>
  (* Pull page titles *)
  let w := say LInfo (Msg "Pulling page titles for each entry") w in
  let w :=
    match run_fetchCrawledUrlsTitle M w with
    | (w, Js.Throws err) => (* Non-blocking *)
        let w := say LTrace (Caught err) w in
        say LError (Msg "An error occurred while pulling page titles from the Wayback Machine.") w
    | (w, Js.Returns _) => w
    end in
  (* Delete WARCs that may be already present in collection folder,
     but are not (or no longer) part of the collection. *)
  let w := say LInfo (Msg "Deleting loose .warc.gz files (present in folder, but not referenced in collection)") w in
  match run_deleteLooseWARCs M w with
  | (w, Js.Throws err) =>
      let w := say LError (Msg "An error occurred while deleting loose WARC files.") w in
      let w := say LTrace (Caught err) w in
      (w, Js.Bool false)
  | (w, Js.Returns _) =>
  (* Checksum [1] *)
  let w := say LInfo (Msg "Checking hashes of WARCs that may already be present in collection folder") w in
  match run_checkWARCsHashes M w with
  | (w, Js.Throws err) => (say LError (Caught err) w, Js.Bool false)
  | (w, Js.Returns _) =>
  (* Pull WARCs that aren't already present *)
  let w := say LInfo (Msg "Downloading WARCs") w in
  match run_fetchWARCs M w with
  | (w, Js.Throws err) => (say LError (Caught err) w, Js.Bool false)
  | (w, Js.Returns _) =>
  (* Checksum [2] *)
  let w := say LInfo (Msg "Checking hashes on downloaded WARC collection") w in
  match run_checkWARCsHashes M w with
  | (w, Js.Throws err) => (say LError (Caught err) w, Js.Bool false)
  | (w, Js.Returns _) =>
  (* List pages *)
  let w := say LInfo (Msg "Building pages list") w in
  match run_generatePagesList M w with
  | (w, Js.Throws err) => (say LError (Caught err) w, Js.Bool false)
  | (w, Js.Returns _) =>
  (* Prepare WACZ *)
  let w := say LInfo (Msg "Preparing WACZ file") w in
  match run_generateWACZ M w with
  | (w, Js.Throws err) =>
      let w := say LError (Msg "An error occurred while preparing WACZ file.") w in
      let w := say LTrace (Caught err) w in
      (w, Js.Bool false)
  | (w, Js.Returns _) =>
  (* Report *)
  let w := printReport w in
  (w, Js.Undefined)
  end end end end end end end end end end end.

End Process.

(** Vocabulary of the statements about [process]: replacing one method of
    the instance, and a method whose rejection is logged the way the
    [catch] around [fetchCrawledUrlsTitle] logs it, and then ignored. *)

Definition with_fetchCrawledUrlsTitle (m : method) (M : Stages) : Stages :=
  {| run_checkCredentials := run_checkCredentials M;
     run_createCollectionFolder := run_createCollectionFolder M;
     run_fetchCollectionInfo := run_fetchCollectionInfo M;
     run_fetchWARCsList := run_fetchWARCsList M;
     run_fetchWARCsCrawlInfo := run_fetchWARCsCrawlInfo M;
     run_fetchCrawledUrlsTitle := m;
     run_deleteLooseWARCs := run_deleteLooseWARCs M;
     run_checkWARCsHashes := run_checkWARCsHashes M;
     run_fetchWARCs := run_fetchWARCs M;
     run_generatePagesList := run_generatePagesList M;
     run_generateWACZ := run_generateWACZ M |}.

Definition logged_and_ignored (m : method) : method := λ w,
  match m w with
  | (w, Js.Throws err) =>
      let w := say LTrace (Caught err) w in
      (say LError (Msg "An error occurred while pulling page titles from the Wayback Machine.") w,
       Js.Returns tt)
  | (w, Js.Returns _) => (w, Js.Returns tt)
  end.

(** ** The methods of the class as [Stages]

    The stages embedded above, run on a [World]; the methods that only talk
    to the network or to the container library ([checkCredentials],
    [createCollectionFolder], [fetchCollectionInfo], [fetchWARCsList],
    [generateWACZ]) stay parameters. *)

Section PreparatorStages.

Variable Date_toISOString : string -> option string.
Variable sha1_hex : string -> string.
Variable Number_toString : Js.number -> string.
Variable encodeURIComponent : string -> string.
Variable seed_report :
  nat -> option Z -> Js.completion (Response (list SeedRecord)).
Variable seed_metadata :
  nat * nat -> Z -> Js.completion (option (list (option string))).
Variable wayback : nat * nat -> string -> Js.completion ReplayResponse.
Variable download : nat -> option string -> Js.completion Download.
Variables checkCredentials createCollectionFolder fetchCollectionInfo
  fetchWARCsList generateWACZ : method.

Definition put (ws : list ArchiveItWARCReference) (out : logger)
    (d : folder) (w : World) : World :=
  {| this := set_log out (set_WARCs ws (this w)); disk := d |}.

Definition method_fetchWARCsCrawlInfo : method := λ w,
  let '((ws, out), _) :=
    fetchWARCsCrawlInfo seed_report (concurrency (this w))
      (WARCs (this w)) (log (this w)) in
  (put ws out (disk w) w, Js.Returns tt).

Definition method_fetchCrawledUrlsTitle : method := λ w,
  let '((ws, out), _, c) :=
    fetchCrawledUrlsTitle
      (match collectionId (this w) with
       | Some n => Number_toString n
       | None => "undefined"
       end)
      encodeURIComponent seed_metadata wayback (concurrency (this w))
      (WARCs (this w)) (log (this w)) in
  (put ws out (disk w) w, c).

Definition method_deleteLooseWARCs : method := λ w,
  let '(d, out, c) :=
    deleteLooseWARCs (WARCs (this w)) (disk w) (log (this w)) in
  (put (WARCs (this w)) out d w, c).

Definition method_checkWARCsHashes : method := λ w,
  let '(ws, d, out, c) :=
    checkWARCsHashes sha1_hex (WARCs (this w)) (disk w) (log (this w)) in
  (put ws out d w, c).

Definition method_fetchWARCs : method := λ w,
  let '((d, out), _) :=
    fetchWARCs download (concurrency (this w))
      (WARCs (this w)) (disk w) (log (this w)) in
  (put (WARCs (this w)) out d w, Js.Returns tt).

Definition method_generatePagesList : method := λ w,
  let '(ps, c) := generatePagesList Date_toISOString (WARCs (this w)) in
  ({| this := set_pages ps (this w); disk := disk w |}, c).

Definition Preparator_stages : Stages :=
  {| run_checkCredentials := checkCredentials;
     run_createCollectionFolder := createCollectionFolder;
     run_fetchCollectionInfo := fetchCollectionInfo;
     run_fetchWARCsList := fetchWARCsList;
     run_fetchWARCsCrawlInfo := method_fetchWARCsCrawlInfo;
     run_fetchCrawledUrlsTitle := method_fetchCrawledUrlsTitle;
     run_deleteLooseWARCs := method_deleteLooseWARCs;
     run_checkWARCsHashes := method_checkWARCsHashes;
     run_fetchWARCs := method_fetchWARCs;
     run_generatePagesList := method_generatePagesList;
     run_generateWACZ := generateWACZ |}.

End PreparatorStages.

(** ** SHA-1

    The digest [crypto.createHash('sha1')] computes (FIPS 180-4), on the
    bytes of a string, in hexadecimal. The statements about
    [checkWARCsHashes] take the digest as a parameter; this one runs the
    examples. *)

Module Sha1.

Local Open Scope Z_scope.

Definition w32 (x : Z) : Z := x mod 2 ^ 32.

Definition rotl (n x : Z) : Z :=
  w32 (Z.lor (Z.shiftl x n) (Z.shiftr x (32 - n))).

Definition bytes (s : string) : list Z :=
  (λ a, Z.of_nat (nat_of_ascii a)) <$> list_ascii_of_string s.

(** The big-endian bytes of [x], [n] of them. *)
Fixpoint big_endian (n : nat) (x : Z) : list Z :=
  match n with
  | O => []
  | S n' => (Z.shiftr x (8 * Z.of_nat n') mod 256) :: big_endian n' x
  end.

(** The message, the bit [1], zeros up to 56 modulo 64, and the length in
    bits on 64 bits. *)
Definition padded (m : list Z) : list Z :=
  let len := Z.of_nat (length m) in
  let zeros := Z.to_nat ((55 - len) mod 64) in
  (m ++ [128] ++ replicate zeros 0 ++ big_endian 8 (8 * len))%list.

(** The words of a message: four bytes each. *)
Fixpoint words (fuel : nat) (m : list Z) : list Z :=
  match fuel, m with
  | S fuel', b0 :: b1 :: b2 :: b3 :: rest =>
      (((b0 * 256 + b1) * 256 + b2) * 256 + b3) :: words fuel' rest
  | _, _ => []
  end.

(** The schedule, latest word first: [n] more words after [w]. *)
Fixpoint schedule (n : nat) (w : list Z) : list Z :=
  match n with
  | O => w
  | S n' =>
      let x := Z.lxor (Z.lxor (nth 2 w 0) (nth 7 w 0))
                      (Z.lxor (nth 13 w 0) (nth 15 w 0)) in
      schedule n' (rotl 1 x :: w)
  end.

Definition state : Type := Z * Z * Z * Z * Z.

Definition round (t : nat) (s : state) (wt : Z) : state :=
  let '(a, b, c, d, e) := s in
  let '(f, k) :=
    if (t <? 20)%nat
    then (Z.lor (Z.land b c) (Z.land (Z.lxor b 4294967295) d), 1518500249)
    else if (t <? 40)%nat
    then (Z.lxor (Z.lxor b c) d, 1859775393)
    else if (t <? 60)%nat
    then (Z.lor (Z.lor (Z.land b c) (Z.land b d)) (Z.land c d), 2400959708)
    else (Z.lxor (Z.lxor b c) d, 3395469782) in
  (w32 (rotl 5 a + f + e + k + wt), a, rotl 30 b, c, d).

Fixpoint rounds (t : nat) (ws : list Z) (s : state) : state :=
  match ws with
  | [] => s
  | wt :: rest => rounds (S t) rest (round t s wt)
  end.

Definition block (h : state) (chunk : list Z) : state :=
  let w := rev (schedule 64 (rev chunk)) in
  let '(a, b, c, d, e) := rounds 0 w h in
  let '(h0, h1, h2, h3, h4) := h in
  (w32 (h0 + a), w32 (h1 + b), w32 (h2 + c), w32 (h3 + d), w32 (h4 + e)).

Fixpoint blocks (fuel : nat) (ws : list Z) (h : state) : state :=
  match fuel with
  | O => h
  | S fuel' =>
      match ws with
      | [] => h
      | _ => blocks fuel' (drop 16 ws) (block h (take 16 ws))
      end
  end.

Definition hex_digit (x : Z) : ascii :=
  ascii_of_nat (Z.to_nat (if x <? 10 then 48 + x else 87 + x)).

(** The eight hexadecimal digits of a word, then [rest]. *)
Definition hex32 (x : Z) (rest : string) : string :=
  String (hex_digit (Z.shiftr x 28 mod 16))
 (String (hex_digit (Z.shiftr x 24 mod 16))
 (String (hex_digit (Z.shiftr x 20 mod 16))
 (String (hex_digit (Z.shiftr x 16 mod 16))
 (String (hex_digit (Z.shiftr x 12 mod 16))
 (String (hex_digit (Z.shiftr x 8 mod 16))
 (String (hex_digit (Z.shiftr x 4 mod 16))
 (String (hex_digit (x mod 16)) rest))))))).

Definition digest (s : string) : state :=
  let m := padded (bytes s) in
  let ws := words (length m) m in
  blocks (length ws) ws
    (1732584193, 4023233417, 2562383102, 271733878, 3285377520).

Definition hex (s : string) : string :=
  let '(h0, h1, h2, h3, h4) := digest s in
  hex32 h0 (hex32 h1 (hex32 h2 (hex32 h3 (hex32 h4 "")))).

End Sha1.

(** ** A host to run the examples on

    Stand-ins for the built-ins, used to evaluate the methods on concrete
    inputs. [Date_toISOString] knows the timestamps
    [YYYY-MM-DDTHH:MM:SS(.f+)Z] of valid calendar dates and takes every other
    string for an invalid date; [StringToNumber] knows the unsigned decimal
    integers; [trim] and [encodeURIComponent] leave their argument as it is,
    and [URL_href] accepts what starts with [https://]. *)

Module Host.

Definition is_digit (a : ascii) : bool :=
  (48 <=? nat_of_ascii a)%nat && (nat_of_ascii a <=? 57)%nat.

(** The value of the [n] digits [s] starts with, and what follows them. *)
Fixpoint digits (n : nat) (acc : nat) (s : string) : option (nat * string) :=
  match n with
  | 0 => Some (acc, s)
  | S n' =>
      match s with
      | String a rest =>
          if is_digit a
          then digits n' (10 * acc + (nat_of_ascii a - 48)) rest
          else None
      | EmptyString => None
      end
  end.

Definition expect (c : ascii) (s : string) : option string :=
  match s with
  | String a rest => if Ascii.eqb a c then Some rest else None
  | EmptyString => None
  end.

Fixpoint all_digits (s : string) : bool :=
  match s with
  | EmptyString => true
  | String a rest => is_digit a && all_digits rest
  end.

Definition leap (y : nat) : bool :=
  (Nat.eqb (y mod 4) 0 && negb (Nat.eqb (y mod 100) 0)) || Nat.eqb (y mod 400) 0.

Definition days_in_month (y m : nat) : nat :=
  match m with
  | 2 => if leap y then 29 else 28
  | 4 | 6 | 9 | 11 => 30
  | _ => 31
  end.

(** The fraction of a second and the final [Z]: the three digits of the
    milliseconds. *)
Definition fraction (s : string) : option string :=
  match s with
  | "Z" => Some "000"
  | String "." rest =>
      let n := String.length rest in
      let f := substring 0 (n - 1) rest in
      if String.eqb (substring (n - 1) 1 rest) "Z"
         && negb (String.eqb f "") && all_digits f
      then Some (substring 0 3 (f ++ "00"))
      else None
  | _ => None
  end.

Definition Date_toISOString (s : string) : option string :=
  '(y, r) ← digits 4 0 s;
  r ← expect "-" r;
  '(mo, r) ← digits 2 0 r;
  r ← expect "-" r;
  '(d, r) ← digits 2 0 r;
  r ← expect "T" r;
  '(h, r) ← digits 2 0 r;
  r ← expect ":" r;
  '(mi, r) ← digits 2 0 r;
  r ← expect ":" r;
  '(se, r) ← digits 2 0 r;
  ms ← fraction r;
  if (1 <=? mo)%nat && (mo <=? 12)%nat && (1 <=? d)%nat
     && (d <=? days_in_month y mo)%nat
     && (h <? 24)%nat && (mi <? 60)%nat && (se <? 60)%nat
  then Some (substring 0 19 s ++ "." ++ ms ++ "Z")
  else None.

Definition StringToNumber (s : string) : Js.number :=
  if all_digits s && negb (String.eqb s "")
  then match digits (String.length s) 0 s with
       | Some (n, _) => Js.of_nat n
       | None => Js.NaN
       end
  else Js.NaN.

Definition Number_toString (n : Js.number) : string :=
  match n with
  | Js.NaN => "NaN"
  | Js.PosInfinity => "Infinity"
  | Js.NegInfinity => "-Infinity"
  | Js.Finite q => pretty (Qnum q / Zpos (Qden q))%Z
  end.

Definition sha1_hex (content : string) : string := Sha1.hex content.

Definition trim (s : string) : string := s.

Definition URL_href (s : string) : option string :=
  if Js.startsWith s "https://" then Some s else None.

Definition encodeURIComponent (s : string) : string := s.

(** A method that resolves and leaves the world as it is. *)
Definition resolves : method := λ w, (w, Js.Returns tt).

Definition all_resolve : Stages :=
  {| run_checkCredentials := resolves;
     run_createCollectionFolder := resolves;
     run_fetchCollectionInfo := resolves;
     run_fetchWARCsList := resolves;
     run_fetchWARCsCrawlInfo := resolves;
     run_fetchCrawledUrlsTitle := resolves;
     run_deleteLooseWARCs := resolves;
     run_checkWARCsHashes := resolves;
     run_fetchWARCs := resolves;
     run_generatePagesList := resolves;
     run_generateWACZ := resolves |}.

(** An instance as [new Preparator({username, password, collectionId})]
    leaves it. *)
Definition options : PreparatorOptions :=
  {| opt_username := Js.Str "user"; opt_password := Js.Str "secret";
     opt_collectionId := Js.Num (Js.Finite 12345);
     opt_outputPath := Js.Undefined; opt_concurrency := Js.Undefined;
     opt_signingUrl := Js.Undefined; opt_signingToken := Js.Undefined;
     opt_log := None |}.

Definition construct (o : PreparatorOptions)
  : Preparator * Js.completion unit :=
  constructor StringToNumber Number_toString trim URL_href (λ _, true)
    (Some "/tmp") (Some o).

Definition instance : Preparator := (construct options).1.

(** The world of a first run: the instance, and an empty collection
    folder. *)
Definition world : World := {| this := instance; disk := ∅ |}.

End Host.

(** ** Inputs of the examples *)

Module Sample.

Definition crawl (ts : option string) (t : option string)
  : ArchiveItCrawledUrl :=
  {| seedId := None; url := Some "https://example.com"; timestamp := ts;
     title := t |}.

Definition ref (name : string) (crawls : list ArchiveItCrawledUrl)
  : ArchiveItWARCReference :=
  {| downloadUrl := Some ("https://warcs.archive-it.org/" ++ name);
     downloaded := false; filename := Some name;
     remoteSHA1Hash := Some "a9993e364706816aba3e25717850c26c9cd0d89d";
     localSHA1Hash := None;
     crawlId := Some 99%Z; crawledUrls := crawls |}.

(** A titled page whose timestamp is no date. *)
Definition undated : ArchiveItWARCReference :=
  ref "capture1.warc.gz" [crawl (Some "not a date") (Some "Example")].

(** The end-to-end scenario of the specification, titles resolved. *)
Definition dated : ArchiveItWARCReference :=
  ref "capture1.warc.gz"
    [crawl (Some "2021-04-30 20:04:57.635000") (Some "Example")].

(** A folder with a file that is no capture file. *)
Definition notes_folder : folder :=
  {[ "notes.txt" := File "keep me" true;
     "capture1.warc.gz" := File "WARC/1.0" true ]}.

(** Three references: nothing on disk, a corrupted copy, a good copy (the
    remote digest of [ref] is the digest of [abc]). *)
Definition three : list ArchiveItWARCReference :=
  [ref "a.warc.gz" []; ref "b.warc.gz" []; ref "c.warc.gz" []].

Definition mixed_folder : folder :=
  {[ "b.warc.gz" := File "xyz" true; "c.warc.gz" := File "abc" true ]}.

Definition patch : ArchiveItWARCReference :=
  ref "ARCHIVEIT-12345-MISSING_URLS_PATCH-1.warc.gz"
    [crawl (Some "2021-04-30 20:04:57.635000") (Some "Example")].

(** The reference of the end-to-end scenario before title resolution:
    one seed record, [seedId = 1]. *)
Definition scenario : ArchiveItWARCReference :=
  ref "capture1.warc.gz"
    [{| seedId := Some 1%Z; url := Some "https://example.com";
        timestamp := Some "2021-04-30 20:04:57.635000"; title := None |}].

(** The seed meta data of the scenario: a title, [Example]. *)
Definition metadata (p : nat * nat) (id : Z)
  : Js.completion (option (list (option string))) :=
  Js.Returns (Some [Some "Example"]).

(** Seed meta data without a title. *)
Definition no_metadata (p : nat * nat) (id : Z)
  : Js.completion (option (list (option string))) :=
  Js.Returns None.

(** A replay endpoint that answers every request with the placeholder
    page. *)
Definition placeholder_replay (p : nat * nat) (u : string)
  : Js.completion ReplayResponse :=
  Js.Returns {| replay_status := 200;
                replay_content_type := Some "text/html; charset=utf-8";
                replay_title := Js.Returns (Some "Archive-it Wayback") |}.

(** A reference with three crawled urls. *)
Definition triple : ArchiveItWARCReference :=
  ref "capture2.warc.gz"
    [crawl (Some "2021-04-30 20:04:57.635000") None;
     crawl (Some "2021-04-30 20:04:58.000000") None;
     crawl (Some "2021-04-30 20:04:59.000000") None].

(** A seed report endpoint that fails for the second reference only. *)
Definition report (i : nat) (id : option Z)
  : Js.completion (Response (list SeedRecord)) :=
  if Nat.eqb i 1 then Js.Throws (Js.Error "ECONNRESET")
  else Js.Returns
         {| status := 200;
            body := Js.Returns
                      [{| seed_id := Some 1%Z;
                          seed := Some "https://example.com";
                          seed_timestamp := Some "2021-04-30 20:04:57.635000" |}] |}.

(** A seed report endpoint that answers every request with the seed
    record of the scenario. *)
Definition report_ok (i : nat) (id : option Z)
  : Js.completion (Response (list SeedRecord)) :=
  Js.Returns
    {| status := 200;
       body := Js.Returns
                 [{| seed_id := Some 1%Z;
                     seed := Some "https://example.com";
                     seed_timestamp := Some "2021-04-30 20:04:57.635000" |}] |}.

(** Every download delivers [abc] in two chunks. *)
Definition download_ok (i : nat) (u : option string)
  : Js.completion Download :=
  Js.Returns {| download_status := 200; download_chunks := ["a"; "bc"];
                download_error := None |}.

(** [fetchWARCsList] finding the one file of the scenario. *)
Definition lists_scenario : method := λ w,
  ({| this := set_WARCs (WARCs (this w) ++ [ref "capture1.warc.gz" []])%list
                (this w);
      disk := disk w |}, Js.Returns tt).

(** The network is down: every request for a crawl report, for seed meta
    data, for a replayed page or for a file rejects. *)
Definition report_down (i : nat) (id : option Z)
  : Js.completion (Response (list SeedRecord)) :=
  Js.Throws (Js.Error "ECONNRESET").

Definition metadata_down (p : nat * nat) (id : Z)
  : Js.completion (option (list (option string))) :=
  Js.Throws (Js.Error "ECONNRESET").

Definition replay_down (p : nat * nat) (u : string)
  : Js.completion ReplayResponse :=
  Js.Throws (Js.Error "ECONNRESET").

Definition download_down (i : nat) (u : option string)
  : Js.completion Download :=
  Js.Throws (Js.Error "ECONNRESET").

(** The second download fails, the others deliver [abc]. *)
Definition download_flaky (i : nat) (u : option string)
  : Js.completion Download :=
  if Nat.eqb i 1 then Js.Throws (Js.Error "ECONNRESET") else download_ok i u.

(** The methods of the class on the end-to-end scenario of the
    specification. *)
Definition stages : Stages :=
  Preparator_stages Host.Date_toISOString Host.sha1_hex Host.Number_toString
    Host.encodeURIComponent report_ok metadata placeholder_replay download_ok
    Host.resolves Host.resolves Host.resolves lists_scenario Host.resolves.

(** The methods of the class when the listing answers and no crawl
    report can be fetched. *)
Definition stages_without_reports : Stages :=
  Preparator_stages Host.Date_toISOString Host.sha1_hex Host.Number_toString
    Host.encodeURIComponent report_down metadata placeholder_replay download_ok
    Host.resolves Host.resolves Host.resolves lists_scenario Host.resolves.

(** The methods of the class when the crawl reports answer and neither the
    seed meta data nor the replay endpoint can be reached. *)
Definition stages_without_titles : Stages :=
  Preparator_stages Host.Date_toISOString Host.sha1_hex Host.Number_toString
    Host.encodeURIComponent report_ok metadata_down replay_down download_ok
    Host.resolves Host.resolves Host.resolves lists_scenario Host.resolves.

End Sample.

(** ** Vocabulary of the statements about what the stages leave behind *)

(** The file names of the references, as the paths they are looked up
    under. *)
Definition paths (WARCs : list ArchiveItWARCReference) : list string :=
  (λ e, Js.template (filename e)) <$> WARCs.

(** What the loop of [deleteLooseWARCs] skips: a capture file of the
    collection. *)
Definition kept (WARCs : list ArchiveItWARCReference) (name : string) : bool :=
  Js.endsWith name WARC_GZ && bool_decide (name ∈ paths WARCs).

(** What [checkWARCsHashes] never writes: everything but [downloaded] and
    [localSHA1Hash]. *)
Definition identity (e : ArchiveItWARCReference)
  : option string * option string * option string * option Z
    * list ArchiveItCrawledUrl :=
  (downloadUrl e, filename e, remoteSHA1Hash e, crawlId e, crawledUrls e).

(** What [fetchOne] of the crawl-info stage makes of the reference at
    position [i]: the seeds of the report appended, or the reference as it
    was when the request or its status or its body failed. *)
Definition enriched
    (seed_report : nat -> option Z -> Js.completion (Response (list SeedRecord)))
    (i : nat) (ref : ArchiveItWARCReference) : ArchiveItWARCReference :=
  match seed_report i (crawlId ref) with
  | Js.Returns response =>
      if (status response =? 200)%Z then
        match body response with
        | Js.Returns parsed =>
            set_crawledUrls
              (crawledUrls ref ++ map crawledUrl_of_seed parsed)%list ref
        | Js.Throws _ => ref
        end
      else ref
  | Js.Throws _ => ref
  end.

(** A reference with the titles of its crawled urls erased. *)
Definition without_titles (ref : ArchiveItWARCReference)
  : ArchiveItWARCReference :=
  set_crawledUrls (set_title None <$> crawledUrls ref) ref.

(** The content a download leaves in a file that was not there: the chunks
    one after the other. *)
Definition chunks_content (chunks : list string) : string :=
  foldr String.append "" chunks.

(** What [filterBlockingOptions] asks of a credential: a string that is not
    empty once trimmed. *)
Definition provided (trim : string -> string) (v : Js.value) : bool :=
  match v with
  | Js.Str s => negb (String.eqb (trim s) "")
  | _ => false
  end.

(** What the constructor asks of the options object: a [log] with the four
    methods when there is one, the two credentials, and a [collectionId]
    that converts to a number greater than 0. *)
Definition acceptable (StringToNumber : string -> Js.number)
    (trim : string -> string) (options : option PreparatorOptions) : bool :=
  match options with
  | None => false
  | Some o =>
      match opt_log o with
      | Some console =>
          has_trace console && has_info console && has_warn console
          && has_error console
      | None => true
      end
      && provided trim (opt_username o)
      && provided trim (opt_password o)
      && negb (Js.isNaN (ToNumber StringToNumber (opt_collectionId o)))
      && Js.gt (ToNumber StringToNumber (opt_collectionId o)) (Js.Finite 0)
  end.

(** A world in which the stages that work on the folder and on the file
    names cannot reject: no directory in the collection folder, and a file
    name in every reference. *)
Definition well_listed (w : World) : Prop :=
  (forall name, disk w !! name <> Some Directory)
  /\ Forall (λ ref, filename ref <> None) (WARCs (this w)).

(** The rejections the calls recorded are in the log: the reason of each
    one traced, and the warning of the stage, when it has one. *)
Definition rejections_logged {I : Type} (warning : option string)
    (calls : list (settled I)) (out : logger) : Prop :=
  forall call e,
    call ∈ calls -> Js.Throws e ∈ call.2 ->
    (LTrace, Caught e) ∈ out
    /\ match warning with
       | Some w => (LWarn, Msg w) ∈ out
       | None => True
       end.

(** The group title resolution launches for a reference when the limit is
    [n] and the group is empty on reaching it: its first [n] crawled urls,
    and nothing for a [MISSING_URLS_PATCH] batch. *)
Definition first_urls (n : nat) (i : nat) (ref : ArchiveItWARCReference)
  : list (nat * nat) :=
  match is_missing_urls_patch ref with
  | Js.Returns false => pair i <$> seq 0 n
  | _ => []
  end.

(** A reference that fills a group of [n] on its own, or is skipped. *)
Definition fills (n : nat) (ref : ArchiveItWARCReference) : Prop :=
  match is_missing_urls_patch ref with
  | Js.Returns true => True
  | Js.Returns false => n <= length (crawledUrls ref)
  | Js.Throws _ => False
  end.

(** ** WarcLister: [Preparator.fetchWARCsList] *)

(** An entry of [files] in a page of the listing, as the loop reads it:
    [entry?.locations] ([None] when missing or falsy), [entry?.filename],
    [entry?.checksums?.sha1], [entry?.crawl]. *)
Record WasapiFile := {
  entry_locations : option (list string);
  entry_filename : option string;
  entry_sha1 : option string;
  entry_crawl : option Z
}.

(** A parsed page of the listing: [parsed.files] ([None] when it cannot be
    read or iterated) and whether [parsed.next] is truthy. *)
Record WasapiPage := {
  listing_files : option (list WasapiFile);
  listing_next : bool
}.

(** [new ArchiveItWARCReference()] with the four fields the loop assigns;
    [entry.locations[0]] of an empty array is [undefined]. *)
Definition reference_of (entry : WasapiFile) : ArchiveItWARCReference :=
  {| downloadUrl := match entry_locations entry with
                    | Some l => head l
                    | None => None
                    end;
     downloaded := false;
     filename := entry_filename entry;
     remoteSHA1Hash := entry_sha1 entry;
     localSHA1Hash := None;
     crawlId := entry_crawl entry;
     crawledUrls := [] |}.

Section FetchWARCsList.

(** The answer of [/wasapi/v1/webdata] for the page [page] (of 500
    entries) of the collection; [Throws] when [fetch] rejects. *)
Variable webdata : nat -> Js.completion (Response WasapiPage).

(** The [while (true)] loop, [page] being the value of the [page]
    parameter and [WARCs] the value of [this.WARCs]. The loop has no bound
    of its own: [fuel] is the number of pages that may be read, and the
    result is [None] when the last of them still announced a next page. *)
Fixpoint fetchWARCsList_loop (fuel page : nat)
    (WARCs : list ArchiveItWARCReference)
  : option (list ArchiveItWARCReference * Js.completion unit) :=
  match fuel with
  | 0 => None
  | S fuel =>
      match webdata page with
      | Js.Throws e => Some (WARCs, Js.Throws e)
      | Js.Returns response =>
          if negb (status response =? 200)%Z
          then Some (WARCs,
                     Js.Throws (Js.Error ("Archive-It API responded with "
                                          ++ pretty (status response))))
          else
            match body response with
            | Js.Throws e => Some (WARCs, Js.Throws e)
            | Js.Returns parsed =>
                match listing_files parsed with
                | None =>
                    Some (WARCs,
                          Js.Throws (Js.TypeError "parsed.files is not iterable"))
                | Some entries =>
                    let WARCs := (WARCs ++ map reference_of entries)%list in
                    if listing_next parsed
                    then fetchWARCsList_loop fuel (S page) WARCs
                    else Some (WARCs, Js.Returns tt)
                end
            end
      end
  end.

(** [fetchWARCsList()]: the first page is page 1, and [this.WARCs] is
    appended to, not reset. *)
Definition fetchWARCsList (fuel : nat) (WARCs : list ArchiveItWARCReference)
  : option (list ArchiveItWARCReference * Js.completion unit) :=
  fetchWARCsList_loop fuel 1 WARCs.

End FetchWARCsList.

(** A page that is read and announces a next one. *)
Definition announces_next (answer : Js.completion (Response WasapiPage)) : Prop :=
  exists response parsed entries,
    answer = Js.Returns response
    /\ status response = 200%Z
    /\ body response = Js.Returns parsed
    /\ listing_files parsed = Some entries
    /\ listing_next parsed = true.

(** The listing of a collection of [pages] pages: page [k + 1] answers 200
    with the [k]-th list of files, and announces a next page unless it is
    the last. *)
Definition serves (webdata : nat -> Js.completion (Response WasapiPage))
    (pages : list (list WasapiFile)) : Prop :=
  forall k entries,
    pages !! k = Some entries ->
    webdata (S k)
    = Js.Returns {| status := 200;
                    body := Js.Returns
                              {| listing_files := Some entries;
                                 listing_next := bool_decide (S k < length pages) |} |}.

Module Listing.

Definition file (name : string) : WasapiFile :=
  {| entry_locations := Some ["https://warcs.archive-it.org/" ++ name];
     entry_filename := Some name;
     entry_sha1 := Some "a9993e364706816aba3e25717850c26c9cd0d89d";
     entry_crawl := Some 99%Z |}.

(** A listing of two pages, of two files and of one. *)
Definition two_pages : list (list WasapiFile) :=
  [[file "a.warc.gz"; file "b.warc.gz"]; [file "c.warc.gz"]].

Definition webdata (page : nat) : Js.completion (Response WasapiPage) :=
  match two_pages !! (page - 1) with
  | Some entries =>
      Js.Returns {| status := 200;
                    body := Js.Returns
                              {| listing_files := Some entries;
                                 listing_next := bool_decide (page < length two_pages) |} |}
  | None => Js.Throws (Js.Error "ECONNRESET")
  end.

(** The same listing, the second page answering 503. *)
Definition webdata_503 (page : nat) : Js.completion (Response WasapiPage) :=
  if Nat.eqb page 2
  then Js.Returns {| status := 503; body := Js.Throws (Js.Error "no body") |}
  else webdata page.

End Listing.

(** * Properties *)

(** ** Numbers *)

Arguments Js.lt : simpl never.
Arguments Js.ge : simpl never.
Arguments Js.gt : simpl never.
Arguments Js.of_nat : simpl never.

Lemma of_nat_lt_ge (n : nat) (c : Js.number) :
  Js.gt c (Js.Finite 0) = true ->
  Js.ge (Js.of_nat n) c = negb (Js.lt (Js.of_nat n) c).
Proof.
  unfold Js.gt, Js.ge, Js.lt, Js.of_nat.
  destruct c as [| | |q]; simpl; try done.
  intros _. by rewrite negb_involutive.
Qed.

Lemma zero_lt_positive (c : Js.number) :
  Js.gt c (Js.Finite 0) = true -> Js.lt (Js.of_nat 0) c = true.
Proof. unfold Js.gt, Js.of_nat. by destruct c. Qed.

Lemma of_nat_lt_mono (n m : nat) (c : Js.number) :
  n <= m -> Js.lt (Js.of_nat m) c = true -> Js.lt (Js.of_nat n) c = true.
Proof.
  unfold Js.lt, Js.of_nat. destruct c as [| | |q]; try done.
  intros Hnm. rewrite !negb_true_iff. intros Hm.
  apply not_true_iff_false. intros Hn. apply not_true_iff_false in Hm.
  apply Hm. apply Qle_bool_iff. apply Qle_bool_iff in Hn.
  eapply Qle_trans; [exact Hn|]. rewrite <- Zle_Qle. lia.
Qed.

Lemma of_nat_lt_not_ge (n : nat) (c : Js.number) :
  Js.lt (Js.of_nat n) c = true -> Js.ge (Js.of_nat n) c = false.
Proof.
  unfold Js.lt, Js.ge, Js.of_nat. destruct c as [| | |q]; try done.
  by rewrite negb_true_iff.
Qed.

Lemma of_nat_not_ge (i n : nat) :
  i < n -> Js.ge (Js.of_nat i) (Js.of_nat n) = false.
Proof.
  unfold Js.ge, Js.of_nat. intros H.
  apply not_true_iff_false. intros Hq. apply Qle_bool_iff in Hq.
  rewrite <- Zle_Qle in Hq. lia.
Qed.

(** ** PageIndexBuilder *)

Section PagesFacts.
Variable D : string -> option string.

Lemma push_pages_spec crawls pages :
  push_pages D crawls pages
  = (pages ++ map (page_of D) (filter (λ c, Js.truthy_str (title c) = true) crawls))%list.
Proof.
  revert pages. induction crawls as [|c crawls IH]; intros pages; simpl.
  - by rewrite app_nil_r.
  - destruct (Js.truthy_str (title c)) eqn:E; simpl.
    + rewrite IH. rewrite filter_cons_True by done. simpl.
      by rewrite <- app_assoc.
    + rewrite IH. rewrite filter_cons_False; [done|]. by rewrite E.
Qed.

Lemma pages_loop_app l1 l2 pages :
  pages_loop D (l1 ++ l2) pages
  = match pages_loop D l1 pages with
    | (p, Js.Returns _) => pages_loop D l2 p
    | r => r
    end.
Proof.
  revert pages. induction l1 as [|e l1 IH]; intros pages; simpl; [done|].
  destruct (is_missing_urls_patch e) as [[|]|]; simpl; by rewrite ?IH.
Qed.

Lemma pages_loop_returns l pages pages' :
  pages_loop D l pages = (pages', Js.Returns tt) ->
  pages' = (pages ++ concat (map (entries_of D) l))%list.
Proof.
  revert pages. induction l as [|e l IH]; intros pages; simpl.
  - intros [= <-]. by rewrite app_nil_r.
  - unfold entries_of. destruct (is_missing_urls_patch e) as [[|]|]; simpl.
    + apply IH.
    + intros H. apply IH in H. rewrite H, push_pages_spec.
      by rewrite <- app_assoc.
    + done.
Qed.

Lemma pages_loop_titled l pages pages' c :
  pages_loop D l pages = (pages', c) ->
  Forall (λ p, Js.truthy_str (page_title p) = true) pages ->
  Forall (λ p, Js.truthy_str (page_title p) = true) pages'.
Proof.
  revert pages. induction l as [|e l IH]; intros pages; simpl.
  - by intros [= <- _].
  - destruct (is_missing_urls_patch e) as [[|]|]; simpl.
    + apply IH.
    + intros H Hp. eapply IH; [exact H|].
      rewrite push_pages_spec. apply Forall_app. split; [done|].
      apply Forall_forall. intros p Hin.
      apply list_elem_of_fmap in Hin as (cr & -> & Hcr).
      apply list_elem_of_filter in Hcr as [Ht _]. exact Ht.
    + by intros [= <- _].
Qed.

End PagesFacts.

(** C9. A crawled url whose title is [null] adds nothing to the pages
    list: taking it out of its reference changes neither the pages nor the
    completion of [generatePagesList]. A reference whose file name contains
    [MISSING_URLS_PATCH] adds nothing either, whatever its crawled urls:
    taking it out of [this.WARCs] changes nothing. No entry of the list has a
    [null] title. *)
Theorem generatePagesList_exclusion (D : string -> option string) :
  (forall l1 l2 ref c1 c2 crawl,
      title crawl = None ->
      generatePagesList D (l1 ++ set_crawledUrls (c1 ++ crawl :: c2) ref :: l2)
      = generatePagesList D (l1 ++ set_crawledUrls (c1 ++ c2) ref :: l2))
  /\ (forall l1 l2 ref f,
         filename ref = Some f ->
         Js.includes f MISSING_URLS_PATCH = true ->
         generatePagesList D (l1 ++ ref :: l2) = generatePagesList D (l1 ++ l2))
  /\ (forall l pages c,
         generatePagesList D l = (pages, c) ->
         forall p, p ∈ pages -> page_title p <> None).
Proof.
  unfold generatePagesList. split; [|split].
  - intros l1 l2 ref c1 c2 crawl Ht.
    rewrite !pages_loop_app.
    destruct (pages_loop D l1 []) as [p [[]|e]]; [|done]. simpl.
    replace (is_missing_urls_patch (set_crawledUrls (c1 ++ crawl :: c2) ref))
      with (is_missing_urls_patch (set_crawledUrls (c1 ++ c2) ref)) by done.
    destruct (is_missing_urls_patch _) as [[|]|]; [done| |done].
    f_equal. rewrite !push_pages_spec. do 2 f_equal.
    rewrite !filter_app. f_equal.
    rewrite filter_cons_False; [done|]. by rewrite Ht.
  - intros l1 l2 ref f Hf Hm.
    rewrite !pages_loop_app.
    destruct (pages_loop D l1 []) as [p [[]|e]]; [|done]. simpl.
    unfold is_missing_urls_patch. by rewrite Hf, Hm.
  - intros l pages c H p Hin.
    eapply pages_loop_titled in H; [|by constructor].
    rewrite Forall_forall in H. specialize (H p Hin).
    by destruct (page_title p).
Qed.

Lemma generatePagesList_exclusion_witness :
  generatePagesList Host.Date_toISOString
    ([] ++ set_crawledUrls
             ([] ++ Sample.crawl (Some "2021-04-30 20:04:57.635000") None :: [])
             Sample.dated :: [])
  = generatePagesList Host.Date_toISOString
      ([] ++ set_crawledUrls ([] ++ []) Sample.dated :: [])
  /\ generatePagesList Host.Date_toISOString ([Sample.dated] ++ Sample.patch :: [])
     = generatePagesList Host.Date_toISOString ([Sample.dated] ++ []).
Proof.
  split.
  - apply (proj1 (generatePagesList_exclusion Host.Date_toISOString)).
    reflexivity.
  - apply (proj1 (proj2 (generatePagesList_exclusion Host.Date_toISOString))
             [Sample.dated] [] Sample.patch
             "ARCHIVEIT-12345-MISSING_URLS_PATCH-1.warc.gz"); reflexivity.
Defined.

(** C2, amended. When [generatePagesList] returns, every crawled url with a
    title, in a reference that is no [MISSING_URLS_PATCH] batch, has its
    entry in the pages list also when its timestamp is no date: the entry
    then has [ts = null]. *)
Theorem generatePagesList_keeps_unparseable (D : string -> option string)
    WARCs pages ref f crawl t :
  generatePagesList D WARCs = (pages, Js.Returns tt) ->
  ref ∈ WARCs ->
  filename ref = Some f ->
  Js.includes f MISSING_URLS_PATCH = false ->
  crawl ∈ crawledUrls ref ->
  Js.truthy_str (title crawl) = true ->
  timestamp crawl = Some t ->
  D (Js.replace_first " " "T" t ++ "Z") = None ->
  {| page_url := url crawl; page_title := title crawl; page_ts := None |} ∈ pages.
Proof.
  intros H Hr Hf Hm Hc Ht Hts Hd.
  apply pages_loop_returns in H. subst pages. simpl.
  apply list_elem_of_In, in_concat. exists (entries_of D ref). split.
  - apply in_map, list_elem_of_In, Hr.
  - apply list_elem_of_In.
    unfold entries_of, is_missing_urls_patch. rewrite Hf, Hm.
    apply list_elem_of_fmap. exists crawl. split.
    + unfold page_of, formatTimestamp. by rewrite Hts, Hd.
    + by apply list_elem_of_filter.
Qed.

Lemma generatePagesList_keeps_unparseable_witness :
  {| page_url := Some "https://example.com"; page_title := Some "Example";
     page_ts := None |}
  ∈ [{| page_url := Some "https://example.com"; page_title := Some "Example";
        page_ts := None |}].
Proof.
  apply (generatePagesList_keeps_unparseable Host.Date_toISOString
           [Sample.undated] _ Sample.undated "capture1.warc.gz"
           (Sample.crawl (Some "not a date") (Some "Example")) "not a date").
  - reflexivity.
  - apply list_elem_of_here.
  - reflexivity.
  - reflexivity.
  - apply list_elem_of_here.
  - reflexivity.
  - reflexivity.
  - reflexivity.
Defined.

(** C2, as stated, fails: the timestamp [not a date] does not parse, and the
    page is in the list, with a [null] timestamp. *)
Lemma generatePagesList_unparseable_entry :
  Host.Date_toISOString (Js.replace_first " " "T" "not a date" ++ "Z") = None
  /\ generatePagesList Host.Date_toISOString [Sample.undated]
     = ([{| page_url := Some "https://example.com";
            page_title := Some "Example"; page_ts := None |}], Js.Returns tt).
Proof. split; reflexivity. Qed.

(** The timestamp of the specification's example. *)
Example formatTimestamp_spec_example :
  formatTimestamp Host.Date_toISOString (Some "2021-04-30 20:04:57.635000")
  = Some "2021-04-30T20:04:57Z".
Proof. reflexivity. Qed.

(** ** LocalStateReconciler: loose files *)

Lemma endsWith_prototype_key name :
  name ∈ Object_prototype_keys -> Js.endsWith name WARC_GZ = false.
Proof.
  unfold Object_prototype_keys. rewrite !elem_of_cons, elem_of_nil.
  intros H. repeat (destruct H as [-> | H]; [reflexivity|]). done.
Qed.

Lemma elem_of_inCollection_of name WARCs :
  name ∈ inCollection_of WARCs
  <-> name ∈ map (λ e, Js.template (filename e)) WARCs.
Proof.
  unfold inCollection_of.
  assert (forall (acc : gset string),
    name ∈ foldl (λ o entry, {[Js.template (filename entry)]} ∪ o) acc WARCs
    <-> name ∈ acc \/ name ∈ map (λ e, Js.template (filename e)) WARCs) as G.
  { induction WARCs as [|e l IH]; intros acc; simpl.
    - rewrite elem_of_nil. tauto.
    - rewrite IH, elem_of_cons, elem_of_union, elem_of_singleton. tauto. }
  rewrite G, elem_of_empty. tauto.
Qed.

(** What the test of the loop keeps: the capture files of the collection. *)
Lemma kept_iff name WARCs :
  Js.endsWith name WARC_GZ && js_in name (inCollection_of WARCs) = true
  <-> Js.endsWith name WARC_GZ = true
      /\ name ∈ map (λ e, Js.template (filename e)) WARCs.
Proof.
  unfold js_in. rewrite andb_true_iff, orb_true_iff, !bool_decide_eq_true.
  rewrite elem_of_inCollection_of. split.
  - intros [He [H|H]]; [done|].
    apply endsWith_prototype_key in H. congruence.
  - intros [He H]. auto.
Qed.

Lemma deleteLoose_loop_returns inC names (d : folder) out d' out' :
  deleteLoose_loop inC names d out = (d', out', Js.Returns tt) ->
  forall name,
    d' !! name
    = if bool_decide (name ∈ names)
         && negb (Js.endsWith name WARC_GZ && js_in name inC)
      then None else d !! name.
Proof.
  revert d out. induction names as [|n names IH]; intros d out; simpl.
  - intros [= <- _] name. done.
  - destruct (Js.endsWith n WARC_GZ && js_in n inC) eqn:K.
    + intros H name. rewrite (IH _ _ H name).
      destruct (decide (name = n)) as [->|Hne].
      * rewrite K. simpl. by rewrite !andb_false_r.
      * by rewrite (bool_decide_ext (name ∈ n :: names) (name ∈ names))
          by (rewrite elem_of_cons; tauto).
    + unfold rm. destruct (d !! n) as [[c r|]|] eqn:E; [|done|done].
      intros H name. rewrite (IH _ _ H name).
      destruct (decide (name = n)) as [->|Hne].
      * rewrite K. simpl. rewrite lookup_delete_eq.
        rewrite (bool_decide_eq_true_2 (n ∈ n :: names)) by apply list_elem_of_here.
        simpl. by destruct (bool_decide _).
      * rewrite lookup_delete_ne by done.
        by rewrite (bool_decide_ext (name ∈ n :: names) (name ∈ names))
          by (rewrite elem_of_cons; tauto).
Qed.

(** After a call that returns, the folder holds the capture files of the
    collection and nothing else: whatever has another name is removed. *)
Lemma deleteLooseWARCs_result WARCs (d : folder) out d' out' :
  deleteLooseWARCs WARCs d out = (d', out', Js.Returns tt) ->
  forall name,
    d' !! name
    = if Js.endsWith name WARC_GZ
         && bool_decide (name ∈ map (λ e, Js.template (filename e)) WARCs)
      then d !! name else None.
Proof.
  intros H name. unfold deleteLooseWARCs in H.
  rewrite (deleteLoose_loop_returns _ _ _ _ _ _ H name).
  destruct (Js.endsWith name WARC_GZ && js_in name (inCollection_of WARCs)) eqn:K.
  - apply kept_iff in K as [-> K].
    rewrite (bool_decide_eq_true_2 _ K). simpl. by rewrite andb_false_r.
  - rewrite andb_true_r.
    assert (Js.endsWith name WARC_GZ
            && bool_decide (name ∈ map (λ e, Js.template (filename e)) WARCs) = false) as ->.
    { apply not_true_is_false. intros T. apply not_true_iff_false in K. apply K.
      apply kept_iff. apply andb_true_iff in T as [? T].
      by apply bool_decide_eq_true in T. }
    destruct (bool_decide (name ∈ readdir d)) eqn:B; [done|].
    apply bool_decide_eq_false in B. unfold readdir in B.
    destruct (d !! name) as [x|] eqn:E; [|done].
    exfalso. apply B. apply list_elem_of_fmap. exists (name, x). split; [done|].
    by apply elem_of_map_to_list.
Qed.

(** C4. A folder holding [notes.txt] next to a capture file of the
    collection: [deleteLooseWARCs] removes [notes.txt], an entry without the
    [.warc.gz] extension. *)
Theorem deleteLooseWARCs_removes_notes :
  deleteLooseWARCs [Sample.dated] Sample.notes_folder []
  = ({[ "capture1.warc.gz" := File "WARC/1.0" true ]},
     [(LInfo, Msg "notes.txt: present on disk but not in collection, will be deleted.")],
     Js.Returns tt).
Proof. vm_compute. reflexivity. Qed.

(** ** LocalStateReconciler: checksums *)

(** Test vectors of FIPS 180. *)
Example sha1_test_vectors :
  Sha1.hex "abc" = "a9993e364706816aba3e25717850c26c9cd0d89d"
  /\ Sha1.hex "" = "da39a3ee5e6b4b0d3255bfef95601890afd80709"
  /\ Sha1.hex "abcdbcdecdefdefgefghfghighijhijkijkljklmklmnlmnomnopnopq"
     = "84983e441c3bd26ebaae4aa1f95129e5e54670f1".
Proof. vm_compute. repeat split; reflexivity. Qed.

Lemma sha1_hex_nonempty content : Host.sha1_hex content <> "".
Proof.
  unfold Host.sha1_hex, Sha1.hex.
  by destruct (Sha1.digest content) as [[[[h0 h1] h2] h3] h4].
Qed.

Section HashFacts.

Variable sha1_hex : string -> string.
Hypothesis digest_nonempty : forall content, sha1_hex content <> "".

Let path (e : ArchiveItWARCReference) : string := Js.template (filename e).

Lemma truthy_digest content : negb (sha1_hex content =? "") = true.
Proof. apply negb_true_iff, String.eqb_neq, digest_nonempty. Qed.

Lemma delete_frame (d : folder) p :
  (forall k, k <> p -> delete p d !! k = d !! k)
  /\ (forall k, delete p d !! k = d !! k \/ delete p d !! k = None).
Proof.
  split.
  - intros k Hk. by rewrite lookup_delete_ne.
  - intros k. destruct (decide (k = p)) as [->|Hk].
    + right. apply lookup_delete_eq.
    + left. by rewrite lookup_delete_ne.
Qed.

(** One iteration: the entry keeps its name and remote digest, only its
    own path changes, and the flag follows the comparison. *)
Lemma check_entry_returns e (d : folder) out e' d' out' :
  check_entry sha1_hex e d out = (e', d', out', Js.Returns tt) ->
  filename e' = filename e
  /\ (forall k, k <> path e -> d' !! k = d !! k)
  /\ (forall k, d' !! k = d !! k \/ d' !! k = None)
  /\ hashes_checked sha1_hex d d' e e'.
Proof.
  unfold check_entry, hashes_checked, access, readFile, rm. fold (path e).
  destruct (delete_frame d (path e)) as [Hne Hsub].
  destruct (d !! path e) as [[content [|]| ]|] eqn:E; simpl.
  - (* a readable file *)
    rewrite truthy_digest. simpl.
    destruct (bool_decide (Some (sha1_hex content) = remoteSHA1Hash e)) eqn:B; simpl.
    + apply bool_decide_eq_true in B.
      intros [= <- <- _]. simpl. repeat split; auto; try congruence.
    + apply bool_decide_eq_false in B.
      intros [= <- <- _]. simpl. repeat split; auto; try congruence.
      apply lookup_delete_eq.
  - (* a file that cannot be read *)
    destruct (Js.truthy_str (localSHA1Hash e)
              && negb (bool_decide (localSHA1Hash e = remoteSHA1Hash e))); simpl;
      intros [= <- <- _]; simpl; repeat split; auto; done.
  - (* a directory *)
    destruct (Js.truthy_str (localSHA1Hash e)
              && negb (bool_decide (localSHA1Hash e = remoteSHA1Hash e))); simpl;
      [done|].
    intros [= <- <- _]; simpl; repeat split; auto; done.
  - (* nothing *)
    intros [= <- <- _]. simpl. repeat split; auto; done.
Qed.

Lemma checkWARCsHashes_frame l (d : folder) out l' d' out' c :
  checkWARCsHashes sha1_hex l d out = (l', d', out', c) ->
  (forall k, k ∉ map path l -> d' !! k = d !! k)
  /\ (forall k, d' !! k = d !! k \/ d' !! k = None).
Proof.
  revert d out l' d' out' c.
  induction l as [|e l IH]; intros d out l' d' out' c; simpl.
  - intros [= _ <- _ _]. auto.
  - destruct (check_entry sha1_hex e d out) as [[[e1 d1] out1] [[]|err]] eqn:E.
    + apply check_entry_returns in E as (_ & Hother & Hsub & _).
      destruct (checkWARCsHashes sha1_hex l d1 out1) as [[[l2 d2] out2] c2] eqn:R.
      intros [= _ <- _ _]. apply IH in R as [R1 R2]. split.
      * intros k Hk. rewrite not_elem_of_cons in Hk. destruct Hk as [Hk1 Hk2].
        rewrite R1 by done. by apply Hother.
      * intros k. destruct (R2 k) as [->| ->]; auto.
    + intros [= _ <- _ _].
      (* the folder is untouched when [rm] throws *)
      unfold check_entry, access, readFile, rm in E.
      destruct (d !! Js.template (filename e)) as [[content [|]| ]|] eqn:X;
        simpl in E;
        repeat (match type of E with
                | context [if ?b then _ else _] => destruct b; simpl in E
                end);
        rewrite ?X in E; simpl in E; inversion E; subst; auto.
Qed.

Lemma check_entry_no_directory e (d : folder) out :
  (forall k, d !! k <> Some Directory) ->
  (check_entry sha1_hex e d out).2 = Js.Returns tt
  /\ (forall k, (check_entry sha1_hex e d out).1.1.2 !! k <> Some Directory).
Proof.
  intros Hd. unfold check_entry, access, readFile, rm.
  destruct (delete_frame d (path e)) as [_ Hsub]. fold (path e).
  assert (forall k, delete (path e) d !! k <> Some Directory) as Hdel.
  { intros k. destruct (Hsub k) as [-> | ->]; [apply Hd|done]. }
  pose proof (Hd (path e)) as Hp.
  destruct (d !! path e) as [[content [|]| ]|] eqn:E; simpl; try done;
    repeat (match goal with
            | |- context [if ?b then _ else _] => destruct b; simpl
            end); auto.
Qed.

(** The call returns whenever no directory sits in the collection
    folder. *)
Lemma checkWARCsHashes_returns l (d : folder) out :
  (forall k, d !! k <> Some Directory) ->
  (checkWARCsHashes sha1_hex l d out).2 = Js.Returns tt.
Proof.
  revert d out. induction l as [|e l IH]; intros d out Hd; simpl; [done|].
  destruct (check_entry_no_directory e d out Hd) as [Hr Hd1].
  destruct (check_entry sha1_hex e d out) as [[[e1 d1] out1] c1].
  simpl in Hr, Hd1. subst c1.
  specialize (IH d1 out1 Hd1).
  destruct (checkWARCsHashes sha1_hex l d1 out1) as [[[l2 d2] out2] c2].
  exact IH.
Qed.

(** The references of the call and the folder it starts from; references
    with the same file name carry the same remote digest. *)
Variable all : list ArchiveItWARCReference.
Variable d : folder.
Hypothesis same_name_same_digest :
  forall e1 e2, e1 ∈ all -> e2 ∈ all -> path e1 = path e2 ->
                remoteSHA1Hash e1 = remoteSHA1Hash e2.

(** What holds of the folder all along the loop: a path is as it was, or
    it is gone; and a readable file is gone only if its digest is not the
    one its references expect. *)
Let reached (di : folder) : Prop :=
  forall k,
    di !! k = d !! k
    \/ (di !! k = None
        /\ forall content e,
             d !! k = Some (File content true) -> e ∈ all -> path e = k ->
             Some (sha1_hex content) <> remoteSHA1Hash e).

Lemma check_entry_reached e (di : folder) out e' di' out' :
  reached di ->
  e ∈ all ->
  check_entry sha1_hex e di out = (e', di', out', Js.Returns tt) ->
  reached di' /\ hashes_checked sha1_hex d di' e e'.
Proof.
  intros Hdi He E.
  apply check_entry_returns in E as (_ & Hother & Hsub & H1 & H2 & H3).
  fold (path e) in H1, H2, H3.
  assert (reached di') as Hdi'.
  { intros k. destruct (decide (k = path e)) as [->|Hk];
      [|rewrite (Hother k Hk); apply Hdi].
    destruct (Hdi (path e)) as [Heq|[Hnone Hgone]].
    - destruct (Hsub (path e)) as [Hsame|Hdel]; [left; congruence|].
      right. split; [done|]. intros content e2 Hd He2 Hp Hdigest.
      rewrite <- Heq in Hd.
      rewrite (same_name_same_digest e2 e He2 He Hp) in Hdigest.
      destruct (H3 content Hd Hdigest) as [_ Hkept]. congruence.
    - right. split; [|done].
      destruct (Hsub (path e)) as [Hsame|Hdel]; congruence. }
  split; [done|]. unfold hashes_checked. fold (path e).
  destruct (Hdi (path e)) as [Heq|[Hnone Hgone]].
  - rewrite <- Heq. done.
  - assert (di' !! path e = None) as Hnone'
      by (destruct (Hsub (path e)); congruence).
    split; [|split].
    + intros _. by apply H1.
    + intros content Hd Hdigest. split; [done|]. by apply H1.
    + intros content Hd Hdigest. exfalso. by eapply Hgone.
Qed.

Lemma checkWARCsHashes_reached l :
  forall (di : folder) out l' d' out',
    reached di ->
    (forall e, e ∈ l -> e ∈ all) ->
    checkWARCsHashes sha1_hex l di out = (l', d', out', Js.Returns tt) ->
    reached d' /\ Forall2 (hashes_checked sha1_hex d d') l l'.
Proof.
  induction l as [|e l IH]; intros di out l' d' out' Hdi Hall; simpl.
  - intros [= <- <- _]. split; [done|constructor].
  - destruct (check_entry sha1_hex e di out) as [[[e1 d1] out1] [[]|err]] eqn:E;
      [|done].
    destruct (checkWARCsHashes sha1_hex l d1 out1) as [[[l2 d2] out2] c2] eqn:R.
    intros [= <- <- _ ->].
    apply check_entry_reached in E as [Hd1 (H1 & H2 & H3)];
      [|done|apply Hall, list_elem_of_here].
    fold (path e) in H1, H2, H3.
    pose proof (checkWARCsHashes_frame _ _ _ _ _ _ _ R) as [_ Hsub].
    apply IH in R as [Hd2 Hrest];
      [|done|intros x Hx; by apply Hall, list_elem_of_further].
    split; [done|]. constructor; [|done].
    unfold hashes_checked. fold (path e). split; [done|split].
    + intros content Hd Hdigest.
      destruct (H2 content Hd Hdigest) as [Hgone Hflag]. split; [|done].
      destruct (Hsub (path e)); congruence.
    + intros content Hd Hdigest.
      destruct (H3 content Hd Hdigest) as [Hflag _]. split; [done|].
      destruct (Hd2 (path e)) as [Heq|[_ Hgone]]; [congruence|].
      exfalso. eapply Hgone; [done|apply Hall, list_elem_of_here|done|done].
Qed.

Lemma reached_start : reached d.
Proof. intros k. by left. Qed.

End HashFacts.

(** C7. After a call of [checkWARCsHashes] that returns, where references
    with the same file name (if any) carry the same [remoteSHA1Hash]: a
    reference whose file is absent has [downloaded = false]; one whose file is
    there with a digest that differs from [remoteSHA1Hash] has lost the file
    and has [downloaded = false]; one whose file is there with the matching
    digest has [downloaded = true], and the file is still there. *)
Theorem checkWARCsHashes_post (sha1_hex : string -> string)
    (WARCs WARCs' : list ArchiveItWARCReference) (d d' : folder)
    (out out' : logger) :
  (forall content, sha1_hex content <> "") ->
  (forall e1 e2,
      e1 ∈ WARCs -> e2 ∈ WARCs ->
      Js.template (filename e1) = Js.template (filename e2) ->
      remoteSHA1Hash e1 = remoteSHA1Hash e2) ->
  checkWARCsHashes sha1_hex WARCs d out = (WARCs', d', out', Js.Returns tt) ->
  Forall2 (hashes_checked sha1_hex d d') WARCs WARCs'.
Proof.
  intros Hne Hsame H.
  eapply (checkWARCsHashes_reached sha1_hex Hne WARCs d Hsame);
    [apply reached_start|done|exact H].
Qed.

Lemma checkWARCsHashes_post_witness :
  Forall2
    (hashes_checked Host.sha1_hex Sample.mixed_folder
       {[ "c.warc.gz" := File "abc" true ]})
    Sample.three
    [Sample.ref "a.warc.gz" [];
     set_localSHA1Hash (Some "66b27417d37e024c46526c2f6d358a754fc552f3")
       (Sample.ref "b.warc.gz" []);
     set_downloaded true
       (set_localSHA1Hash (Some "a9993e364706816aba3e25717850c26c9cd0d89d")
          (Sample.ref "c.warc.gz" []))].
Proof.
  eapply (checkWARCsHashes_post Host.sha1_hex Sample.three _
            Sample.mixed_folder _ []).
  - apply sha1_hex_nonempty.
  - assert (forall e, e ∈ Sample.three
                      -> remoteSHA1Hash e
                         = Some "a9993e364706816aba3e25717850c26c9cd0d89d") as Hr.
    { intros e He. unfold Sample.three in He.
      rewrite !elem_of_cons, elem_of_nil in He.
      destruct He as [->|[->|[->|[]]]]; reflexivity. }
    intros e1 e2 H1 H2 _. by rewrite (Hr e1 H1), (Hr e2 H2).
  - vm_compute. reflexivity.
Defined.

(** ** RateLimitedBatcher *)

(** When every operation keeps [P] and, under [P], completes as [outcome]
    says, the group keeps [P] and its results are the outcomes of its
    members. *)
Lemma allSettled_outcomes {I S : Type}
    (fetchOne : I -> S -> S * Js.completion unit)
    (P : S -> Prop) (outcome : I -> Js.completion unit)
    (group : list I) (s : S) :
  (forall x s, P s -> P (fetchOne x s).1 /\ (fetchOne x s).2 = outcome x) ->
  P s ->
  P (allSettled fetchOne group s).1
  /\ (allSettled fetchOne group s).2 = outcome <$> group.
Proof.
  intros Hop. revert s. induction group as [|x group IH]; intros s Hs; simpl; [done|].
  destruct (Hop x s Hs) as [H1 H2].
  destruct (fetchOne x s) as [s1 r]. simpl in H1, H2.
  destruct (IH s1 H1) as [H3 H4].
  destruct (allSettled fetchOne group s1) as [s2 rs]. simpl in *.
  split; [done|]. by rewrite H2, H4.
Qed.

(** A property of the state that every operation keeps is kept by the
    group. *)
Lemma allSettled_invariant {I S : Type}
    (fetchOne : I -> S -> S * Js.completion unit)
    (P : S -> Prop) (group : list I) (s : S) :
  (forall x s, P s -> P (fetchOne x s).1) ->
  P s -> P (allSettled fetchOne group s).1.
Proof.
  intros Hop. revert s. induction group as [|x group IH]; intros s Hs; simpl; [done|].
  pose proof (Hop x s Hs) as H1.
  destruct (fetchOne x s) as [s1 r]. simpl in H1.
  specialize (IH s1 H1). by destruct (allSettled fetchOne group s1) as [s2 rs].
Qed.

Lemma own_results_one_each {I : Type} (outcome : I -> Js.completion unit)
    (calls : list (settled I)) :
  own_results outcome calls -> one_result_each calls.
Proof.
  unfold own_results, one_result_each. intros H.
  eapply Forall_impl; [exact H|]. intros call ->. apply length_fmap.
Qed.

Lemma own_results_snoc {I : Type} (outcome : I -> Js.completion unit)
    (calls : list (settled I)) group :
  own_results outcome calls ->
  own_results outcome (calls ++ [(group, outcome <$> group)]).
Proof.
  intros H. apply Forall_app. split; [done|]. by repeat constructor.
Qed.

Lemma launched_snoc {I : Type} (calls : list (settled I)) group results :
  launched (calls ++ [(group, results)]) = (launched calls ++ group)%list.
Proof.
  unfold launched. rewrite fmap_app, concat_app. simpl. by rewrite app_nil_r.
Qed.

(** ** CrawlInfoEnricher *)

Section CrawlInfoFacts.

Variable seed_report :
  nat -> option Z -> Js.completion (Response (list SeedRecord)).
Variable c : Js.number.
Hypothesis positive : Js.gt c (Js.Finite 0) = true.

(** The references and the log the stage starts from. *)
Variable ws0 : list ArchiveItWARCReference.
Variable out0 : logger.

(** How [fetchOne] completes on the reference [i] when nothing else has
    run. *)
Let alone (i : nat) : Js.completion unit :=
  (crawlInfo_fetchOne seed_report i (ws0, out0)).2.

Let same_ids (s : list ArchiveItWARCReference * logger) : Prop :=
  crawlId <$> s.1 = crawlId <$> ws0.

Lemma crawlInfo_fetchOne_own i s :
  same_ids s ->
  same_ids (crawlInfo_fetchOne seed_report i s).1
  /\ (crawlInfo_fetchOne seed_report i s).2 = alone i.
Proof.
  unfold same_ids, alone, crawlInfo_fetchOne. destruct s as [ws out]. simpl.
  intros Hids.
  assert (crawlId <$> ws !! i = crawlId <$> ws0 !! i) as Hi
    by (by rewrite <- !list_lookup_fmap, Hids).
  destruct (ws !! i) as [ref|] eqn:E, (ws0 !! i) as [ref0|] eqn:E0;
    simpl in Hi; try done.
  injection Hi as Hi. rewrite <- Hi.
  destruct (seed_report i (crawlId ref)) as [resp|e]; [|done].
  destruct (negb (status resp =? 200)%Z); [done|].
  destruct (body resp); simpl; [|done]. split; [|done].
  rewrite list_fmap_insert. simpl. rewrite <- Hids.
  apply list_insert_id. by rewrite list_lookup_fmap, E.
Qed.

Lemma same_ids_length s : same_ids s -> length s.1 = length ws0.
Proof.
  unfold same_ids. intros H.
  by rewrite <- (length_fmap crawlId s.1), H, length_fmap.
Qed.

Lemma crawlInfo_loop_groups n :
  forall a group s calls,
    a + n = length ws0 ->
    same_ids s ->
    Js.lt (Js.of_nat (length group)) c = true ->
    (n = 0 -> group = []) ->
    own_results alone calls ->
    let r := crawlInfo_loop seed_report c (seq a n) group s calls in
    launched r.2 = (launched calls ++ group ++ seq a n)%list
    /\ own_results alone r.2.
Proof.
  induction n as [|n IH]; intros a group s calls Hlen Hids Hlt Hend Hown; simpl.
  - rewrite (Hend eq_refl). by rewrite !app_nil_r.
  - rewrite Hlt. rewrite (same_ids_length s Hids).
    destruct (Js.ge (Js.of_nat (length (group ++ [a]))) c
              || Nat.eqb a (length ws0 - 1)) eqn:F.
    + destruct (allSettled_outcomes (crawlInfo_fetchOne seed_report)
                  same_ids alone (group ++ [a]) s) as [Hids' Hres];
        [apply crawlInfo_fetchOne_own|done|].
      destruct (allSettled (crawlInfo_fetchOne seed_report) (group ++ [a]) s)
        as [[ws out] results].
      simpl in Hres. subst results.
      destruct (IH (S a) [] (ws, log_rejected
                   (Some "A request to pull crawl info failed. Skipping.")
                   (alone <$> (group ++ [a])%list) out)
                  (calls ++ [((group ++ [a])%list, alone <$> (group ++ [a])%list)])%list)
        as [IH1 IH2].
      * lia.
      * exact Hids'.
      * by apply zero_lt_positive.
      * done.
      * by apply own_results_snoc.
      * split; [|done]. rewrite IH1, launched_snoc. simpl.
        by rewrite <- !app_assoc.
    + apply orb_false_iff in F as [Fge Feq].
      rewrite (of_nat_lt_ge _ _ positive) in Fge.
      apply negb_false_iff in Fge.
      apply Nat.eqb_neq in Feq.
      destruct (IH (S a) (group ++ [a])%list s calls) as [IH1 IH2]; try done.
      * lia.
      * intros ->. lia.
      * split; [|done]. rewrite IH1. by rewrite <- !app_assoc.
Qed.

Lemma fetchWARCsCrawlInfo_groups :
  let r := fetchWARCsCrawlInfo seed_report c ws0 out0 in
  launched r.2 = seq 0 (length ws0) /\ own_results alone r.2.
Proof.
  unfold fetchWARCsCrawlInfo.
  apply (crawlInfo_loop_groups (length ws0) 0 [] (ws0, out0) []); try done.
  constructor.
Qed.

End CrawlInfoFacts.

(** ** FetchEngine *)

Section DownloadFacts.

Variable download : nat -> option string -> Js.completion Download.
Variable c : Js.number.
Hypothesis positive : Js.gt c (Js.Finite 0) = true.
Variable ws : list ArchiveItWARCReference.

(** The folder and the log the stage starts from. *)
Variable d0 : folder.
Variable out0 : logger.

(** How [fetchOne] completes on the reference [i] when nothing else has
    run. *)
Let alone (i : nat) : Js.completion unit :=
  (download_fetchOne download ws i (d0, out0)).2.

(** Downloads create and extend files: what is a directory stays one,
    and nothing becomes one. *)
Let same_dirs (s : folder * logger) : Prop :=
  forall k, s.1 !! k = Some Directory <-> d0 !! k = Some Directory.

Let stream_end (e : option Js.error) : Js.completion unit :=
  match e with
  | Some e => Js.Throws e
  | None => Js.Returns tt
  end.

Lemma pipeTo_file name chunks e (d : folder) :
  d !! name <> Some Directory ->
  (pipeTo name chunks e d).2 = stream_end e
  /\ (forall k, (pipeTo name chunks e d).1 !! k = Some Directory
                <-> d !! k = Some Directory).
Proof.
  revert d. induction chunks as [|chunk chunks IH]; intros d Hd; simpl.
  - by destruct e.
  - unfold appendFile.
    destruct (d !! name) as [[content r|]|] eqn:E; [|done|].
    + destruct (IH (<[name := File (content ++ chunk) r]> d)) as [H1 H2].
      { by rewrite lookup_insert_eq. }
      split; [done|]. intros k. rewrite H2.
      destruct (decide (k = name)) as [->|Hk].
      * rewrite lookup_insert_eq, E. split; intros [=].
      * by rewrite lookup_insert_ne.
    + destruct (IH (<[name := File chunk true]> d)) as [H1 H2].
      { by rewrite lookup_insert_eq. }
      split; [done|]. intros k. rewrite H2.
      destruct (decide (k = name)) as [->|Hk].
      * rewrite lookup_insert_eq, E. split; intros [=].
      * by rewrite lookup_insert_ne.
Qed.

Lemma pipeTo_directory name chunks e (d : folder) :
  d !! name = Some Directory ->
  pipeTo name chunks e d
  = (d, match chunks with
        | [] => stream_end e
        | _ => Js.Throws (Js.Error "EISDIR")
        end).
Proof.
  intros Hd. destruct chunks as [|chunk chunks]; simpl.
  - by destruct e.
  - unfold appendFile. by rewrite Hd.
Qed.

Lemma pipeTo_own name chunks e s :
  same_dirs s ->
  same_dirs ((pipeTo name chunks e s.1).1, s.2)
  /\ (pipeTo name chunks e s.1).2 = (pipeTo name chunks e d0).2.
Proof.
  unfold same_dirs. destruct s as [d out]. simpl. intros Hs.
  assert (d0 !! name = Some Directory \/ d0 !! name <> Some Directory)
    as [Hd0|Hd0] by (destruct (d0 !! name) as [[|]|]; auto).
  - rewrite (pipeTo_directory _ _ _ d0 Hd0).
    rewrite (pipeTo_directory _ _ _ d (proj2 (Hs name) Hd0)). done.
  - assert (d !! name <> Some Directory) as Hd by (by rewrite Hs).
    destruct (pipeTo_file name chunks e d Hd) as [H1 H2].
    destruct (pipeTo_file name chunks e d0 Hd0) as [H3 _].
    rewrite H1, H3. split; [|done]. intros k. by rewrite H2.
Qed.

Lemma download_fetchOne_own i s :
  same_dirs s ->
  same_dirs (download_fetchOne download ws i s).1
  /\ (download_fetchOne download ws i s).2 = alone i.
Proof.
  intros Hs. unfold alone, download_fetchOne.
  pose proof (pipeTo_own) as Hp.
  destruct s as [d out].
  destruct (ws !! i) as [ref|]; [|done].
  destruct (download i (downloadUrl ref)) as [resp|e]; [|done].
  destruct (negb (download_status resp =? 200)%Z); [done|].
  specialize (Hp (Js.template (filename ref)) (download_chunks resp)
                 (download_error resp) (d, out) Hs).
  simpl in Hp. destruct Hp as [Hp1 Hp2].
  destruct (pipeTo _ _ _ d) as [d1 c1], (pipeTo _ _ _ d0) as [d2 c2].
  simpl in *. subst c2. by destruct c1 as [[]|e1].
Qed.

Lemma download_loop_groups n :
  forall a group s calls,
    a + n = length ws ->
    same_dirs s ->
    Js.lt (Js.of_nat (length group)) c = true ->
    (n = 0 -> group = []) ->
    own_results alone calls ->
    let r := download_loop download c ws (seq a n) group s calls in
    launched r.2
    = (launched calls ++ group ++ List.filter (pending ws) (seq a n))%list
    /\ own_results alone r.2.
Proof.
  induction n as [|n IH]; intros a group s calls Hlen Hs Hlt Hend Hown; simpl.
  - rewrite (Hend eq_refl). by rewrite !app_nil_r.
  - rewrite Hlt.
    set (group1 := match ws !! a with
                   | Some ref => if negb (downloaded ref)
                                 then (group ++ [a])%list else group
                   | None => group
                   end).
    assert ((group ++ List.filter (pending ws) (a :: seq (S a) n))%list
            = (group1 ++ List.filter (pending ws) (seq (S a) n))%list) as Hg.
    { subst group1. simpl. unfold pending at 1.
      destruct (ws !! a) as [ref|]; [|done].
      destruct (negb (downloaded ref)); [|done]. by rewrite <- app_assoc. }
    simpl in Hg. rewrite Hg. clear Hg.
    destruct (Js.ge (Js.of_nat (length group1)) c
              || Nat.eqb a (length ws - 1)) eqn:F.
    + destruct (allSettled_outcomes (download_fetchOne download ws)
                  same_dirs alone group1 s) as [Hs' Hres];
        [apply download_fetchOne_own|done|].
      destruct (allSettled (download_fetchOne download ws) group1 s)
        as [[d out] results].
      simpl in Hres. subst results.
      destruct (IH (S a) [] (d, log_rejected None (alone <$> group1) out)
                  (calls ++ [(group1, alone <$> group1)])%list) as [IH1 IH2].
      * lia.
      * exact Hs'.
      * by apply zero_lt_positive.
      * done.
      * by apply own_results_snoc.
      * split; [|done]. rewrite IH1, launched_snoc. simpl.
        by rewrite <- !app_assoc.
    + apply orb_false_iff in F as [Fge Feq].
      rewrite (of_nat_lt_ge _ _ positive) in Fge.
      apply negb_false_iff in Fge.
      apply Nat.eqb_neq in Feq.
      destruct (IH (S a) group1 s calls) as [IH1 IH2]; try done.
      * lia.
      * intros ->. lia.
Qed.

Lemma fetchWARCs_groups :
  let r := fetchWARCs download c ws d0 out0 in
  launched r.2 = List.filter (pending ws) (seq 0 (length ws))
  /\ own_results alone r.2.
Proof.
  unfold fetchWARCs.
  apply (download_loop_groups (length ws) 0 [] (d0, out0) []); try done.
  constructor.
Qed.

End DownloadFacts.

(** ** TitleResolver *)

Lemma skeleton_lookup (a b : list ArchiveItWARCReference) (i : nat) :
  skeleton a = skeleton b ->
  match a !! i, b !! i with
  | Some r, Some r' =>
      filename r = filename r'
      /\ (λ c, (seedId c, url c, timestamp c)) <$> crawledUrls r
         = (λ c, (seedId c, url c, timestamp c)) <$> crawledUrls r'
  | None, None => True
  | _, _ => False
  end.
Proof.
  unfold skeleton. intros H.
  assert (((λ ref, (filename ref,
            (λ c, (seedId c, url c, timestamp c)) <$> crawledUrls ref)) <$> a) !! i
          = ((λ ref, (filename ref,
            (λ c, (seedId c, url c, timestamp c)) <$> crawledUrls ref)) <$> b) !! i)
    as Hi by (by rewrite H).
  rewrite !list_lookup_fmap in Hi.
  destruct (a !! i), (b !! i); simpl in Hi; try done.
  injection Hi as H1 H2. done.
Qed.

Lemma skeleton_length (a b : list ArchiveItWARCReference) :
  skeleton a = skeleton b -> length a = length b.
Proof.
  unfold skeleton. intros H.
  apply (f_equal length) in H. by rewrite !length_fmap in H.
Qed.

Lemma crawl_lookup (l l' : list ArchiveItCrawledUrl) (ii : nat) :
  (λ c, (seedId c, url c, timestamp c)) <$> l
  = (λ c, (seedId c, url c, timestamp c)) <$> l' ->
  match l !! ii, l' !! ii with
  | Some c, Some c' =>
      seedId c = seedId c' /\ url c = url c' /\ timestamp c = timestamp c'
  | None, None => True
  | _, _ => False
  end.
Proof.
  intros H.
  assert (((λ c, (seedId c, url c, timestamp c)) <$> l) !! ii
          = ((λ c, (seedId c, url c, timestamp c)) <$> l') !! ii)
    as Hi by (by rewrite H).
  rewrite !list_lookup_fmap in Hi.
  destruct (l !! ii), (l' !! ii); simpl in Hi; try done.
  injection Hi as H1 H2 H3. done.
Qed.

Section TitleFacts.

Variable collectionId : string.
Variable encodeURIComponent : string -> string.
Variable seed_metadata :
  nat * nat -> Z -> Js.completion (option (list (option string))).
Variable wayback : nat * nat -> string -> Js.completion ReplayResponse.
Variable c : Js.number.

Variable ws0 : list ArchiveItWARCReference.
Variable out0 : logger.

Let fetchOne := title_fetchOne collectionId encodeURIComponent seed_metadata wayback.

(** How [fetchOne] completes on the crawled url [p] when nothing else has
    run. *)
Let alone (p : nat * nat) : Js.completion unit := (fetchOne p (ws0, out0)).2.

Let same_skeleton (s : list ArchiveItWARCReference * logger) : Prop :=
  skeleton s.1 = skeleton ws0.

Lemma title_from_metadata_title p crawl crawl' out out' :
  seedId crawl = seedId crawl' ->
  (title_from_metadata seed_metadata p crawl out).1
  = (title_from_metadata seed_metadata p crawl' out').1.
Proof.
  unfold title_from_metadata. intros <-.
  destruct (seedId crawl) as [id|]; [|done].
  destruct (id =? 0)%Z; [done|].
  by destruct (seed_metadata p id) as [[[|v l]|]|e].
Qed.

(** [fetchOne] rejects exactly when no title came from the meta data and
    the timestamp is missing. *)
Lemma title_fetchOne_completion p ws out :
  (fetchOne p (ws, out)).2
  = match ws !! p.1 ≫= (λ ref, crawledUrls ref !! p.2) with
    | None => Js.Throws (Js.TypeError "Cannot read properties of undefined")
    | Some crawl =>
        if negb (Js.truthy_str (title_from_metadata seed_metadata p crawl []).1)
        then match timestamp crawl with
             | None => Js.Throws (Js.TypeError "Cannot read properties of null (reading 'substring')")
             | Some _ => Js.Returns tt
             end
        else Js.Returns tt
    end.
Proof.
  unfold fetchOne, title_fetchOne.
  destruct (ws !! p.1) as [ref|]; simpl; [|done].
  destruct (crawledUrls ref !! p.2) as [crawl|]; simpl; [|done].
  rewrite (title_from_metadata_title p crawl crawl [] out eq_refl).
  destruct (title_from_metadata seed_metadata p crawl out) as [t o]. simpl.
  destruct (Js.truthy_str t) eqn:T; simpl.
  - by rewrite T.
  - unfold waybackUrl_of. destruct (timestamp crawl) as [ts|]; [|done].
    destruct (title_from_wayback _ _ _ _ _) as [t2 o2].
    by destruct (Js.truthy_str t2).
Qed.

Lemma skeleton_insert ws i ref crawl ii t :
  ws !! i = Some ref ->
  crawledUrls ref !! ii = Some crawl ->
  skeleton (<[i := set_crawledUrls (<[ii := set_title t crawl]> (crawledUrls ref)) ref]> ws)
  = skeleton ws.
Proof.
  intros Hi Hii. unfold skeleton. rewrite list_fmap_insert. simpl.
  apply list_insert_id. rewrite list_lookup_fmap, Hi. simpl. do 2 f_equal.
  rewrite list_fmap_insert. simpl. symmetry.
  apply list_insert_id. by rewrite list_lookup_fmap, Hii.
Qed.

Lemma title_fetchOne_skeleton p s :
  skeleton (fetchOne p s).1.1 = skeleton s.1.
Proof.
  unfold fetchOne, title_fetchOne. destruct s as [ws out]. simpl.
  destruct (ws !! p.1) as [ref|] eqn:E1; [|done].
  destruct (crawledUrls ref !! p.2) as [crawl|] eqn:E2; [|done].
  destruct (title_from_metadata seed_metadata p crawl out) as [t o].
  destruct (negb (Js.truthy_str t)); simpl.
  - destruct (waybackUrl_of _ _ _) as [u|]; [|done].
    destruct (title_from_wayback _ _ _ _ _) as [t2 o2].
    destruct (Js.truthy_str t2); [|done]. simpl.
    by apply skeleton_insert.
  - destruct (Js.truthy_str t); [|done]. simpl. by apply skeleton_insert.
Qed.

Lemma title_fetchOne_own p s :
  same_skeleton s ->
  same_skeleton (fetchOne p s).1 /\ (fetchOne p s).2 = alone p.
Proof.
  unfold same_skeleton, alone. intros Hs. split.
  - by rewrite title_fetchOne_skeleton.
  - destruct s as [ws out]. rewrite !title_fetchOne_completion. simpl in Hs.
    pose proof (skeleton_lookup ws ws0 p.1 Hs) as H1.
    destruct (ws !! p.1) as [ref|], (ws0 !! p.1) as [ref0|]; try done. simpl.
    destruct H1 as [_ H1].
    pose proof (crawl_lookup _ _ p.2 H1) as H2.
    destruct (crawledUrls ref !! p.2) as [crawl|],
             (crawledUrls ref0 !! p.2) as [crawl0|]; try done. simpl.
    destruct H2 as (Hid & _ & Hts).
    rewrite (title_from_metadata_title p crawl crawl0 [] [] Hid).
    by rewrite Hts.
Qed.

Lemma title_loop_own range :
  forall group s calls,
    same_skeleton s ->
    own_results alone calls ->
    own_results alone
      (title_loop collectionId encodeURIComponent seed_metadata wayback c
         range group s calls).1.2.
Proof.
  induction range as [|i range IH]; intros group s calls Hs Hown; simpl; [done|].
  destruct (s.1 !! i) as [ref|]; [|done].
  destruct (is_missing_urls_patch ref) as [[|]|e]; simpl; [by apply IH| |done].
  set (group1 := title_group_loop c i _ group).
  destruct (Js.ge (Js.of_nat (length group1)) c
            || Js.ge (Js.of_nat i) (Js.of_nat (length s.1))).
  - destruct (allSettled_outcomes fetchOne same_skeleton alone group1 s)
      as [Hs' Hres]; [apply title_fetchOne_own|done|].
    fold fetchOne.
    destruct (allSettled fetchOne group1 s) as [[ws out] results].
    simpl in Hres. subst results.
    apply IH; [exact Hs'|]. by apply own_results_snoc.
  - by apply IH.
Qed.

End TitleFacts.

(** The groups the title loop launches do not depend on what the requests
    answer. *)
Lemma title_loop_same_groups id enc meta way id' enc' meta' way' c range :
  forall group s s' calls calls',
    skeleton s.1 = skeleton s'.1 ->
    fst <$> calls = fst <$> calls' ->
    let r := title_loop id enc meta way c range group s calls in
    let r' := title_loop id' enc' meta' way' c range group s' calls' in
    fst <$> r.1.2 = fst <$> r'.1.2 /\ r.2 = r'.2.
Proof.
  induction range as [|i range IH]; intros group s s' calls calls' Hs Hc; simpl;
    [done|].
  pose proof (skeleton_lookup _ _ i Hs) as Hi.
  pose proof (skeleton_length _ _ Hs) as Hlen.
  destruct (s.1 !! i) as [ref|], (s'.1 !! i) as [ref'|]; try done.
  destruct Hi as [Hf Hcr].
  assert (is_missing_urls_patch ref = is_missing_urls_patch ref') as ->
    by (unfold is_missing_urls_patch; by rewrite Hf).
  destruct (is_missing_urls_patch ref') as [[|]|e]; simpl; [by apply IH| |done].
  assert (length (crawledUrls ref) = length (crawledUrls ref')) as ->.
  { apply (f_equal length) in Hcr. by rewrite !length_fmap in Hcr. }
  rewrite Hlen.
  set (group1 := title_group_loop c i _ group).
  destruct (Js.ge (Js.of_nat (length group1)) c
            || Js.ge (Js.of_nat i) (Js.of_nat (length s'.1))).
  - pose proof (allSettled_invariant (title_fetchOne id enc meta way)
                  (λ x, skeleton x.1 = skeleton s.1) group1 s) as H1.
    pose proof (allSettled_invariant (title_fetchOne id' enc' meta' way')
                  (λ x, skeleton x.1 = skeleton s'.1) group1 s') as H2.
    simpl in H1, H2.
    destruct (allSettled (title_fetchOne id enc meta way) group1 s)
      as [[ws out] results].
    destruct (allSettled (title_fetchOne id' enc' meta' way') group1 s')
      as [[ws' out'] results'].
    simpl in H1, H2. apply IH.
    + simpl. rewrite H1, H2; try done.
      * intros x y Hy. by rewrite title_fetchOne_skeleton.
      * intros x y Hy. by rewrite title_fetchOne_skeleton.
    + rewrite !fmap_app. simpl. by rewrite Hc.
  - by apply IH.
Qed.

(** ** LocalStateReconciler: what a run leaves in the folder *)

Lemma readdir_spec (d : folder) name : name ∈ readdir d <-> is_Some (d !! name).
Proof.
  unfold readdir. rewrite list_elem_of_fmap. split.
  - intros ([k x] & -> & H). apply elem_of_map_to_list in H. by exists x.
  - intros [x H]. exists (name, x). split; [done|]. by apply elem_of_map_to_list.
Qed.

Lemma readdir_NoDup (d : folder) : NoDup (readdir d).
Proof. apply NoDup_fst_map_to_list. Qed.

Lemma kept_test WARCs name :
  Js.endsWith name WARC_GZ && js_in name (inCollection_of WARCs) = kept WARCs name.
Proof.
  unfold kept, paths. apply eq_true_iff_eq. rewrite kept_iff.
  rewrite andb_true_iff, bool_decide_eq_true. done.
Qed.

Lemma deleteLoose_loop_completion inC names :
  forall (d : folder) out,
    NoDup names ->
    (forall n, n ∈ names -> is_Some (d !! n)) ->
    (deleteLoose_loop inC names d out).2 = Js.Returns tt
    <-> (forall n, n ∈ names ->
                   Js.endsWith n WARC_GZ && js_in n inC = false ->
                   d !! n <> Some Directory).
Proof.
  induction names as [|n names IH]; intros d out Hnd Hin; simpl.
  - split; [|done]. intros _ n Hn. by apply elem_of_nil in Hn.
  - apply NoDup_cons in Hnd as [Hn Hnd].
    destruct (Js.endsWith n WARC_GZ && js_in n inC) eqn:K.
    + rewrite IH; [|done|intros m Hm; apply Hin; by right].
      split.
      * intros H m Hm Km. apply elem_of_cons in Hm as [->|Hm]; [congruence|].
        by apply H.
      * intros H m Hm. apply H. by right.
    + unfold rm. destruct (Hin n) as [x Hx]; [by left|]. rewrite Hx.
      destruct x as [content r|].
      * rewrite IH; [|done|].
        2:{ intros m Hm. rewrite lookup_delete_ne by (intros ->; done).
            apply Hin. by right. }
        split.
        -- intros H m Hm Km. apply elem_of_cons in Hm as [->|Hm]; [congruence|].
           specialize (H m Hm Km).
           by rewrite lookup_delete_ne in H by (intros ->; done).
        -- intros H m Hm Km.
           rewrite lookup_delete_ne by (intros ->; done).
           apply H; [by right|done].
      * simpl. split; [done|]. intros H. exfalso.
        apply (H n); [by left|done|done].
Qed.

(** ** LocalStateReconciler: what the checksum pass does to the folder and
       to the references *)

Section ChecksumFacts.

Variable sha1_hex : string -> string.

Let path (e : ArchiveItWARCReference) : string := Js.template (filename e).

(** One iteration writes [downloaded] and [localSHA1Hash] only, leaves the
    folder as it is or removes the file of the entry, and throws only
    when the path of the entry is a directory. *)
Lemma check_entry_effect e (d : folder) out :
  let r := check_entry sha1_hex e d out in
  identity r.1.1.1 = identity e
  /\ (r.1.1.2 = d
      \/ (r.1.1.2 = delete (path e) d
          /\ exists content readable,
               d !! path e = Some (File content readable)))
  /\ (d !! path e <> Some Directory -> r.2 = Js.Returns tt).
Proof.
  unfold check_entry, access, readFile, rm. fold (path e).
  destruct (d !! path e) as [[content [|]| ]|] eqn:E; simpl;
    repeat (match goal with
            | |- context [if ?b then _ else _] => destruct b; simpl
            end);
    rewrite ?E; simpl; repeat split; eauto; done.
Qed.

Lemma checkWARCsHashes_effect l :
  forall (d : folder) out,
    let r := checkWARCsHashes sha1_hex l d out in
    identity <$> r.1.1.1 = identity <$> l
    /\ (forall name,
          r.1.1.2 !! name = d !! name
          \/ (r.1.1.2 !! name = None
              /\ name ∈ paths l
              /\ exists content readable,
                   d !! name = Some (File content readable)))
    /\ ((forall e, e ∈ l -> d !! path e <> Some Directory) ->
        r.2 = Js.Returns tt).
Proof.
  induction l as [|e l IH]; intros d out; simpl.
  - repeat split; auto.
  - destruct (check_entry_effect e d out) as (Hid & Hd & Hc).
    destruct (check_entry sha1_hex e d out) as [[[e1 d1] out1] c1].
    simpl in Hid, Hd, Hc.
    assert (forall name,
               d1 !! name = d !! name
               \/ (d1 !! name = None
                   /\ name = path e
                   /\ exists content readable,
                        d !! name = Some (File content readable))) as Hd1.
    { intros name. destruct Hd as [->|[-> Hfile]]; [by left|].
      destruct (decide (name = path e)) as [->|Hne].
      - right. rewrite lookup_delete_eq. done.
      - left. by rewrite lookup_delete_ne. }
    destruct c1 as [[]|err].
    + destruct (IH d1 out1) as (IHid & IHd & IHc).
      destruct (checkWARCsHashes sha1_hex l d1 out1) as [[[l2 d2] out2] c2].
      csimpl in *. split; [by rewrite Hid, IHid|]. split.
      * intros name. unfold paths. simpl. fold (paths l).
        destruct (IHd name) as [H2|(H2 & Hin & content & readable & Hf)].
        -- destruct (Hd1 name) as [H1|(H1 & -> & Hf)].
           ++ left. congruence.
           ++ right. split; [congruence|]. split; [by left|done].
        -- right. split; [done|]. split; [by right|].
           destruct (Hd1 name) as [H1|(H1 & _)]; [|congruence].
           exists content, readable. congruence.
      * intros Hno. apply IHc. intros e2 He2.
        destruct (Hd1 (path e2)) as [H1|(H1 & _)].
        -- rewrite H1. apply Hno. by right.
        -- by rewrite H1.
    + csimpl. split; [by rewrite Hid|]. split.
      * intros name. destruct (Hd1 name) as [H1|(H1 & -> & Hf)]; [by left|].
        right. split; [done|]. split; [|done]. unfold paths. simpl. by left.
      * intros Hno. exfalso.
        assert (Js.Throws err = Js.Returns tt) as X; [|done].
        apply Hc, Hno. by left.
Qed.

End ChecksumFacts.

Section ChecksumTwice.

Variable sha1_hex : string -> string.
Hypothesis digest_nonempty : forall content, sha1_hex content <> "".

Let path (e : ArchiveItWARCReference) : string := Js.template (filename e).

(** An entry the pass leaves as it is, in a folder it leaves as it is. *)
Let fixed (d : folder) (e : ArchiveItWARCReference) : Prop :=
  forall out, exists out',
    check_entry sha1_hex e d out = (e, d, out', Js.Returns tt).

(** The entry an iteration leaves is fixed in any later folder that has
    only lost entries, the file of the entry not being one of them when it
    was kept for its digest. *)
Lemma check_entry_fixed e (di : folder) out e' di' out' (d' : folder) :
  check_entry sha1_hex e di out = (e', di', out', Js.Returns tt) ->
  (forall k, d' !! k = di' !! k \/ d' !! k = None) ->
  (forall content,
      di' !! path e = Some (File content true) ->
      d' !! path e = di' !! path e) ->
  fixed d' e'.
Proof.
  unfold fixed, check_entry, access, readFile, rm. fold (path e).
  intros E Hsub Hkept out2.
  destruct (di !! path e) as [[content [|]| ]|] eqn:X; simpl in E.
  - (* a readable file *)
    rewrite (truthy_digest sha1_hex digest_nonempty) in E. simpl in E.
    destruct (bool_decide (Some (sha1_hex content) = remoteSHA1Hash e)) eqn:B;
      simpl in E.
    + injection E as <- <- _. simpl. fold (path e).
      rewrite (Hkept content X), X. simpl.
      rewrite (truthy_digest sha1_hex digest_nonempty), B. simpl.
      eexists. reflexivity.
    + injection E as <- <- _. simpl. fold (path e).
      destruct (Hsub (path e)) as [H|H]; rewrite lookup_delete_eq in *;
        rewrite H; simpl; eexists; reflexivity.
  - (* a file that cannot be read *)
    destruct (Js.truthy_str (localSHA1Hash e)
              && negb (bool_decide (localSHA1Hash e = remoteSHA1Hash e))) eqn:B;
      simpl in E.
    + injection E as <- <- _. simpl. fold (path e).
      destruct (Hsub (path e)) as [H|H]; rewrite lookup_delete_eq in *;
        rewrite H; simpl; eexists; reflexivity.
    + injection E as <- <- _. simpl. fold (path e).
      destruct (Hsub (path e)) as [H|H]; rewrite H; [rewrite X|]; simpl;
        [rewrite B|]; eexists; reflexivity.
  - (* a directory *)
    destruct (Js.truthy_str (localSHA1Hash e)
              && negb (bool_decide (localSHA1Hash e = remoteSHA1Hash e))) eqn:B;
      simpl in E.
    + done.
    + injection E as <- <- _. simpl. fold (path e).
      destruct (Hsub (path e)) as [H|H]; rewrite H; [rewrite X|]; simpl;
        [rewrite B|]; eexists; reflexivity.
  - (* nothing *)
    injection E as <- <- _. simpl. fold (path e).
    destruct (Hsub (path e)) as [H|H]; rewrite H; [rewrite X|]; simpl;
      eexists; reflexivity.
Qed.

Variable all : list ArchiveItWARCReference.
Hypothesis same_name_same_digest :
  forall e1 e2, e1 ∈ all -> e2 ∈ all -> path e1 = path e2 ->
                remoteSHA1Hash e1 = remoteSHA1Hash e2.

Lemma checkWARCsHashes_fixed l :
  forall (di : folder) out l' d' out',
    (forall e, e ∈ l -> e ∈ all) ->
    checkWARCsHashes sha1_hex l di out = (l', d', out', Js.Returns tt) ->
    Forall (fixed d') l'.
Proof.
  induction l as [|e l IH]; intros di out l' d' out' Hall; simpl.
  - intros [= <- _ _]. constructor.
  - destruct (check_entry sha1_hex e di out) as [[[e1 d1] out1] [[]|err]] eqn:E;
      [|done].
    destruct (checkWARCsHashes sha1_hex l d1 out1) as [[[l2 d2] out2] c2] eqn:R.
    intros [= <- <- _ ->].
    pose proof (checkWARCsHashes_frame sha1_hex digest_nonempty _ _ _ _ _ _ _ R)
      as [_ Hsub].
    pose proof (checkWARCsHashes_reached sha1_hex digest_nonempty all d1
                  same_name_same_digest l d1 out1 l2 d2 out2) as Hreached.
    simpl in Hreached.
    destruct Hreached as [Hd2 _];
      [intros k; by left|intros x Hx; by apply Hall, list_elem_of_further|done|].
    constructor.
    + eapply check_entry_fixed; [exact E|exact Hsub|].
      intros content Hd1.
      destruct (Hd2 (Js.template (filename e))) as [Heq|[_ Hgone]]; [done|].
      exfalso.
      apply (check_entry_returns sha1_hex digest_nonempty) in E
        as (_ & _ & Hsub1 & _ & H2 & _).
      fold (path e) in Hd1, Hsub1, H2.
      assert (di !! path e = Some (File content true)) as Hdi
        by (destruct (Hsub1 (path e)); congruence).
      destruct (decide (Some (sha1_hex content) = remoteSHA1Hash e)) as [Hm|Hm].
      * eapply Hgone; [exact Hd1|apply Hall, list_elem_of_here|done|done].
      * destruct (H2 content Hdi Hm) as [Hnone _]. congruence.
    + eapply IH; [|exact R]. intros x Hx. by apply Hall, list_elem_of_further.
Qed.

Lemma fixed_checkWARCsHashes (d' : folder) l' :
  Forall (fixed d') l' ->
  forall out, exists out',
    checkWARCsHashes sha1_hex l' d' out = (l', d', out', Js.Returns tt).
Proof.
  induction 1 as [|e l He Hl IH]; intros out; simpl.
  - by eexists.
  - destruct (He out) as [out1 ->].
    destruct (IH out1) as [out2 ->]. by eexists.
Qed.

End ChecksumTwice.

(** ** RateLimitedBatcher: what the groups leave behind *)

(** When what an operation does to the data does not depend on the log, a
    group does to the data what its members do one after the other. *)
Lemma allSettled_fold {I D : Type}
    (fetchOne : I -> D * logger -> (D * logger) * Js.completion unit)
    (effect : I -> D -> D) :
  (forall x d out, (fetchOne x (d, out)).1.1 = effect x d) ->
  forall group d out,
    (allSettled fetchOne group (d, out)).1.1
    = foldl (λ d x, effect x d) d group.
Proof.
  intros Heff. induction group as [|x group IH]; intros d out; simpl; [done|].
  specialize (Heff x d out).
  destruct (fetchOne x (d, out)) as [[d1 out1] r]. simpl in Heff. subst d1.
  specialize (IH (effect x d) out1).
  by destruct (allSettled fetchOne group (effect x d, out1)) as [[d2 out2] rs].
Qed.

Lemma foldl_invariant {A B : Type} (f : A -> B -> A) (P : A -> Prop) (l : list B) :
  forall a,
    (forall x a, x ∈ l -> P a -> P (f a x)) -> P a -> P (foldl f a l).
Proof.
  induction l as [|x l IH]; intros a Hf Ha; simpl; [done|].
  apply IH.
  - intros y b Hy. apply Hf. by right.
  - apply Hf; [by left|done].
Qed.

Lemma string_app_nil_r (s : string) : s ++ "" = s.
Proof.
  induction s as [|a s IH]; [done|].
  change (String a (s ++ "") = String a s). by rewrite IH.
Qed.

Lemma string_app_assoc (s1 s2 s3 : string) : (s1 ++ s2) ++ s3 = s1 ++ s2 ++ s3.
Proof.
  induction s1 as [|a s1 IH]; [done|].
  change (String a ((s1 ++ s2) ++ s3) = String a (s1 ++ s2 ++ s3)).
  by rewrite IH.
Qed.

(** ** CrawlInfoEnricher: the references after the stage *)

Section CrawlInfoEffect.

Variable seed_report :
  nat -> option Z -> Js.completion (Response (list SeedRecord)).
Variable c : Js.number.
Variable ws0 : list ArchiveItWARCReference.

(** What [fetchOne] does to [this.WARCs]. *)
Let effect (i : nat) (ws : list ArchiveItWARCReference)
  : list ArchiveItWARCReference :=
  (crawlInfo_fetchOne seed_report i (ws, [])).1.1.

(** The references when the positions below [k] have been enriched. *)
Let upto (k : nat) : list ArchiveItWARCReference :=
  imap (λ j ref, if decide (j < k) then enriched seed_report j ref else ref) ws0.

Lemma crawlInfo_fetchOne_effect i ws out :
  (crawlInfo_fetchOne seed_report i (ws, out)).1.1 = effect i ws.
Proof.
  unfold effect, crawlInfo_fetchOne.
  destruct (ws !! i) as [ref|]; [|done].
  destruct (seed_report i (crawlId ref)) as [resp|e]; [|done].
  destruct (negb (status resp =? 200)%Z); [done|].
  by destruct (body resp).
Qed.

Lemma crawlInfo_loop_fold range :
  forall group s calls,
    let r := crawlInfo_loop seed_report c range group s calls in
    s.1 = foldl (λ ws i, effect i ws) ws0 (launched calls) ->
    r.1.1 = foldl (λ ws i, effect i ws) ws0 (launched r.2).
Proof.
  induction range as [|i range IH]; intros group s calls; simpl; [done|].
  intros Hs.
  set (group1 := if Js.lt (Js.of_nat (length group)) c
                 then (group ++ [i])%list else group).
  destruct (Js.ge (Js.of_nat (length group1)) c
            || Nat.eqb i (length s.1 - 1)).
  - destruct s as [ws out].
    pose proof (allSettled_fold (crawlInfo_fetchOne seed_report) effect
                  crawlInfo_fetchOne_effect group1 ws out) as Hg.
    destruct (allSettled (crawlInfo_fetchOne seed_report) group1 (ws, out))
      as [[ws1 out1] results].
    simpl in Hg, Hs. apply IH. simpl.
    by rewrite launched_snoc, foldl_app, <- Hs.
  - by apply IH.
Qed.

(** Whatever the limit, the stage keeps the file names. *)
Lemma fetchWARCsCrawlInfo_names out :
  filename <$> (fetchWARCsCrawlInfo seed_report c ws0 out).1.1
  = filename <$> ws0.
Proof.
  unfold fetchWARCsCrawlInfo.
  rewrite (crawlInfo_loop_fold (seq 0 (length ws0)) [] (ws0, out) []) by done.
  apply (foldl_invariant (λ ws i, effect i ws)
           (λ ws, filename <$> ws = filename <$> ws0)); [|done].
  intros i ws _ <-. unfold effect, crawlInfo_fetchOne.
  destruct (ws !! i) as [ref|] eqn:E; [|done].
  destruct (seed_report i (crawlId ref)) as [resp|e]; [|done].
  destruct (negb (status resp =? 200)%Z); [done|].
  destruct (body resp); simpl; [|done].
  rewrite list_fmap_insert. simpl. apply list_insert_id.
  by rewrite list_lookup_fmap, E.
Qed.

Lemma upto_lookup k j :
  upto k !! j
  = (λ ref, if decide (j < k) then enriched seed_report j ref else ref)
      <$> ws0 !! j.
Proof. apply list_lookup_imap. Qed.

Lemma effect_upto k : effect k (upto k) = upto (S k).
Proof.
  unfold effect, crawlInfo_fetchOne.
  pose proof (upto_lookup k k) as Hk.
  destruct (decide (k < k)) as [?|_]; [lia|].
  assert (forall x : ArchiveItWARCReference,
             ws0 !! k = Some x ->
             <[k := enriched seed_report k x]> (upto k) = upto (S k)) as Hins.
  { intros x Hx. apply list_eq. intros j.
    rewrite list_lookup_insert, !upto_lookup.
    unfold upto. rewrite length_imap.
    destruct (decide (k = j ∧ k < length ws0)) as [[<- Hlt]|Hne].
    - rewrite Hx. simpl. destruct (decide (k < S k)); [done|lia].
    - destruct (ws0 !! j) as [y|] eqn:Hy; [|done]. simpl.
      apply lookup_lt_Some in Hy as Hlt.
      assert (k <> j) by (intros ->; apply Hne; done).
      destruct (decide (j < k)), (decide (j < S k)); try done; lia. }
  destruct (ws0 !! k) as [ref|] eqn:E; simpl in Hk; rewrite Hk.
  - specialize (Hins ref eq_refl). unfold enriched in Hins.
    assert (<[k := ref]> (upto k) = upto k) as Hsame
      by (by apply list_insert_id).
    destruct (seed_report k (crawlId ref)) as [resp|e]; simpl;
      [|by rewrite <- Hins, Hsame].
    destruct (status resp =? 200)%Z; simpl; [|by rewrite <- Hins, Hsame].
    destruct (body resp); simpl; [done|by rewrite <- Hins, Hsame].
  - simpl. apply imap_ext. intros j x Hx.
    assert (j <> k) by congruence.
    destruct (decide (j < k)), (decide (j < S k)); try done; lia.
Qed.

Lemma effect_seq m :
  forall b, foldl (λ ws i, effect i ws) (upto b) (seq b m) = upto (b + m).
Proof.
  induction m as [|m IH]; intros b; simpl.
  - by rewrite Nat.add_0_r.
  - rewrite effect_upto, IH. f_equal. lia.
Qed.

Lemma upto_start : upto 0 = ws0.
Proof.
  apply list_eq. intros j. rewrite upto_lookup.
  destruct (ws0 !! j); [|done]. simpl. destruct (decide (j < 0)); [lia|done].
Qed.

Lemma upto_end : upto (length ws0) = imap (enriched seed_report) ws0.
Proof.
  apply imap_ext. intros j x Hx. apply lookup_lt_Some in Hx.
  destruct (decide (j < length ws0)); [done|lia].
Qed.

Lemma fetchWARCsCrawlInfo_state out :
  Js.gt c (Js.Finite 0) = true ->
  (fetchWARCsCrawlInfo seed_report c ws0 out).1.1
  = imap (enriched seed_report) ws0.
Proof.
  intros positive.
  destruct (fetchWARCsCrawlInfo_groups seed_report c positive ws0 out)
    as [Hl _].
  unfold fetchWARCsCrawlInfo in *.
  rewrite (crawlInfo_loop_fold (seq 0 (length ws0)) [] (ws0, out) []) by done.
  simpl in Hl. rewrite Hl.
  rewrite <- upto_start at 1. rewrite effect_seq. apply upto_end.
Qed.

End CrawlInfoEffect.

(** ** FetchEngine: the folder after the stage *)

Lemma pipeTo_present name chunks e (d : folder) content readable :
  d !! name = Some (File content readable) ->
  pipeTo name chunks e d
  = (<[name := File (content ++ chunks_content chunks) readable]> d,
     match e with
     | Some e => Js.Throws e
     | None => Js.Returns tt
     end).
Proof.
  revert d content. induction chunks as [|chunk chunks IH]; intros d content Hd.
  - simpl. rewrite string_app_nil_r, (insert_id _ _ _ Hd). by destruct e.
  - simpl. unfold appendFile. rewrite Hd.
    rewrite (IH _ (content ++ chunk)) by apply lookup_insert_eq.
    rewrite insert_insert_eq.
    change (chunks_content (chunk :: chunks))
      with (chunk ++ chunks_content chunks).
    by rewrite string_app_assoc.
Qed.

Lemma pipeTo_absent name chunk chunks e (d : folder) :
  d !! name = None ->
  pipeTo name (chunk :: chunks) e d
  = (<[name := File (chunks_content (chunk :: chunks)) true]> d,
     match e with
     | Some e => Js.Throws e
     | None => Js.Returns tt
     end).
Proof.
  intros Hd. simpl. unfold appendFile. rewrite Hd.
  rewrite (pipeTo_present _ _ _ _ chunk true) by apply lookup_insert_eq.
  by rewrite insert_insert_eq.
Qed.

Section DownloadEffect.

Variable download : nat -> option string -> Js.completion Download.
Variable c : Js.number.
Variable ws : list ArchiveItWARCReference.
Variable d0 : folder.

Let path (e : ArchiveItWARCReference) : string := Js.template (filename e).

(** What [fetchOne] does to the folder. *)
Let effect (i : nat) (d : folder) : folder :=
  (download_fetchOne download ws i (d, [])).1.1.

Lemma download_fetchOne_effect i d out :
  (download_fetchOne download ws i (d, out)).1.1 = effect i d.
Proof.
  unfold effect, download_fetchOne.
  destruct (ws !! i) as [ref|]; [|done].
  destruct (download i (downloadUrl ref)) as [resp|e]; [|done].
  destruct (negb (download_status resp =? 200)%Z); [done|].
  by destruct (pipeTo _ _ _ d) as [d1 [[]|err]].
Qed.

Lemma download_loop_fold range :
  forall group s calls,
    let r := download_loop download c ws range group s calls in
    s.1 = foldl (λ d i, effect i d) d0 (launched calls) ->
    r.1.1 = foldl (λ d i, effect i d) d0 (launched r.2).
Proof.
  induction range as [|i range IH]; intros group s calls; simpl; [done|].
  intros Hs.
  set (group1 := if Js.lt (Js.of_nat (length group)) c
                 then match ws !! i with
                      | Some ref => if negb (downloaded ref)
                                    then (group ++ [i])%list else group
                      | None => group
                      end
                 else group).
  destruct (Js.ge (Js.of_nat (length group1)) c
            || Nat.eqb i (length ws - 1)).
  - destruct s as [d out].
    pose proof (allSettled_fold (download_fetchOne download ws) effect
                  download_fetchOne_effect group1 d out) as Hg.
    destruct (allSettled (download_fetchOne download ws) group1 (d, out))
      as [[d1 out1] results].
    simpl in Hg, Hs. apply IH. simpl.
    by rewrite launched_snoc, foldl_app, <- Hs.
  - by apply IH.
Qed.

(** One download changes at most the file of its reference: it creates
    it, or appends to it. *)
Lemma effect_appends i ref (d : folder) :
  ws !! i = Some ref ->
  (forall k, k <> path ref -> effect i d !! k = d !! k)
  /\ match d !! path ref with
     | Some (File content readable) =>
         exists suffix,
           effect i d !! path ref = Some (File (content ++ suffix) readable)
     | Some Directory => effect i d !! path ref = Some Directory
     | None =>
         effect i d !! path ref = None
         \/ exists content, effect i d !! path ref = Some (File content true)
     end.
Proof.
  intros Hi. unfold effect, download_fetchOne. rewrite Hi. fold (path ref).
  assert ((forall k, k <> path ref -> d !! k = d !! k)
          /\ match d !! path ref with
             | Some (File content readable) =>
                 exists suffix,
                   d !! path ref = Some (File (content ++ suffix) readable)
             | Some Directory => d !! path ref = Some Directory
             | None =>
                 d !! path ref = None
                 \/ exists content, d !! path ref = Some (File content true)
             end) as Hsame.
  { split; [done|].
    destruct (d !! path ref) as [[content readable|]|] eqn:E; auto.
    exists "". by rewrite string_app_nil_r. }
  destruct (download i (downloadUrl ref)) as [resp|e]; [|done].
  destruct (negb (download_status resp =? 200)%Z); [done|].
  destruct (d !! path ref) as [[content readable|]|] eqn:E.
  - rewrite (pipeTo_present _ _ _ _ _ _ E).
    destruct (download_error resp); simpl;
      (split; [intros k Hk; by rewrite lookup_insert_ne|]);
      rewrite lookup_insert_eq; by eexists.
  - rewrite (pipeTo_directory _ _ _ _ E).
    destruct (download_chunks resp), (download_error resp); simpl; done.
  - destruct (download_chunks resp) as [|chunk chunks].
    + simpl. destruct (download_error resp); simpl; rewrite E; auto.
    + rewrite (pipeTo_absent _ _ _ _ _ E).
      destruct (download_error resp); simpl;
        (split; [intros k Hk; by rewrite lookup_insert_ne|]);
        rewrite lookup_insert_eq; right; by eexists.
Qed.

Lemma effect_nothing i (d : folder) : ws !! i = None -> effect i d = d.
Proof. intros Hi. unfold effect, download_fetchOne. by rewrite Hi. Qed.

(** Whatever the limit, the stage makes no directory. *)
Lemma fetchWARCs_no_new_directory out name :
  (fetchWARCs download c ws d0 out).1.1 !! name = Some Directory ->
  d0 !! name = Some Directory.
Proof.
  unfold fetchWARCs.
  rewrite (download_loop_fold (seq 0 (length ws)) [] (d0, out) []) by done.
  revert name.
  apply (foldl_invariant (λ d i, effect i d)
           (λ d : folder, forall name,
                d !! name = Some Directory -> d0 !! name = Some Directory));
    [|done].
  intros i d _ Hd name.
  destruct (ws !! i) as [ref|] eqn:Hi;
    [|rewrite effect_nothing by done; apply Hd].
  destruct (effect_appends i ref d Hi) as [Hother Hown].
  destruct (decide (name = path ref)) as [->|Hne];
    [|rewrite (Hother name Hne); apply Hd].
  pose proof (Hd (path ref)) as Hp.
  destruct (d !! path ref) as [[content readable|]|].
  - destruct Hown as [s ->]. done.
  - auto.
  - destruct Hown as [->|[content ->]]; done.
Qed.

Hypothesis positive : Js.gt c (Js.Finite 0) = true.

Lemma fetchWARCs_fold out :
  (fetchWARCs download c ws d0 out).1.1
  = foldl (λ d i, effect i d) d0
      (List.filter (pending ws) (seq 0 (length ws))).
Proof.
  destruct (fetchWARCs_groups download c positive ws d0 out) as [Hl _].
  unfold fetchWARCs in *.
  rewrite (download_loop_fold (seq 0 (length ws)) [] (d0, out) []) by done.
  simpl in Hl. by rewrite Hl.
Qed.

(** What holds of the folder all along the stage. *)
Let grown (d : folder) : Prop :=
  (forall name content readable,
      d0 !! name = Some (File content readable) ->
      exists suffix, d !! name = Some (File (content ++ suffix) readable))
  /\ (forall name, d !! name = Some Directory <-> d0 !! name = Some Directory)
  /\ (forall name,
        d !! name <> d0 !! name ->
        exists i ref,
          ws !! i = Some ref /\ downloaded ref = false /\ path ref = name).

Lemma grown_start : grown d0.
Proof.
  split; [|split]; [|done|done].
  intros name content readable H. exists "". by rewrite string_app_nil_r.
Qed.

Lemma grown_effect i d : pending ws i = true -> grown d -> grown (effect i d).
Proof.
  unfold pending. intros Hp (G1 & G2 & G3).
  destruct (ws !! i) as [ref|] eqn:Hi; [|done].
  apply negb_true_iff in Hp.
  destruct (effect_appends i ref d Hi) as [Hother Hown].
  split; [|split].
  - intros name content readable H0.
    destruct (G1 name content readable H0) as [s1 H1].
    destruct (decide (name = path ref)) as [->|Hne];
      [|rewrite (Hother name Hne); by eexists].
    rewrite H1 in Hown. destruct Hown as [s2 H2].
    exists (s1 ++ s2). by rewrite H2, string_app_assoc.
  - intros name. rewrite <- G2.
    destruct (decide (name = path ref)) as [->|Hne];
      [|by rewrite (Hother name Hne)].
    destruct (d !! path ref) as [[content readable|]|].
    + destruct Hown as [s2 ->]. done.
    + by rewrite Hown.
    + destruct Hown as [->|[content ->]]; done.
  - intros name Hn.
    destruct (decide (name = path ref)) as [->|Hne]; [by exists i, ref|].
    apply G3. by rewrite <- (Hother name Hne).
Qed.

Lemma fetchWARCs_grown out : grown (fetchWARCs download c ws d0 out).1.1.
Proof.
  rewrite fetchWARCs_fold.
  apply (foldl_invariant (λ d i, effect i d) grown); [|apply grown_start].
  intros i d Hi. apply grown_effect.
  apply list_elem_of_In, filter_In in Hi. tauto.
Qed.

(** The reference [i], one of those to download, whose file name no other
    reference has and is not in the folder; its download succeeds and
    delivers at least one chunk. *)
Variable i : nat.
Variable ref : ArchiveItWARCReference.
Variable response : Download.
Hypothesis at_i : ws !! i = Some ref.
Hypothesis not_downloaded : downloaded ref = false.
Hypothesis own_name :
  forall j ref', ws !! j = Some ref' -> path ref' = path ref -> j = i.
Hypothesis absent : d0 !! path ref = None.
Hypothesis answered : download i (downloadUrl ref) = Js.Returns response.
Hypothesis ok : download_status response = 200%Z.
Hypothesis some_chunk : download_chunks response <> [].

Let written : node := File (chunks_content (download_chunks response)) true.

Lemma effect_writes (d : folder) :
  d !! path ref = None -> effect i d !! path ref = Some written.
Proof.
  intros Hd. unfold effect, download_fetchOne. rewrite at_i, answered, ok.
  simpl. fold (path ref).
  destruct (download_chunks response) as [|chunk chunks] eqn:E; [done|].
  rewrite (pipeTo_absent _ _ _ _ _ Hd).
  unfold written. rewrite ?E.
  destruct (download_error response); simpl; apply lookup_insert_eq.
Qed.

Lemma effect_elsewhere j (d : folder) :
  j <> i -> effect j d !! path ref = d !! path ref.
Proof.
  intros Hj. destruct (ws !! j) as [ref'|] eqn:E.
  - destruct (effect_appends j ref' d E) as [Hother _].
    apply Hother. intros Heq. apply Hj. by eapply own_name.
  - by rewrite effect_nothing.
Qed.

Lemma foldl_effect_writes l :
  forall d : folder,
    NoDup l ->
    (i ∈ l -> d !! path ref = None) ->
    foldl (λ d i, effect i d) d l !! path ref
    = if decide (i ∈ l) then Some written else d !! path ref.
Proof.
  induction l as [|j l IH]; intros d Hnd Hd; simpl.
  - destruct (decide (i ∈ [])) as [H|_]; [by apply elem_of_nil in H|done].
  - apply NoDup_cons in Hnd as [Hj Hnd].
    destruct (decide (j = i)) as [->|Hne].
    + rewrite IH; [|done|done].
      destruct (decide (i ∈ l)); [done|].
      destruct (decide (i ∈ i :: l)) as [_|H]; [|exfalso; apply H; by left].
      apply effect_writes, Hd. by left.
    + rewrite IH; [|done|].
      * rewrite effect_elsewhere by done.
        destruct (decide (i ∈ l)) as [H|H], (decide (i ∈ j :: l)) as [H'|H'];
          try done.
        -- exfalso. apply H'. by right.
        -- exfalso. apply elem_of_cons in H' as [->|H']; done.
      * intros H. rewrite effect_elsewhere by done. apply Hd. by right.
Qed.

Lemma fetchWARCs_writes out :
  (fetchWARCs download c ws d0 out).1.1 !! path ref = Some written.
Proof.
  rewrite fetchWARCs_fold, foldl_effect_writes.
  - destruct (decide _) as [_|H]; [done|]. exfalso. apply H.
    apply list_elem_of_In, filter_In. split.
    + apply in_seq. apply lookup_lt_Some in at_i. lia.
    + unfold pending. by rewrite at_i, not_downloaded.
  - apply NoDup_ListNoDup, List.NoDup_filter, List.seq_NoDup.
  - done.
Qed.

End DownloadEffect.

Section DownloadedFile.

Variable sha1_hex : string -> string.
Hypothesis digest_nonempty : forall content, sha1_hex content <> "".

Let path (e : ArchiveItWARCReference) : string := Js.template (filename e).

(** The checksum pass on a readable file whose name one reference only
    has: that reference is flagged by the comparison of the digests, and
    the file is kept or removed with it. *)
Lemma checkWARCsHashes_at l :
  forall (d : folder) out l' d' out' i ref content,
    checkWARCsHashes sha1_hex l d out = (l', d', out', Js.Returns tt) ->
    l !! i = Some ref ->
    (forall j ref', l !! j = Some ref' -> path ref' = path ref -> j = i) ->
    d !! path ref = Some (File content true) ->
    if decide (remoteSHA1Hash ref = Some (sha1_hex content))
    then d' !! path ref = Some (File content true)
         /\ downloaded <$> l' !! i = Some true
    else d' !! path ref = None
         /\ downloaded <$> l' !! i = Some false.
Proof.
  induction l as [|e l IH]; intros d out l' d' out' i ref content; simpl;
    [by intros _ H|].
  destruct (check_entry sha1_hex e d out) as [[[e1 d1] out1] [[]|err]] eqn:E;
    [|done].
  destruct (checkWARCsHashes sha1_hex l d1 out1) as [[[l2 d2] out2] c2] eqn:R.
  intros [= <- <- _ ->] Hi Hown Hd.
  apply (check_entry_returns sha1_hex digest_nonempty) in E
    as (_ & Hother & _ & _ & H2 & H3).
  pose proof (checkWARCsHashes_frame sha1_hex digest_nonempty _ _ _ _ _ _ _ R)
    as [Rother _].
  destruct i as [|i].
  - injection Hi as ->. simpl.
    assert (d2 !! path ref = d1 !! path ref) as ->.
    { apply Rother. intros Hin. apply list_elem_of_In, in_map_iff in Hin
        as (e2 & Hp & He2).
      apply list_elem_of_In, list_elem_of_lookup in He2 as [j Hj].
      specialize (Hown (S j) e2 Hj Hp). lia. }
    destruct (decide (remoteSHA1Hash ref = Some (sha1_hex content))) as [Hm|Hm].
    + destruct (H3 content Hd (eq_sym Hm)) as [Hflag Hkept].
      split; [exact Hkept|by rewrite Hflag].
    + destruct (H2 content Hd) as [Hgone Hflag]; [congruence|].
      split; [exact Hgone|by rewrite Hflag].
  - simpl in Hi |- *.
    eapply IH; [exact R|exact Hi| |].
    + intros j ref' Hj Hp. specialize (Hown (S j) ref' Hj Hp). lia.
    + transitivity (d !! path ref); [|exact Hd].
      apply Hother. intros Hp.
      specialize (Hown 0 e eq_refl (eq_sym Hp)). lia.
Qed.

End DownloadedFile.

(** ** TitleResolver: what the stage writes *)

Section TitleEffect.

Variable collectionId : string.
Variable encodeURIComponent : string -> string.
Variable seed_metadata :
  nat * nat -> Z -> Js.completion (option (list (option string))).
Variable wayback : nat * nat -> string -> Js.completion ReplayResponse.
Variable c : Js.number.
Variable ws0 : list ArchiveItWARCReference.

Let fetchOne := title_fetchOne collectionId encodeURIComponent seed_metadata wayback.

(** [fetchOne] leaves the references as they are, or gives one crawled
    url a title that is a non-empty string. *)
Lemma title_fetchOne_writes p s :
  (fetchOne p s).1.1 = s.1
  \/ exists ref crawl t,
       s.1 !! p.1 = Some ref
       /\ crawledUrls ref !! p.2 = Some crawl
       /\ Js.truthy_str t = true
       /\ (fetchOne p s).1.1
          = <[p.1 := set_crawledUrls
                       (<[p.2 := set_title t crawl]> (crawledUrls ref)) ref]> s.1.
Proof.
  unfold fetchOne, title_fetchOne. destruct s as [ws out]. simpl.
  destruct (ws !! p.1) as [ref|] eqn:E1; [|by left].
  destruct (crawledUrls ref !! p.2) as [crawl|] eqn:E2; [|by left].
  destruct (title_from_metadata seed_metadata p crawl out) as [t o].
  destruct (negb (Js.truthy_str t)); simpl.
  - destruct (waybackUrl_of _ _ _) as [u|]; [|by left].
    destruct (title_from_wayback _ _ _ _ _) as [t2 o2].
    destruct (Js.truthy_str t2) eqn:T; [|by left]. simpl.
    right. by exists ref, crawl, t2.
  - destruct (Js.truthy_str t) eqn:T; [|by left]. simpl.
    right. by exists ref, crawl, t.
Qed.

(** What holds of the references all along the stage. *)
Let titled (ws : list ArchiveItWARCReference) : Prop :=
  without_titles <$> ws = without_titles <$> ws0
  /\ forall i ii ref crawl,
       ws0 !! i = Some ref ->
       crawledUrls ref !! ii = Some crawl ->
       exists ref' crawl',
         ws !! i = Some ref'
         /\ crawledUrls ref' !! ii = Some crawl'
         /\ (title crawl' = title crawl
             \/ Js.truthy_str (title crawl') = true).

Lemma titled_start : titled ws0.
Proof. split; [done|]. intros i ii ref crawl Hi Hii. exists ref, crawl. auto. Qed.

Lemma titled_fetchOne p s : titled s.1 -> titled (fetchOne p s).1.1.
Proof.
  intros [H1 H2].
  destruct (title_fetchOne_writes p s)
    as [->|(ref & crawl & t & Hi & Hii & Ht & ->)]; [done|].
  split.
  - rewrite list_fmap_insert, <- H1. apply list_insert_id.
    rewrite list_lookup_fmap, Hi. simpl. f_equal.
    unfold without_titles. simpl. unfold set_crawledUrls. simpl. f_equal.
    rewrite list_fmap_insert. symmetry. apply list_insert_id.
    by rewrite list_lookup_fmap, Hii.
  - intros j jj ref0 crawl0 Hj Hjj.
    destruct (H2 j jj ref0 crawl0 Hj Hjj) as (ref1 & crawl1 & G1 & G2 & G3).
    destruct (decide (j = p.1)) as [->|Hne].
    + rewrite Hi in G1. injection G1 as <-.
      eexists. rewrite list_lookup_insert_eq by (by eapply lookup_lt_Some).
      destruct (decide (jj = p.2)) as [->|Hne2].
      * exists (set_title t crawl). split; [done|]. simpl. split; [|by right].
        apply list_lookup_insert_eq. by eapply lookup_lt_Some.
      * exists crawl1. split; [done|]. simpl. split; [|done].
        by rewrite list_lookup_insert_ne.
    + exists ref1, crawl1. split; [|done].
      by rewrite list_lookup_insert_ne.
Qed.

Lemma title_loop_titled range :
  forall group s calls,
    titled s.1 ->
    titled (title_loop collectionId encodeURIComponent seed_metadata wayback c
              range group s calls).1.1.1.
Proof.
  induction range as [|i range IH]; intros group s calls Hs; simpl; [done|].
  destruct (s.1 !! i) as [ref|]; [|done].
  destruct (is_missing_urls_patch ref) as [[|]|e]; simpl; [by apply IH| |done].
  set (group1 := title_group_loop c i _ group).
  destruct (Js.ge (Js.of_nat (length group1)) c
            || Js.ge (Js.of_nat i) (Js.of_nat (length s.1))).
  - pose proof (allSettled_invariant fetchOne (λ x, titled x.1) group1 s
                  titled_fetchOne Hs) as H.
    fold fetchOne.
    destruct (allSettled fetchOne group1 s) as [[ws out] results].
    by apply IH.
  - by apply IH.
Qed.

End TitleEffect.

(** ** PageIndexBuilder: the pages list *)

Section PagesContent.

Variable D : string -> option string.

Lemma pages_loop_named l :
  forall pages,
    Forall (λ ref, filename ref <> None) l ->
    pages_loop D l pages
    = ((pages ++ concat (map (entries_of D) l))%list, Js.Returns tt).
Proof.
  induction l as [|ref l IH]; intros pages Hl; simpl.
  - by rewrite app_nil_r.
  - apply Forall_cons in Hl as [Hf Hl].
    unfold entries_of at 1. unfold is_missing_urls_patch.
    destruct (filename ref) as [f|]; [|done].
    destruct (Js.includes f MISSING_URLS_PATCH).
    + by rewrite IH.
    + rewrite IH by done. rewrite push_pages_spec. by rewrite <- app_assoc.
Qed.

Lemma includes_split_head s : Js.includes (Js.split_head "." s) "." = false.
Proof.
  induction s as [|a s IH]; [done|].
  change (Js.split_head "." (String a s))
    with (if Ascii.eqb a "." then "" else String a (Js.split_head "." s)).
  destruct (Ascii.eqb a ".") eqn:E; [done|].
  set (rest := Js.split_head "." s) in *.
  change (Js.includes (String a rest) ".")
    with ((if ascii_dec "." a then String.prefix "" rest else false)
          || Js.includes rest ".").
  rewrite IH. destruct (ascii_dec "." a) as [<-|_]; [|done].
  by rewrite Ascii.eqb_refl in E.
Qed.

Lemma formatTimestamp_shape ts r :
  formatTimestamp D ts = Some r ->
  exists s, r = s ++ "Z" /\ Js.includes s "." = false.
Proof.
  unfold formatTimestamp. destruct ts as [t|]; [|done].
  destruct (D _) as [iso|]; [|done].
  intros [= <-]. eexists. split; [done|]. apply includes_split_head.
Qed.

End PagesContent.

(** ** RateLimitedBatcher: the log of the rejections *)

Lemma of_nat_lt (a b : nat) : a < b -> Js.lt (Js.of_nat a) (Js.of_nat b) = true.
Proof.
  unfold Js.lt, Js.of_nat. intros H. apply negb_true_iff.
  apply not_true_iff_false. intros Hq. apply Qle_bool_iff in Hq.
  rewrite <- Zle_Qle in Hq. lia.
Qed.

Lemma of_nat_ge (a b : nat) : b <= a -> Js.ge (Js.of_nat a) (Js.of_nat b) = true.
Proof.
  unfold Js.ge, Js.of_nat. intros H. apply Qle_bool_iff.
  rewrite <- Zle_Qle. lia.
Qed.

Lemma log_to_keeps l a out x : x ∈ out -> x ∈ log_to l a out.
Proof. unfold log_to. intros H. apply elem_of_app. by left. Qed.

Lemma log_to_logs l a out : (l, a) ∈ log_to l a out.
Proof. unfold log_to. apply elem_of_app. right. by left. Qed.

Lemma log_rejected_keeps warning results :
  forall out x, x ∈ out -> x ∈ log_rejected warning results out.
Proof.
  induction results as [|[[]|e] results IH]; intros out x Hx; simpl; auto.
  apply IH. destruct warning; auto using log_to_keeps.
Qed.

Lemma log_rejected_traces warning results e :
  forall out,
    Js.Throws e ∈ results ->
    (LTrace, Caught e) ∈ log_rejected warning results out
    /\ match warning with
       | Some w => (LWarn, Msg w) ∈ log_rejected warning results out
       | None => True
       end.
Proof.
  induction results as [|r results IH]; intros out Hin;
    [by apply elem_of_nil in Hin|].
  apply elem_of_cons in Hin as [<-|Hin].
  - simpl. split.
    + apply log_rejected_keeps.
      destruct warning; [apply log_to_keeps|]; apply log_to_logs.
    + destruct warning; [|done].
      apply log_rejected_keeps, log_to_logs.
  - destruct r as [[]|e']; simpl; by apply IH.
Qed.

Lemma allSettled_keeps_log {I D : Type}
    (fetchOne : I -> D * logger -> (D * logger) * Js.completion unit) :
  (forall x s e, e ∈ s.2 -> e ∈ (fetchOne x s).1.2) ->
  forall group s e, e ∈ s.2 -> e ∈ (allSettled fetchOne group s).1.2.
Proof.
  intros Hkeep group s e He.
  apply (allSettled_invariant fetchOne (λ s', e ∈ s'.2)); [|done].
  intros x s' Hs'. by apply Hkeep.
Qed.

Lemma rejections_logged_nil {I : Type} warning out :
  rejections_logged (I := I) warning [] out.
Proof. intros call e H. by apply elem_of_nil in H. Qed.

(** A group is settled and its rejections are logged: the calls so far
    stay logged, and the new one is. *)
Lemma rejections_logged_snoc {I : Type} warning (calls : list (settled I))
    group results out out1 :
  rejections_logged warning calls out ->
  (forall x, x ∈ out -> x ∈ out1) ->
  rejections_logged warning (calls ++ [(group, results)])
    (log_rejected warning results out1).
Proof.
  intros Hcalls Hkeep call e Hcall He.
  apply elem_of_app in Hcall as [Hcall|Hcall].
  - destruct (Hcalls call e Hcall He) as [H1 H2]. split.
    + by apply log_rejected_keeps, Hkeep.
    + destruct warning; [|done]. by apply log_rejected_keeps, Hkeep.
  - apply list_elem_of_singleton in Hcall as ->. simpl in He.
    by apply log_rejected_traces.
Qed.

(** A member of a group whose own outcome is a rejection has it logged. *)
Lemma launched_rejection_logged {I : Type} (alone : I -> Js.completion unit)
    warning (calls : list (settled I)) out x e :
  own_results alone calls ->
  rejections_logged warning calls out ->
  x ∈ launched calls ->
  alone x = Js.Throws e ->
  (LTrace, Caught e) ∈ out
  /\ match warning with
     | Some w => (LWarn, Msg w) ∈ out
     | None => True
     end.
Proof.
  intros Hown Hlog Hx He. unfold launched in Hx.
  apply list_elem_of_In, in_concat in Hx as (group & Hgroup & Hx).
  apply list_elem_of_In, list_elem_of_fmap in Hgroup as (call & -> & Hcall).
  apply (Hlog call e Hcall).
  unfold own_results in Hown. rewrite Forall_forall in Hown.
  rewrite (Hown call Hcall), <- He.
  apply list_elem_of_fmap_2. by apply list_elem_of_In.
Qed.

Section CrawlInfoLog.

Variable seed_report :
  nat -> option Z -> Js.completion (Response (list SeedRecord)).
Variable c : Js.number.

Let warning : option string :=
  Some "A request to pull crawl info failed. Skipping.".

Lemma crawlInfo_fetchOne_keeps_log i s e :
  e ∈ s.2 -> e ∈ (crawlInfo_fetchOne seed_report i s).1.2.
Proof.
  unfold crawlInfo_fetchOne. destruct s as [ws out]. simpl. intros He.
  destruct (ws !! i) as [ref|]; [|done].
  destruct (seed_report i (crawlId ref)) as [resp|err];
    [|by apply log_to_keeps].
  destruct (negb (status resp =? 200)%Z); [by apply log_to_keeps|].
  destruct (body resp); by apply log_to_keeps.
Qed.

Lemma crawlInfo_loop_logged range :
  forall group s calls,
    rejections_logged warning calls s.2 ->
    let r := crawlInfo_loop seed_report c range group s calls in
    rejections_logged warning r.2 r.1.2.
Proof.
  induction range as [|i range IH]; intros group s calls Hlog; simpl; [done|].
  set (group1 := if Js.lt (Js.of_nat (length group)) c
                 then (group ++ [i])%list else group).
  destruct (Js.ge (Js.of_nat (length group1)) c
            || Nat.eqb i (length s.1 - 1)); [|by apply IH].
  pose proof (allSettled_keeps_log (crawlInfo_fetchOne seed_report)
                crawlInfo_fetchOne_keeps_log group1 s) as Hkeep.
  destruct (allSettled (crawlInfo_fetchOne seed_report) group1 s)
    as [[ws1 out1] results].
  apply IH. simpl.
  eapply rejections_logged_snoc; [exact Hlog|exact Hkeep].
Qed.

Lemma fetchWARCsCrawlInfo_logged ws out i e :
  Js.gt c (Js.Finite 0) = true ->
  i < length ws ->
  (crawlInfo_fetchOne seed_report i (ws, out)).2 = Js.Throws e ->
  let r := fetchWARCsCrawlInfo seed_report c ws out in
  (LTrace, Caught e) ∈ r.1.2
  /\ (LWarn, Msg "A request to pull crawl info failed. Skipping.") ∈ r.1.2.
Proof.
  intros positive Hi He.
  destruct (fetchWARCsCrawlInfo_groups seed_report c positive ws out)
    as [Hl Hown].
  apply (launched_rejection_logged
           (λ i, (crawlInfo_fetchOne seed_report i (ws, out)).2) warning
           (fetchWARCsCrawlInfo seed_report c ws out).2 _ i e Hown);
    [|simpl in Hl; rewrite Hl; apply elem_of_seq; lia|done].
  apply (crawlInfo_loop_logged (seq 0 (length ws)) [] (ws, out) []).
  apply rejections_logged_nil.
Qed.

End CrawlInfoLog.

Section DownloadLog.

Variable download : nat -> option string -> Js.completion Download.
Variable c : Js.number.
Variable ws : list ArchiveItWARCReference.

Lemma download_fetchOne_keeps_log i s e :
  e ∈ s.2 -> e ∈ (download_fetchOne download ws i s).1.2.
Proof.
  unfold download_fetchOne. destruct s as [d out]. simpl. intros He.
  destruct (ws !! i) as [ref|]; [|done].
  destruct (download i (downloadUrl ref)) as [resp|err];
    [|by apply log_to_keeps].
  destruct (negb (download_status resp =? 200)%Z); [by apply log_to_keeps|].
  destruct (pipeTo _ _ _ d) as [d1 [[]|err]]; by apply log_to_keeps.
Qed.

Lemma download_loop_logged range :
  forall group s calls,
    rejections_logged None calls s.2 ->
    let r := download_loop download c ws range group s calls in
    rejections_logged None r.2 r.1.2.
Proof.
  induction range as [|i range IH]; intros group s calls Hlog; simpl; [done|].
  set (group1 := if Js.lt (Js.of_nat (length group)) c
                 then match ws !! i with
                      | Some ref => if negb (downloaded ref)
                                    then (group ++ [i])%list else group
                      | None => group
                      end
                 else group).
  destruct (Js.ge (Js.of_nat (length group1)) c
            || Nat.eqb i (length ws - 1)); [|by apply IH].
  pose proof (allSettled_keeps_log (download_fetchOne download ws)
                download_fetchOne_keeps_log group1 s) as Hkeep.
  destruct (allSettled (download_fetchOne download ws) group1 s)
    as [[d1 out1] results].
  apply IH. simpl.
  eapply rejections_logged_snoc; [exact Hlog|exact Hkeep].
Qed.

Lemma fetchWARCs_logged d out i e :
  Js.gt c (Js.Finite 0) = true ->
  pending ws i = true ->
  (download_fetchOne download ws i (d, out)).2 = Js.Throws e ->
  (LTrace, Caught e) ∈ (fetchWARCs download c ws d out).1.2.
Proof.
  intros positive Hi He.
  destruct (fetchWARCs_groups download c positive ws d out) as [Hl Hown].
  apply (launched_rejection_logged
           (λ i, (download_fetchOne download ws i (d, out)).2) None
           (fetchWARCs download c ws d out).2 _ i e Hown); [| |done].
  - apply (download_loop_logged (seq 0 (length ws)) [] (d, out) []).
    apply rejections_logged_nil.
  - simpl in Hl. rewrite Hl. apply list_elem_of_In, filter_In.
    split; [|done]. apply in_seq. unfold pending in Hi.
    destruct (ws !! i) eqn:E; [|done]. apply lookup_lt_Some in E. lia.
Qed.

End DownloadLog.

(** ** TitleResolver: what the launched requests leave, and which are
       launched when every reference fills a group *)

Section TitleGroups.

Variable collectionId : string.
Variable encodeURIComponent : string -> string.
Variable seed_metadata :
  nat * nat -> Z -> Js.completion (option (list (option string))).
Variable wayback : nat * nat -> string -> Js.completion ReplayResponse.
Variable c : Js.number.
Variable ws0 : list ArchiveItWARCReference.

Let fetchOne := title_fetchOne collectionId encodeURIComponent seed_metadata wayback.

(** What [fetchOne] does to [this.WARCs]. *)
Let effect (p : nat * nat) (ws : list ArchiveItWARCReference)
  : list ArchiveItWARCReference :=
  (fetchOne p (ws, [])).1.1.

Lemma title_from_wayback_title p u t out out' :
  (title_from_wayback wayback p u t out).1
  = (title_from_wayback wayback p u t out').1.
Proof.
  unfold title_from_wayback.
  destruct (wayback p u) as [resp|err]; [|done].
  destruct (negb (replay_status resp =? 200)%Z); [done|].
  destruct (replay_content_type resp) as [ct|]; [|done].
  destruct (negb (Js.startsWith ct "text/html")); [done|].
  destruct (replay_title resp) as [text|err]; [|done].
  destruct (bool_decide (t = Some ARCHIVE_IT_WAYBACK_SENTINEL)); [done|].
  by destruct text.
Qed.

Lemma title_fetchOne_effect p ws out : (fetchOne p (ws, out)).1.1 = effect p ws.
Proof.
  unfold effect, fetchOne, title_fetchOne.
  destruct (ws !! p.1) as [ref|]; [|done].
  destruct (crawledUrls ref !! p.2) as [crawl|]; [|done].
  pose proof (title_from_metadata_title seed_metadata p crawl crawl out []
                eq_refl) as Hm.
  destruct (title_from_metadata seed_metadata p crawl out) as [t o],
           (title_from_metadata seed_metadata p crawl []) as [t' o'].
  simpl in Hm. subst t'.
  destruct (negb (Js.truthy_str t)); simpl.
  - destruct (waybackUrl_of _ _ crawl) as [u|]; [|done].
    pose proof (title_from_wayback_title p u t o o') as Hw.
    destruct (title_from_wayback wayback p u t o) as [t2 o2],
             (title_from_wayback wayback p u t o') as [t2' o2'].
    simpl in Hw. subst t2'. by destruct (Js.truthy_str t2).
  - by destruct (Js.truthy_str t).
Qed.

Lemma title_fetchOne_keeps_log p s e : e ∈ s.2 -> e ∈ (fetchOne p s).1.2.
Proof.
  unfold fetchOne, title_fetchOne. destruct s as [ws out]. simpl. intros He.
  destruct (ws !! p.1) as [ref|]; [|done].
  destruct (crawledUrls ref !! p.2) as [crawl|]; [|done].
  assert (e ∈ (title_from_metadata seed_metadata p crawl out).2) as Hm.
  { unfold title_from_metadata. destruct (seedId crawl) as [id|]; [|done].
    destruct (id =? 0)%Z; [done|].
    destruct (seed_metadata p id) as [[[|v l]|]|err]; simpl; try done.
    by do 2 apply log_to_keeps. }
  destruct (title_from_metadata seed_metadata p crawl out) as [t o].
  simpl in Hm.
  destruct (negb (Js.truthy_str t)); simpl.
  - destruct (waybackUrl_of _ _ crawl) as [u|]; [|done].
    assert (e ∈ (title_from_wayback wayback p u t o).2) as Hw.
    { unfold title_from_wayback.
      destruct (wayback p u) as [resp|err];
        [|by do 2 apply log_to_keeps].
      destruct (negb (replay_status resp =? 200)%Z); [done|].
      destruct (replay_content_type resp) as [ct|];
        [|by do 2 apply log_to_keeps].
      destruct (negb (Js.startsWith ct "text/html")); [done|].
      destruct (replay_title resp) as [text|err];
        [|by do 2 apply log_to_keeps].
      destruct (bool_decide (t = Some ARCHIVE_IT_WAYBACK_SENTINEL)); [done|].
      destruct text; [done|]. by do 2 apply log_to_keeps. }
    destruct (title_from_wayback wayback p u t o) as [t2 o2]. simpl in Hw.
    destruct (Js.truthy_str t2); by apply log_to_keeps.
  - destruct (Js.truthy_str t); by apply log_to_keeps.
Qed.

Lemma title_loop_fold range :
  forall group s calls,
    let r := title_loop collectionId encodeURIComponent seed_metadata wayback
               c range group s calls in
    s.1 = foldl (λ ws p, effect p ws) ws0 (launched calls) ->
    r.1.1.1 = foldl (λ ws p, effect p ws) ws0 (launched r.1.2).
Proof.
  induction range as [|i range IH]; intros group s calls; simpl; [done|].
  intros Hs.
  destruct (s.1 !! i) as [ref|]; [|done].
  destruct (is_missing_urls_patch ref) as [[|]|e]; simpl; [by apply IH| |done].
  set (group1 := title_group_loop c i _ group).
  destruct (Js.ge (Js.of_nat (length group1)) c
            || Js.ge (Js.of_nat i) (Js.of_nat (length s.1))); [|by apply IH].
  destruct s as [ws out].
  pose proof (allSettled_fold fetchOne effect title_fetchOne_effect
                group1 ws out) as Hg.
  fold fetchOne.
  destruct (allSettled fetchOne group1 (ws, out)) as [[ws1 out1] results].
  simpl in Hg, Hs. apply IH. simpl.
  by rewrite launched_snoc, foldl_app, <- Hs.
Qed.

Lemma title_loop_logged range :
  forall group s calls,
    rejections_logged None calls s.2 ->
    let r := title_loop collectionId encodeURIComponent seed_metadata wayback
               c range group s calls in
    rejections_logged None r.1.2 r.1.1.2.
Proof.
  induction range as [|i range IH]; intros group s calls Hlog; simpl; [done|].
  destruct (s.1 !! i) as [ref|]; [|done].
  destruct (is_missing_urls_patch ref) as [[|]|e]; simpl; [by apply IH| |done].
  set (group1 := title_group_loop c i _ group).
  destruct (Js.ge (Js.of_nat (length group1)) c
            || Js.ge (Js.of_nat i) (Js.of_nat (length s.1))); [|by apply IH].
  pose proof (allSettled_keeps_log fetchOne title_fetchOne_keeps_log
                group1 s) as Hkeep.
  fold fetchOne.
  destruct (allSettled fetchOne group1 s) as [[ws1 out1] results].
  apply IH. simpl.
  eapply rejections_logged_snoc; [exact Hlog|exact Hkeep].
Qed.

End TitleGroups.

Section TitleFullGroups.

Variable collectionId : string.
Variable encodeURIComponent : string -> string.
Variable seed_metadata :
  nat * nat -> Z -> Js.completion (option (list (option string))).
Variable wayback : nat * nat -> string -> Js.completion ReplayResponse.

(** The limit, a whole number greater than 0. *)
Variable n : nat.
Hypothesis positive : 0 < n.

Variable ws0 : list ArchiveItWARCReference.
Hypothesis full : Forall (fills n) ws0.

Let fetchOne := title_fetchOne collectionId encodeURIComponent seed_metadata wayback.

(** The inner loop, when the group can be filled: it takes what is
    missing and breaks. *)
Lemma title_group_loop_fills i range :
  forall group,
    length group < n ->
    n <= length group + length range ->
    title_group_loop (Js.of_nat n) i range group
    = (group ++ (pair i <$> take (n - length group) range))%list.
Proof.
  induction range as [|ii range IH]; intros group Hlt Hle; simpl in *; [lia|].
  rewrite (of_nat_lt _ _ Hlt). rewrite length_app. simpl.
  destruct (decide (n <= length group + 1)) as [Hfull|Hroom].
  - rewrite of_nat_ge by done.
    replace (n - length group) with 1 by lia. done.
  - rewrite of_nat_not_ge by lia.
    rewrite IH; rewrite ?length_app; simpl; try lia.
    replace (n - length group) with (S (n - (length group + 1))) by lia.
    simpl. by rewrite <- app_assoc.
Qed.

Lemma take_seq_le k : n <= k -> take n (seq 0 k) = seq 0 n.
Proof.
  intros H. apply list_eq. intros j.
  destruct (decide (j < n)) as [Hj|Hj].
  - rewrite lookup_take_lt by done.
    rewrite !lookup_seq_lt by lia. done.
  - rewrite lookup_take_ge by lia. by rewrite lookup_seq_ge by lia.
Qed.

(** What is launched for the reference at position [i]. *)
Let group_of (i : nat) : list (nat * nat) :=
  match ws0 !! i with
  | Some ref => first_urls n i ref
  | None => []
  end.

Lemma title_loop_full m :
  forall a s calls,
    a + m = length ws0 ->
    skeleton s.1 = skeleton ws0 ->
    let r := title_loop collectionId encodeURIComponent seed_metadata wayback
               (Js.of_nat n) (seq a m) [] s calls in
    launched r.1.2 = (launched calls ++ concat (group_of <$> seq a m))%list
    /\ r.2 = Js.Returns tt.
Proof.
  induction m as [|m IH]; intros a s calls Hlen Hs; simpl.
  - by rewrite app_nil_r.
  - pose proof (skeleton_lookup _ _ a Hs) as Ha.
    destruct (ws0 !! a) as [ref0|] eqn:E0;
      [|apply lookup_ge_None in E0; lia].
    destruct (s.1 !! a) as [ref|]; [|done].
    destruct Ha as [Hf Hcr].
    assert (is_missing_urls_patch ref = is_missing_urls_patch ref0) as Hp
      by (unfold is_missing_urls_patch; by rewrite Hf).
    assert (length (crawledUrls ref) = length (crawledUrls ref0)) as Hk.
    { apply (f_equal length) in Hcr. by rewrite !length_fmap in Hcr. }
    rewrite Forall_forall in full.
    pose proof (full ref0 (list_elem_of_lookup_2 _ _ _ E0)) as Hfull.
    unfold group_of at 1. rewrite E0. unfold first_urls, fills in *.
    rewrite Hp.
    destruct (is_missing_urls_patch ref0) as [[|]|e]; simpl; [|  |done].
    + destruct (IH (S a) s calls) as [IH1 IH2]; [lia|done|]. done.
    + rewrite title_group_loop_fills; simpl;
        rewrite ?length_seq; [|done|lia].
      rewrite Nat.sub_0_r, take_seq_le by lia.
      rewrite length_fmap, length_seq, of_nat_ge by done. simpl.
      pose proof (allSettled_invariant fetchOne
                    (λ x, skeleton x.1 = skeleton ws0)
                    (pair a <$> seq 0 n) s) as Hinv.
      fold fetchOne.
      destruct (allSettled fetchOne (pair a <$> seq 0 n) s)
        as [[ws1 out1] results].
      destruct (IH (S a) (ws1, log_rejected None results out1)
                  (calls ++ [(pair a <$> seq 0 n, results)])%list)
        as [IH1 IH2]; [lia| |].
      * apply Hinv; [|done]. intros x y Hy.
        unfold fetchOne. by rewrite title_fetchOne_skeleton.
      * split; [|done]. rewrite IH1, launched_snoc. by rewrite <- app_assoc.
Qed.

Lemma fetchCrawledUrlsTitle_full out :
  let r := fetchCrawledUrlsTitle collectionId encodeURIComponent
             seed_metadata wayback (Js.of_nat n) ws0 out in
  launched r.1.2 = concat (imap (first_urls n) ws0)
  /\ r.2 = Js.Returns tt.
Proof.
  unfold fetchCrawledUrlsTitle.
  destruct (title_loop_full (length ws0) 0 (ws0, out) []) as [H1 H2];
    [done|done|].
  split; [|done]. rewrite H1. simpl. f_equal.
  apply list_eq. intros j. rewrite list_lookup_fmap, list_lookup_imap.
  unfold group_of.
  destruct (ws0 !! j) as [ref|] eqn:E.
  - rewrite lookup_seq_lt by (by eapply lookup_lt_Some). simpl.
    by rewrite E.
  - rewrite lookup_seq_ge; [reflexivity|]. by apply lookup_ge_None.
Qed.

End TitleFullGroups.

(** ** Batched stages: fault isolation and coverage *)

(** C8. In the three batched stages a failing item takes nothing from the
    others. Every result a [Promise.allSettled] call records for a member of
    its group is the outcome that member has on its own, whatever its
    siblings or the earlier groups did, and the reason of every rejection is
    traced in the log (with the warning of the stage in crawl-info
    enrichment). With a limit greater than 0, crawl-info enrichment launches
    every reference once, in order, and leaves each reference with the seeds
    of its own report, or as it was when its own request failed; the
    download stage launches every reference with [downloaded === false], the
    folder is what these downloads leave one after the other, and a
    reference whose own download succeeds has its file written in full. In
    title resolution the references are what the launched requests leave one
    after the other, the groups launched and the completion of the stage are
    the same whatever the requests answer, and when every reference fills a
    group (limit [n], at least [n] crawled urls) a group of its first [n]
    crawled urls is launched for every reference that is no
    [MISSING_URLS_PATCH] batch, one group after the other. *)
Theorem batch_fault_isolation :
  (forall seed_report c ws out,
      Js.gt c (Js.Finite 0) = true ->
      let r := fetchWARCsCrawlInfo seed_report c ws out in
      let alone i := (crawlInfo_fetchOne seed_report i (ws, out)).2 in
      launched r.2 = seq 0 (length ws)
      /\ own_results alone r.2
      /\ r.1.1 = imap (enriched seed_report) ws
      /\ (forall i e,
            i < length ws -> alone i = Js.Throws e ->
            (LTrace, Caught e) ∈ r.1.2
            /\ (LWarn, Msg "A request to pull crawl info failed. Skipping.")
               ∈ r.1.2))
  /\ (forall download c ws d out,
         Js.gt c (Js.Finite 0) = true ->
         let r := fetchWARCs download c ws d out in
         let alone i := (download_fetchOne download ws i (d, out)).2 in
         launched r.2 = List.filter (pending ws) (seq 0 (length ws))
         /\ own_results alone r.2
         /\ r.1.1
            = foldl (λ d i, (download_fetchOne download ws i (d, [])).1.1) d
                (launched r.2)
         /\ (forall i ref response,
               ws !! i = Some ref ->
               downloaded ref = false ->
               (forall j ref',
                   ws !! j = Some ref' ->
                   Js.template (filename ref') = Js.template (filename ref) ->
                   j = i) ->
               d !! Js.template (filename ref) = None ->
               download i (downloadUrl ref) = Js.Returns response ->
               download_status response = 200%Z ->
               download_chunks response <> [] ->
               r.1.1 !! Js.template (filename ref)
               = Some (File (chunks_content (download_chunks response)) true))
         /\ (forall i e,
               pending ws i = true -> alone i = Js.Throws e ->
               (LTrace, Caught e) ∈ r.1.2))
  /\ (forall id enc meta way c ws out,
         let r := fetchCrawledUrlsTitle id enc meta way c ws out in
         let alone p := (title_fetchOne id enc meta way p (ws, out)).2 in
         own_results alone r.1.2
         /\ (forall meta' way' out',
               let r' := fetchCrawledUrlsTitle id enc meta' way' c ws out' in
               fst <$> r.1.2 = fst <$> r'.1.2 /\ r.2 = r'.2)
         /\ r.1.1.1
            = foldl (λ ws p, (title_fetchOne id enc meta way p (ws, [])).1.1) ws
                (launched r.1.2)
         /\ (forall p e,
               p ∈ launched r.1.2 -> alone p = Js.Throws e ->
               (LTrace, Caught e) ∈ r.1.1.2))
  /\ (forall id enc meta way n ws out,
         0 < n ->
         Forall (fills n) ws ->
         let r := fetchCrawledUrlsTitle id enc meta way (Js.of_nat n) ws out in
         launched r.1.2 = concat (imap (first_urls n) ws)
         /\ r.2 = Js.Returns tt).
Proof.
  split; [|split; [|split]].
  - intros seed_report c ws out Hc r alone.
    destruct (fetchWARCsCrawlInfo_groups seed_report c Hc ws out) as [H1 H2].
    split; [exact H1|]. split; [exact H2|]. split.
    + apply (fetchWARCsCrawlInfo_state seed_report c ws out Hc).
    + intros i e Hi He.
      apply (fetchWARCsCrawlInfo_logged seed_report c ws out i e Hc Hi He).
  - intros download c ws d out Hc r alone.
    destruct (fetchWARCs_groups download c Hc ws d out) as [H1 H2].
    split; [exact H1|]. split; [exact H2|]. split; [|split].
    + apply (download_loop_fold download c ws d (seq 0 (length ws)) []
               (d, out) []). done.
    + intros i ref response Hi Hnot Hown Habsent Hanswer Hok Hchunk.
      apply (fetchWARCs_writes download c ws d Hc i ref response Hi Hnot
               Hown Habsent Hanswer Hok Hchunk out).
    + intros i e Hi He.
      apply (fetchWARCs_logged download c ws d out i e Hc Hi He).
  - intros id enc meta way c ws out r alone. split; [|split; [|split]].
    + apply (title_loop_own id enc meta way c ws out); [done|constructor].
    + intros meta' way' out'.
      by apply (title_loop_same_groups id enc meta way id enc meta' way' c).
    + apply (title_loop_fold id enc meta way c ws (seq 0 (length ws)) []
               (ws, out) []). done.
    + intros p e Hp He.
      assert (own_results alone r.1.2) as Hown
        by (apply (title_loop_own id enc meta way c ws out); [done|constructor]).
      apply (launched_rejection_logged alone None r.1.2 r.1.1.2 p e Hown);
        [|done|done].
      apply (title_loop_logged id enc meta way c (seq 0 (length ws)) []
               (ws, out) []).
      apply rejections_logged_nil.
  - intros id enc meta way n ws out Hn Hfull.
    apply (fetchCrawledUrlsTitle_full id enc meta way n Hn ws Hfull out).
Qed.

Lemma batch_fault_isolation_witness :
  (let r := fetchWARCsCrawlInfo Sample.report (Js.Finite 2) Sample.three [] in
   let alone i := (crawlInfo_fetchOne Sample.report i (Sample.three, [])).2 in
   launched r.2 = seq 0 (length Sample.three)
   /\ own_results alone r.2
   /\ r.1.1 = imap (enriched Sample.report) Sample.three
   /\ (forall i e,
         i < length Sample.three -> alone i = Js.Throws e ->
         (LTrace, Caught e) ∈ r.1.2
         /\ (LWarn, Msg "A request to pull crawl info failed. Skipping.")
            ∈ r.1.2))
  /\ (let r := fetchWARCs Sample.download_flaky (Js.Finite 2) Sample.three ∅ [] in
      launched r.2 = [0; 1; 2]
      /\ r.1.1 !! "c.warc.gz" = Some (File "abc" true)
      /\ (LTrace, Caught (Js.Error "ECONNRESET")) ∈ r.1.2)
  /\ (let r := fetchCrawledUrlsTitle "12345" Host.encodeURIComponent
                 Sample.no_metadata Sample.replay_down (Js.of_nat 2)
                 [Sample.triple; Sample.triple] [] in
      launched r.1.2 = [(0, 0); (0, 1); (1, 0); (1, 1)]
      /\ r.2 = Js.Returns tt).
Proof.
  split; [|split].
  - apply (proj1 batch_fault_isolation Sample.report (Js.Finite 2)
             Sample.three []).
    reflexivity.
  - destruct (proj1 (proj2 batch_fault_isolation) Sample.download_flaky
                (Js.Finite 2) Sample.three ∅ [] eq_refl)
      as (Hlaunched & _ & _ & Hfile & Hlog).
    split; [exact Hlaunched|]. split.
    + apply (Hfile 2 (Sample.ref "c.warc.gz" [])
               {| download_status := 200; download_chunks := ["a"; "bc"];
                  download_error := None |}); try reflexivity; [|done].
      intros [|[|[|j]]] ref'; simpl; intros [= <-]; done.
    + apply (Hlog 1 (Js.Error "ECONNRESET")); reflexivity.
  - apply (proj2 (proj2 (proj2 batch_fault_isolation)) "12345"
             Host.encodeURIComponent Sample.no_metadata Sample.replay_down 2
             [Sample.triple; Sample.triple] []); [lia|].
    repeat constructor.
Defined.

(** The second of three references fails: it is recorded as rejected next to
    its sibling, the sibling and the reference of the next group have their
    crawled url, and the failure is in the log. *)
Example fetchWARCsCrawlInfo_isolates_failure :
  let r := fetchWARCsCrawlInfo Sample.report (Js.Finite 2) Sample.three [] in
  r.2 = [([0; 1], [Js.Returns tt; Js.Throws (Js.Error "ECONNRESET")]);
         ([2], [Js.Returns tt])]
  /\ length <$> (crawledUrls <$> r.1.1) = [1; 0; 1]
  /\ r.1.2
     = [(LInfo, Msg "a.warc.gz: pulling crawl info.");
        (LInfo, Msg "b.warc.gz: pulling crawl info.");
        (LTrace, Caught (Js.Error "ECONNRESET"));
        (LWarn, Msg "A request to pull crawl info failed. Skipping.");
        (LInfo, Msg "c.warc.gz: pulling crawl info.")].
Proof. vm_compute. repeat split; reflexivity. Qed.

(** The second of three downloads fails: the files of its sibling and of
    the next group are written in full, and the failure is in the log. *)
Example fetchWARCs_isolates_failure :
  let r := fetchWARCs Sample.download_flaky (Js.Finite 2) Sample.three ∅ [] in
  r.2 = [([0; 1], [Js.Returns tt; Js.Throws (Js.Error "ECONNRESET")]);
         ([2], [Js.Returns tt])]
  /\ r.1.1 = {[ "a.warc.gz" := File "abc" true; "c.warc.gz" := File "abc" true ]}
  /\ r.1.2
     = [(LInfo, Msg "a.warc.gz: downloading ...");
        (LInfo, Msg "b.warc.gz: downloading ...");
        (LTrace, Caught (Js.Error "ECONNRESET"));
        (LInfo, Msg "c.warc.gz: downloading ...")].
Proof. vm_compute. repeat split; reflexivity. Qed.

(** Two references of three crawled urls and a limit of 2, the replay
    endpoint down: a group of two is launched for each reference, the second
    after the first; no title is found. *)
Example fetchCrawledUrlsTitle_isolates_failure :
  let r := fetchCrawledUrlsTitle "12345" Host.encodeURIComponent
             Sample.no_metadata Sample.replay_down (Js.Finite 2)
             [Sample.triple; Sample.triple] [] in
  r.1.2 = [([(0, 0); (0, 1)], [Js.Returns tt; Js.Returns tt]);
            ([(1, 0); (1, 1)], [Js.Returns tt; Js.Returns tt])]
  /\ r.2 = Js.Returns tt
  /\ r.1.1.1 = [Sample.triple; Sample.triple].
Proof. vm_compute. repeat split; reflexivity. Qed.

(** ** TitleResolver: coverage *)

(** C5. On the end-to-end scenario of the specification (one reference, one
    crawled url) with the default limit of 50, [fetchCrawledUrlsTitle]
    launches no request at all: the only group is never full and the loop
    ends without flushing it. The title stays [null]. *)
Theorem fetchCrawledUrlsTitle_skips_scenario :
  fetchCrawledUrlsTitle "12345" Host.encodeURIComponent Sample.metadata
    Sample.placeholder_replay DEFAULT_CONCURRENCY [Sample.scenario] []
  = (([Sample.scenario], []), [], Js.Returns tt).
Proof. reflexivity. Qed.

(** When a group fills up in the middle of a reference, the rest of its
    crawled urls is dropped: of three, the third is never launched. *)
Example fetchCrawledUrlsTitle_drops_rest :
  launched (fetchCrawledUrlsTitle "12345" Host.encodeURIComponent
              Sample.no_metadata Sample.placeholder_replay (Js.Finite 2)
              [Sample.triple] []).1.2
  = [(0, 0); (0, 1)].
Proof. reflexivity. Qed.

Section SmallCollections.

Variable collectionId : string.
Variable encodeURIComponent : string -> string.
Variable seed_metadata :
  nat * nat -> Z -> Js.completion (option (list (option string))).
Variable wayback : nat * nat -> string -> Js.completion ReplayResponse.
Variable c : Js.number.

Lemma title_group_loop_room i range :
  forall group,
    Js.lt (Js.of_nat (length group + length range)) c = true ->
    title_group_loop c i range group = (group ++ (pair i <$> range))%list.
Proof.
  induction range as [|ii range IH]; intros group Hlt; simpl.
  - by rewrite app_nil_r.
  - rewrite (of_nat_lt_mono (length group) (length group + S (length range)) c)
      by (done || lia).
    assert (Js.lt (Js.of_nat (length (group ++ [(i, ii)])%list + length range)) c
            = true) as Hlt1.
    { rewrite length_app. simpl.
      by replace (length group + 1 + length range)
        with (length group + S (length range)) by lia. }
    rewrite (of_nat_lt_not_ge (length (group ++ [(i, ii)])%list) c).
    + rewrite (IH _ Hlt1). by rewrite <- app_assoc.
    + eapply of_nat_lt_mono; [|exact Hlt1]. lia.
Qed.

Lemma title_loop_room ws out calls n :
  forall a group,
    a + n = length ws ->
    Js.lt (Js.of_nat (length group + candidates (drop a ws))) c = true ->
    (title_loop collectionId encodeURIComponent seed_metadata wayback c
       (seq a n) group (ws, out) calls).1
    = ((ws, out), calls).
Proof.
  induction n as [|n IH]; intros a group Hlen Hlt; simpl; [done|].
  destruct (ws !! a) as [ref|] eqn:E;
    [|apply lookup_ge_None in E; lia].
  rewrite (drop_S _ _ _ E) in Hlt. unfold candidates in Hlt. simpl in Hlt.
  fold (candidates (drop (S a) ws)) in Hlt.
  destruct (is_missing_urls_patch ref) as [[|]|e]; simpl; [| |done].
  - apply IH; [lia|done].
  - rewrite title_group_loop_room.
    2:{ rewrite length_seq. eapply of_nat_lt_mono; [|exact Hlt]. lia. }
    assert (length (group ++ (pair a <$> seq 0 (length (crawledUrls ref))))%list
            = length group + length (crawledUrls ref)) as Hg
      by (by rewrite length_app, length_fmap, length_seq).
    rewrite (of_nat_lt_not_ge _ c).
    2:{ rewrite Hg. eapply of_nat_lt_mono; [|exact Hlt]. lia. }
    rewrite of_nat_not_ge by lia. simpl.
    apply IH; [lia|]. rewrite Hg.
    by replace (length group + length (crawledUrls ref)
                + candidates (drop (S a) ws))
      with (length group
            + (length (crawledUrls ref) + candidates (drop (S a) ws))) by lia.
Qed.

(** A collection with fewer candidate pages than the limit: no title
    request is launched, the references are left as they were. *)
Lemma fetchCrawledUrlsTitle_small_collection ws out :
  Js.lt (Js.of_nat (candidates ws)) c = true ->
  (fetchCrawledUrlsTitle collectionId encodeURIComponent seed_metadata
     wayback c ws out).1
  = ((ws, out), []).
Proof.
  intros H. unfold fetchCrawledUrlsTitle.
  by apply title_loop_room.
Qed.

End SmallCollections.

(** ** TitleResolver: the placeholder title *)

(** The test [title === 'Archive-it Wayback'] reads the variable the
    branch is about to assign: it is falsy there, and the test never
    holds. *)
Lemma sentinel_test_dead (title : option string) :
  Js.truthy_str title = false ->
  bool_decide (title = Some ARCHIVE_IT_WAYBACK_SENTINEL) = false.
Proof.
  intros H. apply bool_decide_eq_false. intros ->. done.
Qed.

(** Whatever the [<title>] of a successful HTML response says is taken as
    the title, the placeholder included. *)
Lemma title_from_wayback_takes_text way p u title out response content_type text :
  Js.truthy_str title = false ->
  way p u = Js.Returns response ->
  replay_status response = 200%Z ->
  replay_content_type response = Some content_type ->
  Js.startsWith content_type "text/html" = true ->
  replay_title response = Js.Returns (Some text) ->
  title_from_wayback way p u title out = (Some text, out).
Proof.
  intros Ht Hw Hs Hc Hh Hx. unfold title_from_wayback.
  rewrite Hw, Hs, Hc, Hh, Hx. simpl. by rewrite sentinel_test_dead.
Qed.

(** C6. A crawled url without seed meta data whose replay page is a
    successful HTML response titled [Archive-it Wayback]: [fetchOne] stores
    the placeholder as the title. *)
Theorem title_fetchOne_keeps_sentinel :
  title_fetchOne "12345" Host.encodeURIComponent Sample.no_metadata
    Sample.placeholder_replay (0, 0) ([Sample.scenario], [])
  = (([set_crawledUrls
         [{| seedId := Some 1%Z; url := Some "https://example.com";
             timestamp := Some "2021-04-30 20:04:57.635000";
             title := Some "Archive-it Wayback" |}] Sample.scenario],
      [(LInfo, Msg "Title found for https://example.com: Archive-it Wayback")]),
     Js.Returns tt).
Proof. reflexivity. Qed.

(** ** PipelineOrchestrator: a run that reaches the report *)

Section ProcessRuns.

Variable N : Js.number -> string.
Variable M : Stages.

(** What the stages keep of the world, the log apart. *)
Variable sound : World -> Prop.
Hypothesis sound_say : forall l a w, sound w -> sound (say l a w).

(** A stage that returns on a sound world, and leaves one. *)
Let returning (m : method) : Prop :=
  forall w, sound w -> sound (m w).1 /\ (m w).2 = Js.Returns tt.

Hypothesis checkCredentials_passes : returning (run_checkCredentials M).
Hypothesis createCollectionFolder_passes : returning (run_createCollectionFolder M).
Hypothesis fetchCollectionInfo_passes : returning (run_fetchCollectionInfo M).
Hypothesis fetchWARCsList_passes : returning (run_fetchWARCsList M).
Hypothesis fetchWARCsCrawlInfo_passes : returning (run_fetchWARCsCrawlInfo M).
Hypothesis deleteLooseWARCs_passes : returning (run_deleteLooseWARCs M).
Hypothesis checkWARCsHashes_passes : returning (run_checkWARCsHashes M).
Hypothesis fetchWARCs_passes : returning (run_fetchWARCs M).
Hypothesis generatePagesList_passes : returning (run_generatePagesList M).
Hypothesis generateWACZ_passes : returning (run_generateWACZ M).

(** Title resolution may reject. *)
Hypothesis fetchCrawledUrlsTitle_sound :
  forall w, sound w -> sound (run_fetchCrawledUrlsTitle M w).1.

Ltac through stage H :=
  match goal with
  | |- context [stage M ?w] =>
      let Hs := fresh "Hs" in
      let Hc := fresh "Hc" in
      destruct (H w) as [Hs Hc]; [by repeat apply sound_say|];
      destruct (stage M w) as [? ?]; simpl in Hs, Hc; subst; simpl
  end.

Lemma process_runs w : sound w -> (process N M w).2 = Js.Undefined.
Proof.
  intros Hw. unfold process.
  through run_checkCredentials checkCredentials_passes.
  through run_createCollectionFolder createCollectionFolder_passes.
  through run_fetchCollectionInfo fetchCollectionInfo_passes.
  through run_fetchWARCsList fetchWARCsList_passes.
  through run_fetchWARCsCrawlInfo fetchWARCsCrawlInfo_passes.
  match goal with
  | |- context [run_fetchCrawledUrlsTitle M ?w] =>
      assert (sound w) as Hpre by (by repeat apply sound_say);
      pose proof (fetchCrawledUrlsTitle_sound w Hpre) as Ht;
      destruct (run_fetchCrawledUrlsTitle M w) as [wt [[]|err]];
      simpl in Ht
  end.
  - through run_deleteLooseWARCs deleteLooseWARCs_passes.
    through run_checkWARCsHashes checkWARCsHashes_passes.
    through run_fetchWARCs fetchWARCs_passes.
    through run_checkWARCsHashes checkWARCsHashes_passes.
    through run_generatePagesList generatePagesList_passes.
    through run_generateWACZ generateWACZ_passes.
    done.
  - through run_deleteLooseWARCs deleteLooseWARCs_passes.
    through run_checkWARCsHashes checkWARCsHashes_passes.
    through run_fetchWARCs fetchWARCs_passes.
    through run_checkWARCsHashes checkWARCsHashes_passes.
    through run_generatePagesList generatePagesList_passes.
    through run_generateWACZ generateWACZ_passes.
    done.
Qed.

End ProcessRuns.

(** ** The methods of the class on a folder without directory and references
       with file names *)

Lemma well_listed_say l a w : well_listed w -> well_listed (say l a w).
Proof. unfold well_listed, say, logs. by destruct w as [[] d]. Qed.

Lemma WARCs_put ws out d w : WARCs (this (put ws out d w)) = ws.
Proof. unfold put. by destruct w as [[] d0]. Qed.

Lemma disk_put ws out d w : disk (put ws out d w) = d.
Proof. done. Qed.

Lemma log_put ws out d w : log (this (put ws out d w)) = out.
Proof. unfold put. by destruct w as [[] d0]. Qed.

Lemma named_names (ws ws' : list ArchiveItWARCReference) :
  filename <$> ws' = filename <$> ws ->
  Forall (λ ref, filename ref <> None) ws ->
  Forall (λ ref, filename ref <> None) ws'.
Proof.
  intros H Hws.
  apply (Forall_fmap filename (λ f, f <> None)) in Hws.
  apply (Forall_fmap filename (λ f : option string, f <> None)).
  by rewrite H.
Qed.

Lemma names_identity (ws ws' : list ArchiveItWARCReference) :
  identity <$> ws' = identity <$> ws -> filename <$> ws' = filename <$> ws.
Proof.
  intros H.
  apply (f_equal (fmap (λ t : option string * option string * option string
                              * option Z * list ArchiveItCrawledUrl,
                          t.1.1.1.2))) in H.
  by rewrite <- !list_fmap_compose in H.
Qed.

Lemma names_without_titles (ws ws' : list ArchiveItWARCReference) :
  without_titles <$> ws' = without_titles <$> ws ->
  filename <$> ws' = filename <$> ws.
Proof.
  intros H. apply (f_equal (fmap filename)) in H.
  by rewrite <- !list_fmap_compose in H.
Qed.

Section ClassStages.

Variable Date_toISOString : string -> option string.
Variable sha1_hex : string -> string.
Variable Number_toString : Js.number -> string.
Variable encodeURIComponent : string -> string.
Variable seed_report :
  nat -> option Z -> Js.completion (Response (list SeedRecord)).
Variable seed_metadata :
  nat * nat -> Z -> Js.completion (option (list (option string))).
Variable wayback : nat * nat -> string -> Js.completion ReplayResponse.
Variable download : nat -> option string -> Js.completion Download.

Lemma method_fetchWARCsCrawlInfo_runs w :
  well_listed w ->
  well_listed (method_fetchWARCsCrawlInfo seed_report w).1
  /\ (method_fetchWARCsCrawlInfo seed_report w).2 = Js.Returns tt.
Proof.
  intros [Hd Hn]. unfold method_fetchWARCsCrawlInfo.
  pose proof (fetchWARCsCrawlInfo_names seed_report
                (concurrency (this w)) (WARCs (this w)) (log (this w))) as H.
  destruct (fetchWARCsCrawlInfo _ _ _ _) as [[ws out] calls]. simpl in *.
  split; [|done]. split; [done|]. rewrite WARCs_put.
  by eapply named_names.
Qed.

Lemma method_fetchCrawledUrlsTitle_runs w :
  well_listed w ->
  well_listed (method_fetchCrawledUrlsTitle Number_toString
                 encodeURIComponent seed_metadata wayback w).1.
Proof.
  intros [Hd Hn]. unfold method_fetchCrawledUrlsTitle, fetchCrawledUrlsTitle.
  set (id := match collectionId (this w) with
             | Some n => Number_toString n
             | None => "undefined"
             end).
  pose proof (title_loop_titled id encodeURIComponent seed_metadata wayback
                (concurrency (this w)) (WARCs (this w))
                (seq 0 (length (WARCs (this w)))) []
                (WARCs (this w), log (this w)) []
                (titled_start (WARCs (this w)))) as H.
  destruct (title_loop _ _ _ _ _ _ _ _ _) as [[[ws out] calls] c].
  simpl in *. destruct H as [H _].
  split; [done|]. rewrite WARCs_put.
  eapply named_names; [|exact Hn]. by apply names_without_titles.
Qed.

Lemma method_deleteLooseWARCs_runs w :
  well_listed w ->
  well_listed (method_deleteLooseWARCs w).1
  /\ (method_deleteLooseWARCs w).2 = Js.Returns tt.
Proof.
  intros [Hd Hn]. unfold method_deleteLooseWARCs.
  assert ((deleteLooseWARCs (WARCs (this w)) (disk w) (log (this w))).2
          = Js.Returns tt) as Hc.
  { unfold deleteLooseWARCs. apply deleteLoose_loop_completion;
      [apply readdir_NoDup|intros n; apply readdir_spec|].
    intros n _ _. apply Hd. }
  destruct (deleteLooseWARCs _ _ _) as [[d out] c] eqn:E.
  simpl in Hc. subst c. simpl. split; [|done]. split.
  - intros name. rewrite disk_put.
    rewrite (deleteLooseWARCs_result _ _ _ _ _ E name).
    destruct (_ && _); [apply Hd|done].
  - by rewrite WARCs_put.
Qed.

Lemma method_checkWARCsHashes_runs w :
  well_listed w ->
  well_listed (method_checkWARCsHashes sha1_hex w).1
  /\ (method_checkWARCsHashes sha1_hex w).2 = Js.Returns tt.
Proof.
  intros [Hd Hn]. unfold method_checkWARCsHashes.
  destruct (checkWARCsHashes_effect sha1_hex (WARCs (this w)) (disk w)
              (log (this w))) as (Hid & Hsub & Hret).
  destruct (checkWARCsHashes _ _ _ _) as [[[ws d] out] c].
  simpl in *. split; [|apply Hret; intros e _; apply Hd].
  split.
  - intros name. rewrite disk_put.
    destruct (Hsub name) as [->|[-> _]]; [apply Hd|done].
  - rewrite WARCs_put. eapply named_names; [|exact Hn].
    by apply names_identity.
Qed.

Lemma method_fetchWARCs_runs w :
  well_listed w ->
  well_listed (method_fetchWARCs download w).1
  /\ (method_fetchWARCs download w).2 = Js.Returns tt.
Proof.
  intros [Hd Hn]. unfold method_fetchWARCs.
  pose proof (fetchWARCs_no_new_directory download (concurrency (this w))
                (WARCs (this w)) (disk w) (log (this w))) as H.
  destruct (fetchWARCs _ _ _ _ _) as [[d out] calls]. simpl in *.
  split; [|done]. split.
  - intros name Hdir. rewrite disk_put in Hdir. by apply (Hd name), H.
  - by rewrite WARCs_put.
Qed.

Lemma method_generatePagesList_runs w :
  well_listed w ->
  well_listed (method_generatePagesList Date_toISOString w).1
  /\ (method_generatePagesList Date_toISOString w).2 = Js.Returns tt.
Proof.
  intros [Hd Hn]. unfold method_generatePagesList, generatePagesList.
  rewrite pages_loop_named by done. simpl. split; [|done].
  split; [done|]. simpl. by destruct (this w).
Qed.

Variables checkCredentials createCollectionFolder fetchCollectionInfo
  fetchWARCsList generateWACZ : method.

Hypothesis others_run :
  Forall (λ m : method,
            forall w, well_listed w ->
                      well_listed (m w).1 /\ (m w).2 = Js.Returns tt)
    [checkCredentials; createCollectionFolder; fetchCollectionInfo;
     fetchWARCsList; generateWACZ].

Lemma Preparator_stages_run w :
  well_listed w ->
  (process Number_toString
     (Preparator_stages Date_toISOString sha1_hex Number_toString
        encodeURIComponent seed_report seed_metadata wayback download
        checkCredentials createCollectionFolder fetchCollectionInfo
        fetchWARCsList generateWACZ) w).2
  = Js.Undefined.
Proof.
  rewrite !Forall_cons in others_run.
  destruct others_run as (H1 & H2 & H3 & H4 & H5 & _).
  apply (process_runs Number_toString _ well_listed well_listed_say); simpl;
    try done.
  - apply method_fetchWARCsCrawlInfo_runs.
  - apply method_deleteLooseWARCs_runs.
  - apply method_checkWARCsHashes_runs.
  - apply method_fetchWARCs_runs.
  - apply method_generatePagesList_runs.
  - apply method_fetchCrawledUrlsTitle_runs.
Qed.

End ClassStages.

(** ** PipelineOrchestrator *)

(** Takes the awaited method [stage] of [process] apart; the branch where
    it rejects is closed by [tac]. *)
Ltac await stage tac :=
  match goal with
  | |- context [stage ?M ?w] =>
      destruct (stage M w) as [? [[]|?]]; simpl; [|tac]
  end.

Ltac await_until_titles tac :=
  await run_checkCredentials tac;
  await run_createCollectionFolder tac;
  await run_fetchCollectionInfo tac;
  await run_fetchWARCsList tac;
  await run_fetchWARCsCrawlInfo tac.

Ltac await_after_titles tac :=
  await run_deleteLooseWARCs tac;
  await run_checkWARCsHashes tac;
  await run_fetchWARCs tac;
  await run_checkWARCsHashes tac;
  await run_generatePagesList tac;
  await run_generateWACZ tac.

(** Whatever the methods do, the value [process] resolves to is falsy:
    [false] after a gating stage rejected, [undefined] after the report. *)
Lemma process_never_truthy (N : Js.number -> string) (M : Stages) (w : World) :
  Js.truthy (process N M w).2 = false.
Proof.
  unfold process.
  await_until_titles done.
  destruct (run_fetchCrawledUrlsTitle M _) as [? [[]|?]]; simpl;
    await_after_titles done; done.
Qed.

(** C1. A run in which every stage succeeds: [process] prints the report
    and resolves to [undefined], which is falsy, where the documentation
    ([@returns {Promise<boolean>}], the README's [if (await
    collection.process())]) has a truthy value. *)
Theorem process_success_is_undefined :
  (process Host.Number_toString Host.all_resolve Host.world).2 = Js.Undefined
  /\ Js.truthy (process Host.Number_toString Host.all_resolve Host.world).2
     = false.
Proof. split; reflexivity. Qed.



(** No crawl report can be fetched: the failure is traced, the warning
    follows, and the run goes on to the report; the reference has no crawled
    url. *)
Example process_without_reports :
  let r := process Host.Number_toString Sample.stages_without_reports Host.world in
  r.2 = Js.Undefined
  /\ crawledUrls <$> WARCs (this r.1) = [[]]
  /\ log (this r.1)
     = [(LInfo, Msg "Checking credentials combination");
        (LInfo, Msg "Creating collections folder (if not already present)");
        (LInfo, Msg "Pulling collection information for 12345");
        (LInfo, Msg "Listing WARC files from collection 12345");
        (LInfo, Msg "1 entries found in total.");
        (LInfo, Msg "Pulling crawl and seed information for each entry");
        (LInfo, Msg "capture1.warc.gz: pulling crawl info.");
        (LTrace, Caught (Js.Error "ECONNRESET"));
        (LWarn, Msg "A request to pull crawl info failed. Skipping.");
        (LInfo, Msg "Pulling page titles for each entry");
        (LInfo, Msg "Deleting loose .warc.gz files (present in folder, but not referenced in collection)");
        (LInfo, Msg "Checking hashes of WARCs that may already be present in collection folder");
        (LInfo, Msg "Downloading WARCs");
        (LInfo, Msg "capture1.warc.gz: downloading ...");
        (LInfo, Msg "Checking hashes on downloaded WARC collection");
        (LInfo, Msg "capture1.warc.gz: present on disk, checking hash.");
        (LInfo, Msg "Building pages list");
        (LInfo, Msg "Preparing WACZ file");
        (LInfo, Msg "📚 Collection is ready.");
        (LInfo, Msg "WACZ file can be found here: null")].
Proof. vm_compute. repeat split; reflexivity. Qed.

(** Neither the seed meta data nor the replay endpoint can be reached (limit
    1, so that the request is made): both failures are traced, no title is
    found, and the run goes on to the report. *)
Example process_without_titles :
  let w := {| this := (Host.construct
                         (with_concurrency (Js.Num (Js.Finite 1)) Host.options)).1;
              disk := ∅ |} in
  let r := process Host.Number_toString Sample.stages_without_titles w in
  r.2 = Js.Undefined
  /\ pages (this r.1) = []
  /\ log (this r.1)
     = [(LInfo, Msg "Checking credentials combination");
        (LInfo, Msg "Creating collections folder (if not already present)");
        (LInfo, Msg "Pulling collection information for 12345");
        (LInfo, Msg "Listing WARC files from collection 12345");
        (LInfo, Msg "1 entries found in total.");
        (LInfo, Msg "Pulling crawl and seed information for each entry");
        (LInfo, Msg "capture1.warc.gz: pulling crawl info.");
        (LInfo, Msg "Pulling page titles for each entry");
        (LInfo, Msg "An error occurred while trying to pull seed information for 1.");
        (LTrace, Caught (Js.Error "ECONNRESET"));
        (LInfo, Msg "An error occurred while trying to retrieve the archived page title from https://wayback.archive-it.org/12345/20210430200457/https://example.com.");
        (LTrace, Caught (Js.Error "ECONNRESET"));
        (LWarn, Msg "No title found for https://example.com.");
        (LInfo, Msg "Deleting loose .warc.gz files (present in folder, but not referenced in collection)");
        (LInfo, Msg "Checking hashes of WARCs that may already be present in collection folder");
        (LInfo, Msg "Downloading WARCs");
        (LInfo, Msg "capture1.warc.gz: downloading ...");
        (LInfo, Msg "Checking hashes on downloaded WARC collection");
        (LInfo, Msg "capture1.warc.gz: present on disk, checking hash.");
        (LInfo, Msg "Building pages list");
        (LInfo, Msg "Preparing WACZ file");
        (LInfo, Msg "📚 Collection is ready.");
        (LInfo, Msg "WACZ file can be found here: null")].
Proof. vm_compute. repeat split; reflexivity. Qed.

(** ** Construction: the [concurrency] option *)

Lemma log_logs l a p : log (logs l a p) = (log p ++ [(l, a)])%list.
Proof. by destruct p. Qed.

Lemma concurrency_logs l a p : concurrency (logs l a p) = concurrency p.
Proof. by destruct p. Qed.

Section ConstructionFacts.

Variable StringToNumber : string -> Js.number.
Variable Number_toString : Js.number -> string.
Variable trim : string -> string.
Variable URL_href : string -> option string.
Variable is_writable_directory : string -> bool.
Variable PWD : option string.

Let warning := concurrency_warning Number_toString.

(** A step of the constructor that leaves [concurrency] alone and logs no
    [concurrency] warning. *)
Let silent (this this' : Preparator) : Prop :=
  concurrency this' = concurrency this
  /\ exists l, log this' = (log this ++ l)%list /\ warning ∉ l.

Lemma silent_same this this' :
  concurrency this' = concurrency this -> log this' = log this ->
  silent this this'.
Proof.
  intros Hc Hl. split; [done|]. exists []. rewrite app_nil_r.
  split; [done|]. apply not_elem_of_nil.
Qed.

Lemma silent_refl this : silent this this.
Proof. by apply silent_same. Qed.

Lemma filterBlockingOptions_silent options this this' :
  filterBlockingOptions StringToNumber trim options this = (this', Js.Returns tt) ->
  silent this this'.
Proof.
  unfold filterBlockingOptions, trimmed_nonempty.
  destruct options as [o|]; [|done].
  destruct (opt_username o) as [| | | |u]; try done.
  destruct (trim u =? ""); [done|].
  destruct (opt_password o) as [| | | |p]; try done.
  destruct (trim p =? ""); [done|].
  destruct (Js.isNaN _); [done|]. destruct (negb _); [done|].
  intros [= <-]. by destruct this; apply silent_same.
Qed.

Lemma filter_outputPath_silent options this :
  silent this (filter_outputPath is_writable_directory options this).
Proof.
  unfold filter_outputPath.
  destruct (Js.truthy _); [|apply silent_refl].
  assert (forall e, silent this
    (logs LWarn
       (Msg ("Provided outputPath is not a directory or cannot be accessed. Using "
             ++ Js.template (outputPath (logs LTrace (Caught e) this))
             ++ " instead."))
       (logs LTrace (Caught e) this))) as Hwarn.
  { intros e. split; [by rewrite !concurrency_logs|].
    eexists. rewrite !log_logs, <- app_assoc. split; [done|].
    simpl. rewrite !not_elem_of_cons. repeat split; try done.
    apply not_elem_of_nil. }
  destruct (optional options opt_outputPath) as [| | | |path]; try apply Hwarn.
  destruct (is_writable_directory path); [|apply Hwarn].
  by destruct this; apply silent_same.
Qed.

Lemma filter_signingUrl_silent options this :
  silent this (filter_signingUrl Number_toString URL_href options this).
Proof.
  unfold filter_signingUrl.
  destruct (Js.truthy _); [|apply silent_refl].
  destruct (URL_href _).
  - by destruct this; apply silent_same.
  - split; [by rewrite !concurrency_logs|].
    eexists. rewrite !log_logs, <- app_assoc. split; [done|].
    simpl. rewrite !not_elem_of_cons. repeat split; try done.
    apply not_elem_of_nil.
Qed.

Lemma filter_signingToken_silent options this :
  silent this (filter_signingToken Number_toString options this).
Proof.
  unfold filter_signingToken.
  destruct (_ && _); [|apply silent_refl]. by destruct this; apply silent_same.
Qed.

(** The [concurrency] block: the value is stored when the test accepts it;
    otherwise the field keeps its value and, when the option is truthy,
    the warning is logged. *)
Lemma filter_concurrency_spec options this :
  concurrency this = DEFAULT_CONCURRENCY ->
  let v := optional options opt_concurrency in
  let this' := filter_concurrency StringToNumber Number_toString options this in
  concurrency this'
  = (if concurrency_accepted StringToNumber v
     then ToNumber StringToNumber v else DEFAULT_CONCURRENCY)
  /\ exists l, log this' = (log this ++ l)%list
       /\ (warning ∈ l
           <-> Js.truthy v = true /\ concurrency_accepted StringToNumber v = false).
Proof.
  intros Hdef. simpl. unfold filter_concurrency, concurrency_accepted.
  destruct (Js.truthy _); simpl.
  - destruct (Js.isNaN _); simpl.
    + rewrite !concurrency_logs. split; [done|].
      eexists. rewrite !log_logs, <- app_assoc. split; [done|].
      rewrite Hdef. unfold warning, concurrency_warning. simpl.
      split; [done|]. intros _. apply list_elem_of_further, list_elem_of_here.
    + destruct (Js.gt _ _); simpl.
      * split; [by destruct this|]. exists []. rewrite app_nil_r.
        split; [by destruct this|]. split; [|by intros [_ ?]].
        intros H. by apply elem_of_nil in H.
      * rewrite !concurrency_logs. split; [done|].
        eexists. rewrite !log_logs, <- app_assoc. split; [done|].
        rewrite Hdef. unfold warning, concurrency_warning. simpl.
        split; [done|]. intros _. apply list_elem_of_further, list_elem_of_here.
  - split; [done|]. exists []. rewrite app_nil_r. split; [done|].
    split; [|by intros [? _]]. intros H. by apply elem_of_nil in H.
Qed.

Lemma constructor_completion options v' :
  (constructor StringToNumber Number_toString trim URL_href
     is_writable_directory PWD options).2
  = (constructor StringToNumber Number_toString trim URL_href
       is_writable_directory PWD (with_concurrency v' <$> options)).2.
Proof.
  unfold constructor. destruct options as [o|]; simpl; [|done].
  destruct (negb _); [done|].
  unfold filterBlockingOptions, trimmed_nonempty. simpl.
  destruct (opt_username o) as [| | | |u]; try done.
  destruct (trim u =? ""); [done|].
  destruct (opt_password o) as [| | | |p]; try done.
  destruct (trim p =? ""); [done|].
  destruct (Js.isNaN _); [done|]. by destruct (negb _).
Qed.

Lemma filterBlockingOptions_concurrency options this :
  concurrency (filterBlockingOptions StringToNumber trim options this).1
  = concurrency this.
Proof.
  unfold filterBlockingOptions, trimmed_nonempty.
  destruct options as [o|]; [|by destruct this].
  destruct (opt_username o) as [| | | |u]; try by destruct this.
  destruct (trim u =? ""); [by destruct this|].
  destruct (opt_password o) as [| | | |p]; try by destruct this.
  destruct (trim p =? ""); [by destruct this|].
  destruct (Js.isNaN _); [by destruct this|].
  destruct (negb _); by destruct this.
Qed.

Lemma filterNonBlockingOptions_spec options this :
  concurrency this = DEFAULT_CONCURRENCY ->
  warning ∉ log this ->
  let v := optional options opt_concurrency in
  let this' := filterNonBlockingOptions StringToNumber Number_toString
                 URL_href is_writable_directory options this in
  concurrency this'
  = (if concurrency_accepted StringToNumber v
     then ToNumber StringToNumber v else DEFAULT_CONCURRENCY)
  /\ (warning ∈ log this'
      <-> Js.truthy v = true /\ concurrency_accepted StringToNumber v = false).
Proof.
  intros Hdef Hlog. simpl. unfold filterNonBlockingOptions.
  destruct (filter_outputPath_silent options this) as [C1 (l1 & L1 & W1)].
  set (this1 := filter_outputPath is_writable_directory options this) in *.
  destruct (filter_concurrency_spec options this1) as [C2 (l2 & L2 & W2)];
    [by rewrite C1|].
  set (this2 := filter_concurrency StringToNumber Number_toString options this1) in *.
  destruct (filter_signingUrl_silent options this2) as [C3 (l3 & L3 & W3)].
  set (this3 := filter_signingUrl Number_toString URL_href options this2) in *.
  destruct (filter_signingToken_silent options this3) as [C4 (l4 & L4 & W4)].
  rewrite C4, C3. split; [exact C2|].
  rewrite L4, L3, L2, L1, <- W2, !elem_of_app. tauto.
Qed.

End ConstructionFacts.

(** C10, as stated, fails on the warning: with the option missing the
    instance is built with the default of 50 and nothing is logged. *)
Lemma constructor_missing_concurrency_is_silent :
  Host.construct Host.options
  = ({| username := Some "user"; password := Some "secret"; log := [];
        outputPath := Some "/tmp"; collectionPath := None; WACZPath := None;
        collectionTitle := None; collectionDescription := None;
        concurrency := Js.Finite 50; signingUrl := None; signingToken := None;
        WARCs := []; pages := []; collectionId := Some (Js.Finite 12345) |},
     Js.Returns tt).
Proof. reflexivity. Qed.

(** C10, amended. After the constructor, whether it returns or throws,
    [this.concurrency] is greater than 0. When it returns, the field holds
    the option if the option is truthy, converts to a number that is not NaN
    and is greater than 0, and the default of 50 otherwise; the warning is
    logged exactly when the option is truthy and not accepted, so a missing
    or falsy option leaves the default without a warning. Whether the
    constructor throws does not depend on the option. *)
Theorem constructor_concurrency
    (StringToNumber : string -> Js.number) (Number_toString : Js.number -> string)
    (trim : string -> string) (URL_href : string -> option string)
    (is_writable_directory : string -> bool) (PWD : option string)
    (options : option PreparatorOptions) :
  let r := constructor StringToNumber Number_toString trim URL_href
             is_writable_directory PWD options in
  let v := optional options opt_concurrency in
  Js.gt (concurrency r.1) (Js.Finite 0) = true
  /\ (r.2 = Js.Returns tt ->
      concurrency r.1
      = (if concurrency_accepted StringToNumber v
         then ToNumber StringToNumber v else DEFAULT_CONCURRENCY)
      /\ (concurrency_warning Number_toString ∈ log r.1
          <-> Js.truthy v = true
              /\ concurrency_accepted StringToNumber v = false))
  /\ (forall v',
        r.2 = (constructor StringToNumber Number_toString trim URL_href
                 is_writable_directory PWD (with_concurrency v' <$> options)).2).
Proof.
  simpl.
  assert (let r := constructor StringToNumber Number_toString trim URL_href
             is_writable_directory PWD options in
          r.2 = Js.Returns tt ->
          concurrency r.1
          = (if concurrency_accepted StringToNumber (optional options opt_concurrency)
             then ToNumber StringToNumber (optional options opt_concurrency)
             else DEFAULT_CONCURRENCY)
          /\ (concurrency_warning Number_toString ∈ log r.1
              <-> Js.truthy (optional options opt_concurrency) = true
                  /\ concurrency_accepted StringToNumber
                       (optional options opt_concurrency) = false)) as Hret.
  { simpl. unfold constructor. destruct (negb _); [done|].
    pose proof (filterBlockingOptions_concurrency StringToNumber trim options
                  (fresh PWD)) as Hc.
    destruct (filterBlockingOptions StringToNumber trim options (fresh PWD))
      as [this [[]|e]] eqn:E; [|done].
    intros _. simpl in *.
    apply filterBlockingOptions_silent with (Number_toString := Number_toString)
      in E as [_ (l & Hl & Hw)].
    apply filterNonBlockingOptions_spec; [done|]. by rewrite Hl. }
  split; [|split].
  - simpl in Hret. revert Hret. unfold constructor.
    destruct (negb _); [done|].
    pose proof (filterBlockingOptions_concurrency StringToNumber trim options
                  (fresh PWD)) as Hc.
    destruct (filterBlockingOptions StringToNumber trim options (fresh PWD))
      as [this [[]|e]]; simpl in *.
    + intros Hret. destruct (Hret eq_refl) as [-> _].
      unfold concurrency_accepted.
      destruct (Js.truthy _), (Js.isNaN _); simpl; try done.
      by destruct (Js.gt (ToNumber StringToNumber _) _) eqn:G.
    + intros _. by rewrite Hc.
  - exact Hret.
  - apply constructor_completion.
Qed.

Lemma constructor_concurrency_witness :
  concurrency (Host.construct (with_concurrency (Js.Str "abc") Host.options)).1
  = DEFAULT_CONCURRENCY
  /\ (concurrency_warning Host.Number_toString
      ∈ log (Host.construct (with_concurrency (Js.Str "abc") Host.options)).1
      <-> Js.truthy (Js.Str "abc") = true
          /\ concurrency_accepted Host.StringToNumber (Js.Str "abc") = false).
Proof.
  apply (proj1 (proj2 (constructor_concurrency Host.StringToNumber
                         Host.Number_toString Host.trim Host.URL_href
                         (λ _, true) (Some "/tmp")
                         (Some (with_concurrency (Js.Str "abc") Host.options))))).
  reflexivity.
Defined.

(** A string that is no number: the default stays and the warning is
    logged; a positive number is stored. *)
Example constructor_concurrency_examples :
  log (Host.construct (with_concurrency (Js.Str "abc") Host.options)).1
  = [(LTrace, Caught (Js.AssertionError "true == false"));
     (LWarn, Msg "concurrency was not provided or is not a directory. Using 50 instead.")]
  /\ concurrency (Host.construct (with_concurrency (Js.Str "8") Host.options)).1
     = Js.of_nat 8
  /\ (Host.construct (with_concurrency (Js.Num (Js.Finite 0)) Host.options)).1
     = Host.instance.
Proof. repeat split; reflexivity. Qed.

(** ** The end-to-end scenario

    Collection 12345 with one remote file [capture1.warc.gz], one seed
    record and a metadata title, run through [process] with the methods of
    the class. *)

(** With the default limit of 50 the file is downloaded and verified, but no
    title is asked for and the page index stays empty. *)
Example scenario_default_concurrency :
  let r := process Host.Number_toString Sample.stages Host.world in
  r.2 = Js.Undefined
  /\ pages (this r.1) = []
  /\ disk r.1 = {[ "capture1.warc.gz" := File "abc" true ]}
  /\ downloaded <$> WARCs (this r.1) = [true].
Proof. vm_compute. repeat split; reflexivity. Qed.

(** With a limit of 1 every group is full at once, and the index holds the
    entry the specification expects. *)
Example scenario_concurrency_one :
  let w := {| this := (Host.construct
                         (with_concurrency (Js.Num (Js.Finite 1)) Host.options)).1;
              disk := ∅ |} in
  pages (this (process Host.Number_toString Sample.stages w).1)
  = [{| page_url := Some "https://example.com"; page_title := Some "Example";
        page_ts := Some "2021-04-30T20:04:57Z" |}].
Proof. vm_compute. reflexivity. Qed.

(** ** Construction: which options are accepted, and the instance they give *)

Section ConstructorFacts.

Variable StringToNumber : string -> Js.number.
Variable Number_toString : Js.number -> string.
Variable trim : string -> string.
Variable URL_href : string -> option string.
Variable is_writable_directory : string -> bool.
Variable PWD : option string.

Let new := constructor StringToNumber Number_toString trim URL_href
             is_writable_directory PWD.

Ltac branch :=
  match goal with
  | |- context [if ?b then _ else _] => destruct b eqn:?; simpl
  end.

Lemma constructor_accepts options :
  (new options).2 = Js.Returns tt
  <-> acceptable StringToNumber trim options = true.
Proof.
  unfold new, constructor, filterBlockingOptions, acceptable, provided,
    trimmed_nonempty.
  destruct options as [o|]; simpl; [|done].
  destruct (opt_log o) as [console|]; simpl;
    [destruct (has_trace console && has_info console && has_warn console
               && has_error console); simpl; [|done]|];
    (destruct (opt_username o) as [| |b|n|u]; simpl; try done;
     destruct (String.eqb (trim u) ""); simpl; try done;
     destruct (opt_password o) as [| |b|n|p]; simpl; try done;
     destruct (String.eqb (trim p) ""); simpl; try done;
     destruct (Js.isNaN (ToNumber StringToNumber (opt_collectionId o)));
     simpl; try done;
     destruct (Js.gt (ToNumber StringToNumber (opt_collectionId o))
                 (Js.Finite 0)); simpl; done).
Qed.

Lemma constructor_rejects options e :
  (new options).2 = Js.Throws e ->
  e ∈ [Js.Error "log must be compatible with the Console API.";
       Js.Error "username must be provided.";
       Js.Error "password must be provided.";
       Js.Error "collectionId must be provided."].
Proof.
  unfold new, constructor, filterBlockingOptions, trimmed_nonempty.
  rewrite !elem_of_cons.
  destruct options as [o|]; simpl; [|intros [= <-]; auto].
  destruct (opt_log o) as [console|]; simpl;
    [destruct (has_trace console && has_info console && has_warn console
               && has_error console); simpl; [|intros [= <-]; auto]|];
    (destruct (opt_username o) as [| |b|n|u]; simpl;
       try (intros [= <-]; by auto);
     destruct (String.eqb (trim u) ""); simpl; try (intros [= <-]; by auto);
     destruct (opt_password o) as [| |b|n|p]; simpl;
       try (intros [= <-]; by auto);
     destruct (String.eqb (trim p) ""); simpl; try (intros [= <-]; by auto);
     destruct (Js.isNaN (ToNumber StringToNumber (opt_collectionId o)));
     simpl; try (intros [= <-]; by auto);
     destruct (Js.gt (ToNumber StringToNumber (opt_collectionId o))
                 (Js.Finite 0)); simpl; try (intros [= <-]; by auto); done).
Qed.

(** What the credentials and the identifier of an instance are, and what
    the optional settings are. *)
Let identity_of (p : Preparator) :=
  (username p, password p, collectionId p, WARCs p, pages p).
Let settings_of (p : Preparator) :=
  (outputPath p, signingUrl p, signingToken p).

Lemma filter_outputPath_spec options this :
  let this' := filter_outputPath is_writable_directory options this in
  identity_of this' = identity_of this
  /\ signingUrl this' = signingUrl this
  /\ signingToken this' = signingToken this
  /\ (outputPath this' = outputPath this
      \/ exists path,
           optional options opt_outputPath = Js.Str path
           /\ is_writable_directory path = true
           /\ outputPath this' = Some path).
Proof.
  destruct this. unfold filter_outputPath, logs. simpl.
  destruct (Js.truthy (optional options opt_outputPath)); [|by auto].
  destruct (optional options opt_outputPath) as [| |b|n|path]; simpl;
    try (by auto).
  destruct (is_writable_directory path) eqn:E; simpl; [|by auto].
  repeat split; try done. right. by exists path.
Qed.

Lemma filter_concurrency_keeps options this :
  let this' := filter_concurrency StringToNumber Number_toString options this in
  identity_of this' = identity_of this
  /\ settings_of this' = settings_of this.
Proof.
  destruct this. unfold filter_concurrency, logs. simpl.
  repeat branch; done.
Qed.

Lemma filter_signingUrl_spec options this :
  let this' := filter_signingUrl Number_toString URL_href options this in
  identity_of this' = identity_of this
  /\ outputPath this' = outputPath this
  /\ signingToken this' = signingToken this
  /\ (signingUrl this' = signingUrl this
      \/ exists href,
           URL_href (ToString Number_toString
                       (optional options opt_signingUrl)) = Some href
           /\ signingUrl this' = Some href).
Proof.
  destruct this. unfold filter_signingUrl, logs. simpl.
  destruct (Js.truthy (optional options opt_signingUrl)); [|by auto].
  destruct (URL_href _) as [href|] eqn:E; simpl; [|by auto].
  repeat split; try done. right. by exists href.
Qed.

Lemma filter_signingToken_spec options this :
  let this' := filter_signingToken Number_toString options this in
  identity_of this' = identity_of this
  /\ outputPath this' = outputPath this
  /\ signingUrl this' = signingUrl this
  /\ (signingToken this' = signingToken this
      \/ (Js.truthy_str (signingUrl this) = true
          /\ signingToken this'
             = Some (ToString Number_toString
                       (optional options opt_signingToken)))).
Proof.
  destruct this as [? ? ? ? ? ? ? ? ? url ? ? ? ?].
  unfold filter_signingToken. simpl.
  destruct (Js.truthy_str url) eqn:E; simpl; [|by auto].
  destruct (Js.truthy (optional options opt_signingToken)); simpl;
    [|by auto].
  repeat split; try done. by right.
Qed.

Lemma filterNonBlockingOptions_instance options this :
  let this' := filterNonBlockingOptions StringToNumber Number_toString
                 URL_href is_writable_directory options this in
  identity_of this' = identity_of this
  /\ (outputPath this' = outputPath this
      \/ exists path,
           optional options opt_outputPath = Js.Str path
           /\ is_writable_directory path = true
           /\ outputPath this' = Some path)
  /\ (signingUrl this' = signingUrl this
      \/ exists href,
           URL_href (ToString Number_toString
                       (optional options opt_signingUrl)) = Some href
           /\ signingUrl this' = Some href)
  /\ (signingToken this' = signingToken this
      \/ (Js.truthy_str (signingUrl this') = true
          /\ signingToken this'
             = Some (ToString Number_toString
                       (optional options opt_signingToken)))).
Proof.
  unfold filterNonBlockingOptions.
  destruct (filter_outputPath_spec options this) as (A1 & A2 & A3 & A4).
  set (this1 := filter_outputPath is_writable_directory options this) in *.
  destruct (filter_concurrency_keeps options this1) as (B1 & B2).
  set (this2 := filter_concurrency StringToNumber Number_toString options
                  this1) in *.
  injection B2 as B2 B3 B4.
  destruct (filter_signingUrl_spec options this2) as (C1 & C2 & C3 & C4).
  set (this3 := filter_signingUrl Number_toString URL_href options this2) in *.
  destruct (filter_signingToken_spec options this3) as (D1 & D2 & D3 & D4).
  set (this4 := filter_signingToken Number_toString options this3) in *.
  cbv zeta. split; [by rewrite D1, C1, B1, A1|]. split; [|split].
  - rewrite D2, C2, B2. exact A4.
  - rewrite D3. rewrite <- A2, <- B3. exact C4.
  - rewrite <- A3, <- B4, <- C3. rewrite D3. exact D4.
Qed.

Lemma filterBlockingOptions_instance options this this' :
  filterBlockingOptions StringToNumber trim options this
  = (this', Js.Returns tt) ->
  settings_of this' = settings_of this
  /\ WARCs this' = WARCs this /\ pages this' = pages this
  /\ (exists u, optional options opt_username = Js.Str u
                /\ trim u <> "" /\ username this' = Some (trim u))
  /\ (exists p, optional options opt_password = Js.Str p
                /\ trim p <> "" /\ password this' = Some (trim p))
  /\ (exists id, collectionId this' = Some id
                 /\ id = ToNumber StringToNumber
                           (optional options opt_collectionId)
                 /\ Js.gt id (Js.Finite 0) = true).
Proof.
  destruct this. unfold filterBlockingOptions, trimmed_nonempty, logs.
  destruct options as [o|]; simpl; [|done].
  destruct (opt_username o) as [| |b|n|u]; simpl; try done.
  destruct (String.eqb (trim u) "") eqn:Eu; simpl; [done|].
  destruct (opt_password o) as [| |b|n|p]; simpl; try done.
  destruct (String.eqb (trim p) "") eqn:Ep; simpl; [done|].
  destruct (Js.isNaN (ToNumber StringToNumber (opt_collectionId o)));
    simpl; [done|].
  destruct (Js.gt (ToNumber StringToNumber (opt_collectionId o))
              (Js.Finite 0)) eqn:Eg; simpl; [|done].
  intros [= <-]. simpl. apply String.eqb_neq in Eu, Ep.
  repeat split; eauto.
Qed.

End ConstructorFacts.

(** ** Further properties of the stages *)

(** X1. After a call of [deleteLooseWARCs] that returns, the folder holds
    the entries that end in [.warc.gz] and are named by a reference, each as
    it was, and nothing else. *)
Theorem deleteLooseWARCs_leaves_collection WARCs (d d' : folder) out out' :
  deleteLooseWARCs WARCs d out = (d', out', Js.Returns tt) ->
  forall name, d' !! name = if kept WARCs name then d !! name else None.
Proof.
  intros H name. rewrite (deleteLooseWARCs_result _ _ _ _ _ H name). done.
Qed.

Lemma deleteLooseWARCs_leaves_collection_witness :
  (({[ "capture1.warc.gz" := File "WARC/1.0" true ]} : folder) !! "notes.txt"
   = if kept [Sample.dated] "notes.txt"
     then Sample.notes_folder !! "notes.txt" else None)
  /\ (({[ "capture1.warc.gz" := File "WARC/1.0" true ]} : folder)
        !! "capture1.warc.gz"
      = if kept [Sample.dated] "capture1.warc.gz"
        then Sample.notes_folder !! "capture1.warc.gz" else None).
Proof.
  assert (deleteLooseWARCs [Sample.dated] Sample.notes_folder []
          = ({[ "capture1.warc.gz" := File "WARC/1.0" true ]},
             [(LInfo, Msg "notes.txt: present on disk but not in collection, will be deleted.")],
             Js.Returns tt)) as H
    by (vm_compute; reflexivity).
  split.
  - exact (deleteLooseWARCs_leaves_collection [Sample.dated]
             Sample.notes_folder _ [] _ H "notes.txt").
  - exact (deleteLooseWARCs_leaves_collection [Sample.dated]
             Sample.notes_folder _ [] _ H "capture1.warc.gz").
Defined.

(** X2. [deleteLooseWARCs] returns exactly when every sub-directory of the
    folder has the name of a capture file of the collection: [rm] rejects on
    any other directory, and the stage with it. *)
Theorem deleteLooseWARCs_returns_iff WARCs (d : folder) out :
  (deleteLooseWARCs WARCs d out).2 = Js.Returns tt
  <-> (forall name, d !! name = Some Directory -> kept WARCs name = true).
Proof.
  unfold deleteLooseWARCs.
  rewrite deleteLoose_loop_completion;
    [|apply readdir_NoDup|intros n; apply readdir_spec].
  split.
  - intros H name Hd. destruct (kept WARCs name) eqn:K; [done|].
    exfalso. apply (H name); [|by rewrite kept_test|done].
    apply readdir_spec. by rewrite Hd.
  - intros H name _ K Hd. rewrite kept_test in K.
    specialize (H name Hd). congruence.
Qed.

(** A folder with a sub-directory: the stage rejects. *)
Example deleteLooseWARCs_rejects_on_directory :
  (deleteLooseWARCs [Sample.dated]
     (<["logs" := Directory]> Sample.notes_folder) []).2
  = Js.Throws (Js.Error "ERR_FS_EISDIR").
Proof. vm_compute. reflexivity. Qed.

(** X3. Whatever the digest function and however the call completes,
    [checkWARCsHashes] writes nothing of a reference but [downloaded] and
    [localSHA1Hash], and every entry of the folder is as it was or is a
    file of a reference that has been removed: the pass creates and modifies
    no file. *)
Theorem checkWARCsHashes_only_deletes (sha1_hex : string -> string)
    (WARCs : list ArchiveItWARCReference) (d : folder) (out : logger) :
  let r := checkWARCsHashes sha1_hex WARCs d out in
  identity <$> r.1.1.1 = identity <$> WARCs
  /\ (forall name,
        r.1.1.2 !! name = d !! name
        \/ (r.1.1.2 !! name = None
            /\ name ∈ paths WARCs
            /\ exists content readable,
                 d !! name = Some (File content readable))).
Proof.
  destruct (checkWARCsHashes_effect sha1_hex WARCs d out) as (H1 & H2 & _).
  done.
Qed.

(** X4. [checkWARCsHashes] returns whenever no reference has a directory
    under its file name: the only rejection that leaves the loop is that of
    [rm] on a directory. *)
Theorem checkWARCsHashes_returns_without_directory (sha1_hex : string -> string)
    (WARCs : list ArchiveItWARCReference) (d : folder) (out : logger) :
  (forall e, e ∈ WARCs -> d !! Js.template (filename e) <> Some Directory) ->
  (checkWARCsHashes sha1_hex WARCs d out).2 = Js.Returns tt.
Proof.
  intros H.
  destruct (checkWARCsHashes_effect sha1_hex WARCs d out) as (_ & _ & H3).
  by apply H3.
Qed.

Lemma checkWARCsHashes_returns_without_directory_witness :
  (checkWARCsHashes Host.sha1_hex Sample.three Sample.mixed_folder []).2
  = Js.Returns tt.
Proof.
  apply (checkWARCsHashes_returns_without_directory Host.sha1_hex Sample.three
           Sample.mixed_folder []).
  intros e He. unfold Sample.three in He.
  rewrite !elem_of_cons, elem_of_nil in He.
  destruct He as [->|[->|[->|[]]]]; vm_compute; discriminate.
Defined.

(** X5. The checksum pass is idempotent on what it leaves: after a call that
    returns, where references with the same file name carry the same
    [remoteSHA1Hash], a second call on the references and the folder of the
    first returns the same references and the same folder (the second pass
    of [process] changes nothing when nothing was downloaded in between). *)
Theorem checkWARCsHashes_idempotent (sha1_hex : string -> string)
    (WARCs WARCs' : list ArchiveItWARCReference) (d d' : folder)
    (out out' : logger) :
  (forall content, sha1_hex content <> "") ->
  (forall e1 e2,
      e1 ∈ WARCs -> e2 ∈ WARCs ->
      Js.template (filename e1) = Js.template (filename e2) ->
      remoteSHA1Hash e1 = remoteSHA1Hash e2) ->
  checkWARCsHashes sha1_hex WARCs d out = (WARCs', d', out', Js.Returns tt) ->
  forall out2, exists out3,
    checkWARCsHashes sha1_hex WARCs' d' out2 = (WARCs', d', out3, Js.Returns tt).
Proof.
  intros Hne Hsame H.
  apply (fixed_checkWARCsHashes sha1_hex).
  eapply (checkWARCsHashes_fixed sha1_hex Hne WARCs Hsame); [|exact H]. done.
Qed.

Lemma checkWARCsHashes_idempotent_witness :
  exists out3,
    checkWARCsHashes Host.sha1_hex
      [Sample.ref "a.warc.gz" [];
       set_localSHA1Hash (Some "66b27417d37e024c46526c2f6d358a754fc552f3")
         (Sample.ref "b.warc.gz" []);
       set_downloaded true
         (set_localSHA1Hash (Some "a9993e364706816aba3e25717850c26c9cd0d89d")
            (Sample.ref "c.warc.gz" []))]
      {[ "c.warc.gz" := File "abc" true ]} []
    = ([Sample.ref "a.warc.gz" [];
        set_localSHA1Hash (Some "66b27417d37e024c46526c2f6d358a754fc552f3")
          (Sample.ref "b.warc.gz" []);
        set_downloaded true
          (set_localSHA1Hash (Some "a9993e364706816aba3e25717850c26c9cd0d89d")
             (Sample.ref "c.warc.gz" []))],
       {[ "c.warc.gz" := File "abc" true ]}, out3, Js.Returns tt).
Proof.
  assert (forall e1 e2,
             e1 ∈ Sample.three -> e2 ∈ Sample.three ->
             Js.template (filename e1) = Js.template (filename e2) ->
             remoteSHA1Hash e1 = remoteSHA1Hash e2) as Hsame.
  { assert (forall e, e ∈ Sample.three
                      -> remoteSHA1Hash e
                         = Some "a9993e364706816aba3e25717850c26c9cd0d89d") as Hr.
    { intros e He. unfold Sample.three in He.
      rewrite !elem_of_cons, elem_of_nil in He.
      destruct He as [->|[->|[->|[]]]]; reflexivity. }
    intros e1 e2 H1 H2 _. by rewrite (Hr e1 H1), (Hr e2 H2). }
  assert (checkWARCsHashes Host.sha1_hex Sample.three Sample.mixed_folder []
          = ([Sample.ref "a.warc.gz" [];
              set_localSHA1Hash (Some "66b27417d37e024c46526c2f6d358a754fc552f3")
                (Sample.ref "b.warc.gz" []);
              set_downloaded true
                (set_localSHA1Hash (Some "a9993e364706816aba3e25717850c26c9cd0d89d")
                   (Sample.ref "c.warc.gz" []))],
             {[ "c.warc.gz" := File "abc" true ]},
             (checkWARCsHashes Host.sha1_hex Sample.three
                Sample.mixed_folder []).1.2,
             Js.Returns tt)) as Hfirst
    by (vm_compute; reflexivity).
  exact (checkWARCsHashes_idempotent Host.sha1_hex Sample.three _
           Sample.mixed_folder _ [] _ sha1_hex_nonempty Hsame Hfirst []).
Defined.

(** X6. With a limit greater than 0, [fetchWARCs] removes and overwrites
    nothing: a file of the folder is still there, with what it held followed
    by what was appended; the directories are the same; and an entry that
    differs from what it was has the file name of a reference with
    [downloaded = false]. *)
Theorem fetchWARCs_only_appends
    (download : nat -> option string -> Js.completion Download)
    (c : Js.number) (WARCs : list ArchiveItWARCReference) (d : folder)
    (out : logger) :
  Js.gt c (Js.Finite 0) = true ->
  let d' := (fetchWARCs download c WARCs d out).1.1 in
  (forall name content readable,
      d !! name = Some (File content readable) ->
      exists suffix, d' !! name = Some (File (content ++ suffix) readable))
  /\ (forall name, d' !! name = Some Directory <-> d !! name = Some Directory)
  /\ (forall name,
        d' !! name <> d !! name ->
        exists i ref,
          WARCs !! i = Some ref /\ downloaded ref = false
          /\ Js.template (filename ref) = name).
Proof.
  intros positive. exact (fetchWARCs_grown download c WARCs d positive out).
Qed.

Lemma fetchWARCs_only_appends_witness :
  let d' := (fetchWARCs Sample.download_ok (Js.Finite 2) Sample.three
               Sample.mixed_folder []).1.1 in
  (forall name content readable,
      Sample.mixed_folder !! name = Some (File content readable) ->
      exists suffix, d' !! name = Some (File (content ++ suffix) readable))
  /\ (forall name,
        d' !! name = Some Directory
        <-> Sample.mixed_folder !! name = Some Directory)
  /\ (forall name,
        d' !! name <> Sample.mixed_folder !! name ->
        exists i ref,
          Sample.three !! i = Some ref /\ downloaded ref = false
          /\ Js.template (filename ref) = name).
Proof.
  apply (fetchWARCs_only_appends Sample.download_ok (Js.Finite 2) Sample.three
           Sample.mixed_folder []).
  reflexivity.
Defined.

(** X7. Download, then checksum: a reference to download whose file name no
    other reference has and is not in the folder, and whose download answers
    200 with at least one chunk. After [fetchWARCs] (limit greater than 0)
    the file holds the chunks in order; the checksum pass that follows
    returns (no reference has a directory under its name) and flags the
    reference by the digest of that content: [downloaded = true] and the file
    kept when it is [remoteSHA1Hash], [downloaded = false] and the file
    removed when it is not. *)
Theorem download_then_checksum
    (download : nat -> option string -> Js.completion Download)
    (sha1_hex : string -> string) (c : Js.number)
    (WARCs : list ArchiveItWARCReference) (d : folder) (out : logger)
    (i : nat) (ref : ArchiveItWARCReference) (response : Download) :
  Js.gt c (Js.Finite 0) = true ->
  (forall content, sha1_hex content <> "") ->
  WARCs !! i = Some ref ->
  downloaded ref = false ->
  (forall j ref',
      WARCs !! j = Some ref' ->
      Js.template (filename ref') = Js.template (filename ref) -> j = i) ->
  d !! Js.template (filename ref) = None ->
  (forall e, e ∈ WARCs -> d !! Js.template (filename e) <> Some Directory) ->
  download i (downloadUrl ref) = Js.Returns response ->
  download_status response = 200%Z ->
  download_chunks response <> [] ->
  let content := chunks_content (download_chunks response) in
  let s := (fetchWARCs download c WARCs d out).1 in
  s.1 !! Js.template (filename ref) = Some (File content true)
  /\ exists WARCs' d' out',
       checkWARCsHashes sha1_hex WARCs s.1 s.2 = (WARCs', d', out', Js.Returns tt)
       /\ if decide (remoteSHA1Hash ref = Some (sha1_hex content))
          then d' !! Js.template (filename ref) = Some (File content true)
               /\ downloaded <$> WARCs' !! i = Some true
          else d' !! Js.template (filename ref) = None
               /\ downloaded <$> WARCs' !! i = Some false.
Proof.
  intros positive Hne Hi Hnot Hown Habsent Hnodir Hanswer Hok Hchunk content s.
  pose proof (fetchWARCs_writes download c WARCs d positive i ref response
                Hi Hnot Hown Habsent Hanswer Hok Hchunk out) as Hwritten.
  split; [exact Hwritten|].
  pose proof (fetchWARCs_grown download c WARCs d positive out) as (_ & Hdirs & _).
  destruct (checkWARCsHashes_effect sha1_hex WARCs s.1 s.2) as (_ & _ & Hret).
  destruct (checkWARCsHashes sha1_hex WARCs s.1 s.2)
    as [[[WARCs' d'] out'] c'] eqn:R.
  simpl in Hret.
  assert (c' = Js.Returns tt) as ->.
  { apply Hret. intros e He. unfold s. rewrite Hdirs. by apply Hnodir. }
  exists WARCs', d', out'. split; [done|].
  eapply (checkWARCsHashes_at sha1_hex Hne); [exact R|exact Hi|exact Hown|].
  exact Hwritten.
Qed.

Lemma download_then_checksum_witness :
  let content := chunks_content ["a"; "bc"] in
  let s := (fetchWARCs Sample.download_ok (Js.Finite 2) Sample.three ∅ []).1 in
  s.1 !! Js.template (filename (Sample.ref "a.warc.gz" []))
  = Some (File content true)
  /\ exists WARCs' d' out',
       checkWARCsHashes Host.sha1_hex Sample.three s.1 s.2
       = (WARCs', d', out', Js.Returns tt)
       /\ if decide (remoteSHA1Hash (Sample.ref "a.warc.gz" [])
                     = Some (Host.sha1_hex content))
          then d' !! Js.template (filename (Sample.ref "a.warc.gz" []))
               = Some (File content true)
               /\ downloaded <$> WARCs' !! 0 = Some true
          else d' !! Js.template (filename (Sample.ref "a.warc.gz" [])) = None
               /\ downloaded <$> WARCs' !! 0 = Some false.
Proof.
  apply (download_then_checksum Sample.download_ok Host.sha1_hex (Js.Finite 2)
           Sample.three ∅ [] 0 (Sample.ref "a.warc.gz" [])
           {| download_status := 200; download_chunks := ["a"; "bc"];
              download_error := None |}).
  - reflexivity.
  - apply sha1_hex_nonempty.
  - reflexivity.
  - reflexivity.
  - intros [|[|[|j]]] ref' Hj Hp; [done| | |done];
      injection Hj as <-; vm_compute in Hp; discriminate.
  - reflexivity.
  - intros e _. by rewrite lookup_empty.
  - reflexivity.
  - reflexivity.
  - discriminate.
Defined.

(** X8. However it completes and whatever the requests answer,
    [fetchCrawledUrlsTitle] writes titles and nothing else: the references
    with their titles erased are what they were; and the title of a crawled
    url is the one it had, or a non-empty string (no title is removed or
    emptied). *)
Theorem fetchCrawledUrlsTitle_only_titles
    (collectionId : string) (encodeURIComponent : string -> string)
    (seed_metadata : nat * nat -> Z -> Js.completion (option (list (option string))))
    (wayback : nat * nat -> string -> Js.completion ReplayResponse)
    (c : Js.number) (WARCs : list ArchiveItWARCReference) (out : logger) :
  let WARCs' := (fetchCrawledUrlsTitle collectionId encodeURIComponent
                   seed_metadata wayback c WARCs out).1.1.1 in
  without_titles <$> WARCs' = without_titles <$> WARCs
  /\ forall i ii ref crawl,
       WARCs !! i = Some ref ->
       crawledUrls ref !! ii = Some crawl ->
       exists ref' crawl',
         WARCs' !! i = Some ref'
         /\ crawledUrls ref' !! ii = Some crawl'
         /\ (title crawl' = title crawl
             \/ Js.truthy_str (title crawl') = true).
Proof.
  apply (title_loop_titled collectionId encodeURIComponent seed_metadata wayback
           c WARCs (seq 0 (length WARCs)) [] (WARCs, out) []).
  apply titled_start.
Qed.

(** X9. When every reference has a file name, [generatePagesList] returns,
    and [this.pages] is, reference after reference and crawled url after
    crawled url, the entry [{url, title, ts}] of every crawled url with a
    non-empty title in a reference that is no [MISSING_URLS_PATCH] batch. *)
Theorem generatePagesList_pages (D : string -> option string)
    (WARCs : list ArchiveItWARCReference) :
  Forall (λ ref, filename ref <> None) WARCs ->
  generatePagesList D WARCs
  = (concat (map (entries_of D) WARCs), Js.Returns tt).
Proof. intros H. unfold generatePagesList. by rewrite pages_loop_named. Qed.

Lemma generatePagesList_pages_witness :
  generatePagesList Host.Date_toISOString [Sample.dated; Sample.patch; Sample.undated]
  = (concat (map (entries_of Host.Date_toISOString)
               [Sample.dated; Sample.patch; Sample.undated]),
     Js.Returns tt).
Proof.
  apply (generatePagesList_pages Host.Date_toISOString
           [Sample.dated; Sample.patch; Sample.undated]).
  repeat constructor; discriminate.
Defined.

(** X10. The first reference without a file name stops [generatePagesList]
    with a [TypeError]: [this.pages] holds the entries of the references
    before it, and no reference after it is looked at. *)
Theorem generatePagesList_stops_without_name (D : string -> option string)
    (before after : list ArchiveItWARCReference) (ref : ArchiveItWARCReference) :
  Forall (λ ref, filename ref <> None) before ->
  filename ref = None ->
  generatePagesList D (before ++ ref :: after)
  = (concat (map (entries_of D) before),
     Js.Throws (Js.TypeError "Cannot read properties of undefined (reading 'includes')")).
Proof.
  intros Hb Hf. unfold generatePagesList.
  rewrite pages_loop_app, pages_loop_named by done. simpl.
  unfold is_missing_urls_patch. by rewrite Hf.
Qed.

Lemma generatePagesList_stops_without_name_witness :
  generatePagesList Host.Date_toISOString
    ([Sample.dated]
       ++ {| downloadUrl := None; downloaded := false; filename := None;
             remoteSHA1Hash := None; localSHA1Hash := None; crawlId := None;
             crawledUrls := [] |} :: [Sample.undated])
  = (concat (map (entries_of Host.Date_toISOString) [Sample.dated]),
     Js.Throws (Js.TypeError "Cannot read properties of undefined (reading 'includes')")).
Proof.
  apply (generatePagesList_stops_without_name Host.Date_toISOString
           [Sample.dated] [Sample.undated]).
  - repeat constructor; discriminate.
  - reflexivity.
Defined.

(** X11. Whatever [Date] answers, the [ts] of an entry of [this.pages] is
    [null] or ends in [Z] after a text without a dot: no entry carries
    fractional seconds. *)
Theorem generatePagesList_timestamps (D : string -> option string)
    (WARCs : list ArchiveItWARCReference) (p : WACZPage) :
  p ∈ (generatePagesList D WARCs).1 ->
  page_ts p = None
  \/ exists s, page_ts p = Some (s ++ "Z") /\ Js.includes s "." = false.
Proof.
  unfold generatePagesList.
  assert (forall l pages,
             Forall (λ p, page_ts p = None
                          \/ exists s, page_ts p = Some (s ++ "Z")
                                       /\ Js.includes s "." = false) pages ->
             Forall (λ p, page_ts p = None
                          \/ exists s, page_ts p = Some (s ++ "Z")
                                       /\ Js.includes s "." = false)
               (pages_loop D l pages).1) as H.
  { induction l as [|ref l IH]; intros pages Hp; simpl; [done|].
    destruct (is_missing_urls_patch ref) as [[|]|e]; simpl; [by apply IH| |done].
    apply IH. rewrite push_pages_spec. apply Forall_app. split; [done|].
    apply Forall_forall. intros q Hq.
    apply list_elem_of_In, in_map_iff in Hq as (crawl & <- & _). simpl.
    destruct (formatTimestamp D (timestamp crawl)) as [r|] eqn:E; [|by left].
    right. destruct (formatTimestamp_shape D _ _ E) as (s & -> & Hs).
    by exists s. }
  intros Hp. specialize (H WARCs [] (Forall_nil_2 _)).
  rewrite Forall_forall in H. by apply H.
Qed.

Lemma generatePagesList_timestamps_witness :
  page_ts {| page_url := Some "https://example.com";
             page_title := Some "Example";
             page_ts := Some "2021-04-30T20:04:57Z" |} = None
  \/ exists s,
       page_ts {| page_url := Some "https://example.com";
                  page_title := Some "Example";
                  page_ts := Some "2021-04-30T20:04:57Z" |} = Some (s ++ "Z")
       /\ Js.includes s "." = false.
Proof.
  apply (generatePagesList_timestamps Host.Date_toISOString [Sample.dated]).
  vm_compute. left.
Defined.

(** ** Further properties of the construction and of the report *)

(** X12. The constructor returns exactly on the options it asks for: an
    options object whose [log], if any, has the four methods, whose
    [username] and [password] are strings that are not empty once trimmed,
    and whose [collectionId] converts to a number greater than 0. The
    optional settings never make it throw; what it throws is one of four
    errors. *)
Theorem constructor_decides
    (StringToNumber : string -> Js.number) (Number_toString : Js.number -> string)
    (trim : string -> string) (URL_href : string -> option string)
    (is_writable_directory : string -> bool) (PWD : option string)
    (options : option PreparatorOptions) :
  let r := constructor StringToNumber Number_toString trim URL_href
             is_writable_directory PWD options in
  (r.2 = Js.Returns tt <-> acceptable StringToNumber trim options = true)
  /\ forall e,
       r.2 = Js.Throws e ->
       e ∈ [Js.Error "log must be compatible with the Console API.";
            Js.Error "username must be provided.";
            Js.Error "password must be provided.";
            Js.Error "collectionId must be provided."].
Proof.
  split.
  - apply constructor_accepts.
  - apply constructor_rejects.
Qed.



Lemma count_notDownloaded_zero l :
  count_notDownloaded l = 0 <-> Forall (λ entry, downloaded entry = true) l.
Proof.
  unfold count_notDownloaded.
  assert (forall n,
             foldl (λ n entry, if negb (downloaded entry) then n + 1 else n) n l
             = 0
             <-> n = 0 /\ Forall (λ entry, downloaded entry = true) l) as H.
  { induction l as [|e l IH]; intros n; simpl.
    - split; [by intros ->|by intros [-> _]].
    - rewrite IH, Forall_cons. destruct (downloaded e); simpl.
      + tauto.
      + split; [lia|]. intros (_ & [=] & _). }
  rewrite H. tauto.
Qed.


(** ** WarcLister: the pages of the listing *)

Section ListingFacts.

Variable webdata : nat -> Js.completion (Response WasapiPage).

Lemma fetchWARCsList_loop_reads (pages : list (list WasapiFile)) :
  serves webdata pages ->
  forall fuel k ws,
    k < length pages ->
    length pages - k <= fuel ->
    fetchWARCsList_loop webdata fuel (S k) ws
    = Some ((ws ++ map reference_of (concat (drop k pages)))%list,
            Js.Returns tt).
Proof.
  intros Hserves. induction fuel as [|fuel IH]; intros k ws Hk Hfuel; [lia|].
  destruct (lookup_lt_is_Some_2 pages k Hk) as [entries Hentries].
  simpl. rewrite (Hserves k entries Hentries). simpl.
  rewrite (drop_S _ _ _ Hentries). simpl. rewrite map_app, app_assoc.
  destruct (bool_decide (S k < length pages)) eqn:B.
  - apply bool_decide_eq_true in B. rewrite IH by lia.
    by rewrite <- !app_assoc.
  - apply bool_decide_eq_false in B.
    rewrite drop_ge by lia. simpl. by rewrite app_nil_r.
Qed.

(** A page that fails does so whatever was listed before it. *)
Lemma fetchWARCsList_loop_fails page e :
  fetchWARCsList_loop webdata 1 page [] = Some ([], Js.Throws e) ->
  forall fuel ws,
    fetchWARCsList_loop webdata (S fuel) page ws = Some (ws, Js.Throws e).
Proof.
  simpl. intros H fuel ws.
  destruct (webdata page) as [response|err]; [|by injection H as ->].
  destruct (negb (status response =? 200)%Z); [by injection H as ->|].
  destruct (body response) as [parsed|err]; [|by injection H as ->].
  destruct (listing_files parsed) as [entries|]; [|by injection H as ->].
  by destruct (listing_next parsed).
Qed.

Lemma fetchWARCsList_loop_after (pages : list (list WasapiFile)) e :
  (forall k entries,
      pages !! k = Some entries ->
      webdata (S k)
      = Js.Returns {| status := 200;
                      body := Js.Returns {| listing_files := Some entries;
                                            listing_next := true |} |}) ->
  fetchWARCsList_loop webdata 1 (S (length pages)) []
  = Some ([], Js.Throws e) ->
  forall fuel k ws,
    k <= length pages ->
    length pages - k < fuel ->
    fetchWARCsList_loop webdata fuel (S k) ws
    = Some ((ws ++ map reference_of (concat (drop k pages)))%list,
            Js.Throws e).
Proof.
  intros Hgood Hfail. induction fuel as [|fuel IH]; intros k ws Hk Hfuel;
    [lia|].
  destruct (decide (k = length pages)) as [->|Hne].
  - rewrite (fetchWARCsList_loop_fails _ e Hfail).
    rewrite drop_ge by done. simpl. by rewrite app_nil_r.
  - destruct (lookup_lt_is_Some_2 pages k) as [entries Hentries]; [lia|].
    simpl. rewrite (Hgood k entries Hentries). simpl.
    rewrite IH by lia. rewrite (drop_S _ _ _ Hentries). simpl.
    by rewrite map_app, app_assoc.
Qed.

Lemma fetchWARCsList_loop_endless fuel :
  forall page ws,
    fetchWARCsList_loop webdata fuel page ws = None
    <-> forall k, k < fuel -> announces_next (webdata (page + k)).
Proof.
  induction fuel as [|fuel IH]; intros page ws; simpl.
  - split; [intros _ k Hk; lia|done].
  - assert (forall P : nat -> Prop,
               (forall k, k < S fuel -> P (page + k))
               <-> P page /\ forall k, k < fuel -> P (S page + k)) as Hsplit.
    { intros P. split.
      - intros H. split; [rewrite <- (Nat.add_0_r page); apply H; lia|].
        intros k Hk. replace (S page + k) with (page + S k) by lia.
        apply H. lia.
      - intros [H0 H] [|k] Hk; [by rewrite Nat.add_0_r|].
        replace (page + S k) with (S page + k) by lia. apply H. lia. }
    etransitivity;
      [|symmetry; apply (Hsplit (λ n, announces_next (webdata n)))].
    cbv beta. clear Hsplit. unfold announces_next at 1.
    destruct (webdata page) as [response|err];
      [|split; [done|intros [(? & ? & ? & [=] & _) _]]].
    destruct (status response =? 200)%Z eqn:S; simpl;
      [|split; [done|]; intros [(r & p & l & [= <-] & Hs & _) _];
        rewrite Hs in S; done].
    apply Z.eqb_eq in S.
    destruct (body response) as [parsed|err] eqn:B;
      [|split; [done|]; intros [(r & p & l & [= <-] & _ & Hb & _) _];
        rewrite Hb in B; done].
    destruct (listing_files parsed) as [entries|] eqn:F;
      [|split; [done|];
        intros [(r & p & l & [= <-] & _ & Hb & Hf & _) _];
        rewrite Hb in B; injection B as ->; rewrite Hf in F; done].
    destruct (listing_next parsed) eqn:Nx;
      [|split; [done|];
        intros [(r & p & l & [= <-] & _ & Hb & _ & Hn) _];
        rewrite Hb in B; injection B as ->; rewrite Hn in Nx; done].
    rewrite IH. split.
    + intros H. split; [|done]. by exists response, parsed, entries.
    + by intros [_ H].
Qed.

End ListingFacts.

(** X15. When the listing serves the pages of a collection, each but the
    last announcing a next one, [fetchWARCsList] reads them all and returns
    (given as many pages to read as there are): [this.WARCs] is what it was,
    followed by one reference per listed file, in the order of the pages and
    of the files, each with [downloaded = false], no local digest and no
    crawled url. *)
Theorem fetchWARCsList_reads_pages
    (webdata : nat -> Js.completion (Response WasapiPage))
    (pages : list (list WasapiFile)) (fuel : nat)
    (WARCs : list ArchiveItWARCReference) :
  serves webdata pages ->
  pages <> [] ->
  length pages <= fuel ->
  fetchWARCsList webdata fuel WARCs
  = Some ((WARCs ++ map reference_of (concat pages))%list, Js.Returns tt).
Proof.
  intros Hserves Hpages Hfuel. unfold fetchWARCsList.
  rewrite (fetchWARCsList_loop_reads webdata pages Hserves fuel 0);
    [done| |lia].
  destruct pages; [done|simpl; lia].
Qed.

Lemma fetchWARCsList_reads_pages_witness :
  fetchWARCsList Listing.webdata 2 [Sample.dated]
  = Some (([Sample.dated]
             ++ map reference_of (concat Listing.two_pages))%list,
          Js.Returns tt).
Proof.
  apply (fetchWARCsList_reads_pages Listing.webdata Listing.two_pages 2
           [Sample.dated]).
  - intros [|[|k]] entries H; [by injection H as <-..|done].
  - discriminate.
  - reflexivity.
Defined.

(** X16. When a page of the listing fails after pages that were read, each
    announcing a next one, [fetchWARCsList] throws what that page throws, and
    [this.WARCs] keeps the references of the pages read before it. *)
Theorem fetchWARCsList_stops_at_failure
    (webdata : nat -> Js.completion (Response WasapiPage))
    (pages : list (list WasapiFile)) (e : Js.error) (fuel : nat)
    (WARCs : list ArchiveItWARCReference) :
  (forall k entries,
      pages !! k = Some entries ->
      webdata (S k)
      = Js.Returns {| status := 200;
                      body := Js.Returns {| listing_files := Some entries;
                                            listing_next := true |} |}) ->
  fetchWARCsList_loop webdata 1 (S (length pages)) [] = Some ([], Js.Throws e) ->
  length pages < fuel ->
  fetchWARCsList webdata fuel WARCs
  = Some ((WARCs ++ map reference_of (concat pages))%list, Js.Throws e).
Proof.
  intros Hgood Hfail Hfuel. unfold fetchWARCsList.
  rewrite (fetchWARCsList_loop_after webdata pages e Hgood Hfail fuel 0);
    [done|lia|lia].
Qed.

Lemma fetchWARCsList_stops_at_failure_witness :
  fetchWARCsList Listing.webdata_503 2 []
  = Some (([] ++ map reference_of
                   (concat [[Listing.file "a.warc.gz"; Listing.file "b.warc.gz"]]))%list,
          Js.Throws (Js.Error "Archive-It API responded with 503")).
Proof.
  apply (fetchWARCsList_stops_at_failure Listing.webdata_503
           [[Listing.file "a.warc.gz"; Listing.file "b.warc.gz"]]
           (Js.Error "Archive-It API responded with 503") 2 []).
  - intros [|k] entries H; [by injection H as <-|done].
  - reflexivity.
  - simpl. lia.
Defined.

(** X17. The loop has no bound of its own: reading [fuel] pages does not
    bring [fetchWARCsList] to an end exactly when each of these pages
    answered 200 with files and announced a next page. In every other case
    it has returned or thrown by then. *)
Theorem fetchWARCsList_ends
    (webdata : nat -> Js.completion (Response WasapiPage))
    (fuel : nat) (WARCs : list ArchiveItWARCReference) :
  fetchWARCsList webdata fuel WARCs = None
  <-> forall k, k < fuel -> announces_next (webdata (S k)).
Proof. apply fetchWARCsList_loop_endless. Qed.
